(** * Plaintext pixel-matrix codec and synthetic image generators

    A shallow embedding of the Python scripts of the repository
    ([Edge Detection/convert_image.py], [Edge Detection/generate_test_images.py],
    [Image Segmentation/generate_test_images.py],
    [Image Segmentation/generate_large_images.py],
    [Image Segmentation/ReadImage.py], [Image Segmentation/visualize.py])
    together with the properties of the plaintext format they exchange.

    Conventions of the embedding:
    - Python integers are [Z]; [//] is [Z.div] and [%] is [Z.modulo]
      (both round towards minus infinity, as in Python);
    - text is a list of characters, a character being a code point below 256;
    - a script that writes files, prints or draws random numbers is a
      function on an explicit [world]; a raised exception is a value. *)

From Stdlib Require Import ZArith QArith Qabs Qminmax Qround Lqa Ascii String Floats Uint63.
From stdpp Require Import base option list gmap strings.

Local Open Scope Z_scope.

(** ** Python built-ins used by the scripts *)

Module Py.

Abbreviation text := (list ascii).

Definition txt (s : string) : text := list_ascii_of_string s.

Definition LF : ascii := "010"%char.
Definition CR : ascii := "013"%char.
Definition SP : ascii := " "%char.

Definition ord (c : ascii) : Z := Z.of_N (N_of_ascii c).

(** [str.isspace] on one character (code points below 256). *)
Definition isspace (c : ascii) : bool :=
  let n := ord c in
  ((9 <=? n) && (n <=? 13)) || ((28 <=? n) && (n <=? 32))
  || (n =? 133) || (n =? 160).

(** Exceptions the scripts can meet. *)
Inductive exn : Type :=
| ValueError_literal (tok : text)   (* int() on a malformed literal *)
| ValueError_range_step             (* range() arg 3 must not be zero *)
| ValueError_randrange              (* empty range for randrange() *)
| ValueError_size                   (* negative image or array dimensions *)
| ValueError_header_empty           (* raised by load_segmented_image *)
| ValueError_header_arity
| ValueError_channels (c : Z)
| TypeError_too_many_data           (* Image.putdata with a long sequence *)
| OverflowError                     (* Image.putdata with a sample too large to convert *)
| ValueError_unknown_extension (ext : text)   (* Image.save *)
| SystemError_tile                  (* Image.save of an image without pixels *)
| ZeroDivisionError
| IndexError
| ValueError_scale                  (* np.random.normal with scale < 0 *)
| FileNotFoundError (path : string)
| UnidentifiedImageError (path : string)
| UnicodeDecodeError (path : string).

Abbreviation result A := (exn + A)%type.

(** *** [str(n)] for an integer *)

Definition digit_char (d : Z) : ascii := ascii_of_N (Z.to_N (48 + d)).

Fixpoint digits_fuel (fuel : nat) (n : Z) : text :=
  match fuel with
  | O => []
  | S f =>
      if n <? 10 then [digit_char n]
      else digits_fuel f (n / 10) ++ [digit_char (n mod 10)]
  end.

Definition str_nonneg (n : Z) : text :=
  digits_fuel (S (Z.to_nat (Z.log2 n))) n.

Definition str (n : Z) : text :=
  if n <? 0 then "-"%char :: str_nonneg (- n) else str_nonneg n.

(** *** [s.strip()], [s.split()] and [sep.join(l)] *)

Fixpoint lstrip (s : text) : text :=
  match s with
  | [] => []
  | c :: s' => if isspace c then lstrip s' else s
  end.

Definition rstrip (s : text) : text := reverse (lstrip (reverse s)).

Definition strip (s : text) : text := rstrip (lstrip s).

(** [split_from cur s]: [cur] is the word being read, last character first. *)
Fixpoint split_from (cur : text) (s : text) : list text :=
  match s with
  | [] => match cur with [] => [] | _ => [reverse cur] end
  | c :: s' =>
      if isspace c then
        match cur with
        | [] => split_from [] s'
        | _ => reverse cur :: split_from [] s'
        end
      else split_from (c :: cur) s'
  end.

Definition split (s : text) : list text := split_from [] s.

Fixpoint join (sep : text) (l : list text) : text :=
  match l with
  | [] => []
  | [x] => x
  | x :: l' => x ++ sep ++ join sep l'
  end.

(** *** [int(s)] for a string: optional sign, decimal digits, single
    underscores between digits, surrounding whitespace ignored. *)

Definition digit_val (c : ascii) : option Z :=
  let n := ord c in
  if (48 <=? n) && (n <=? 57) then Some (n - 48) else None.

Fixpoint int_digits (acc : Z) (after_digit : bool) (s : text) : option Z :=
  match s with
  | [] => if after_digit then Some acc else None
  | c :: s' =>
      match digit_val c with
      | Some d => int_digits (10 * acc + d) true s'
      | None =>
          if Ascii.eqb c "_" && after_digit then int_digits acc false s'
          else None
      end
  end.

Definition int_literal (s : text) : option Z :=
  match strip s with
  | c :: s' =>
      if Ascii.eqb c "-" then Z.opp <$> int_digits 0 false s'
      else if Ascii.eqb c "+" then int_digits 0 false s'
      else int_digits 0 false (c :: s')
  | [] => None
  end.

Definition int (s : text) : result Z :=
  match int_literal s with
  | Some n => inr n
  | None => inl (ValueError_literal s)
  end.

(** *** [range] *)

Definition range (n : Z) : list Z := seqZ 0 n.

Definition range3 (start stop step : Z) : result (list Z) :=
  if step =? 0 then inl ValueError_range_step
  else if 0 <? step then
    inr ((λ k, start + k * step) <$> seqZ 0 ((stop - start + step - 1) / step))
  else
    inr ((λ k, start + k * step) <$> seqZ 0 ((start - stop - step - 1) / (- step))).

(** [l[a:b]] for bounds that are not negative. *)
Definition slice {A} (l : list A) (a b : Z) : list A :=
  take (Z.to_nat (b - a)) (drop (Z.to_nat a) l).

(** *** Text files: universal newlines, [readline], iteration by lines *)

Fixpoint universal_newlines (s : text) : text :=
  match s with
  | [] => []
  | c :: s' =>
      if Ascii.eqb c CR then
        LF :: match s' with
              | [] => []
              | c' :: s'' =>
                  if Ascii.eqb c' LF then universal_newlines s''
                  else universal_newlines s'
              end
      else c :: universal_newlines s'
  end.

Fixpoint readline (s : text) : text * text :=
  match s with
  | [] => ([], [])
  | c :: s' =>
      if Ascii.eqb c LF then ([LF], s')
      else let '(l, r) := readline s' in (c :: l, r)
  end.

Fixpoint lines_from (cur : text) (s : text) : list text :=
  match s with
  | [] => match cur with [] => [] | _ => [reverse cur] end
  | c :: s' =>
      if Ascii.eqb c LF then reverse (LF :: cur) :: lines_from [] s'
      else lines_from (c :: cur) s'
  end.

Definition lines (s : text) : list text := lines_from [] s.

(** *** [os.path.splitext(p)[1].lower()] *)

(** The last component of a path. *)
Fixpoint basename (s : text) : text :=
  match s with
  | [] => []
  | c :: s' =>
      if existsb (Ascii.eqb "/") s' then basename s'
      else if Ascii.eqb c "/" then s' else s
  end.

(** The part of a file name from its last dot on, provided a character
    other than a dot comes before that dot ([seen]). *)
Fixpoint ext_from (seen : bool) (s : text) : text :=
  match s with
  | [] => []
  | c :: s' =>
      if Ascii.eqb c "." then
        if existsb (Ascii.eqb ".") s' then ext_from seen s'
        else if seen then s else []
      else ext_from true s'
  end.

Definition lower (c : ascii) : ascii :=
  let n := ord c in
  if (65 <=? n) && (n <=? 90) then ascii_of_N (Z.to_N (n + 32)) else c.

Definition splitext_lower (p : string) : text :=
  lower <$> ext_from false (basename (list_ascii_of_string p)).

End Py.

Import Py.

(** ** The world the scripts run in *)

(** A decoded grayscale raster (Pillow mode ['L']): [im_data] is what
    [getdata()] returns, row after row. Container decoding and encoding
    belong to the imaging library; a stored image file is its raster. *)
Record image := Image {
  im_width : Z;
  im_height : Z;
  im_data : list Z
}.

Inductive file :=
| TextFile (content : text)
| ImageFile (im : image).

(** One constructor per kind of line the scripts print. *)
Inductive message :=
| Msg_converting_to_txt (img_path : string) (width height : Z) (txt_path : string)
| Msg_converting_to_img (txt_path img_path : string)
| Msg_done
| Msg_error_converting_to_text (e : exn)
| Msg_error_converting_to_image (e : exn)
| Msg_error_empty_file
| Msg_error_invalid_header (header : list text)
| Msg_warning_expected_got (expected got : Z)
| Msg_usage
| Msg_unknown_mode
| Msg_created (filename : string) (w h : Z)           (* Created f: WxH *)
| Msg_created_pixels (filename : string) (w h : Z)    (* Created f: WxH (N pixels) *)
| Msg_created_txt (filename : string) (W H : Z)       (* Created: f (WxH, N pixels) *)
| Msg_generating (width height : Z)
| Msg_saved_matrix (output_txt_path : string).

(** The state of Python's [random] module: an arbitrary sequence of raw
    draws and the number of draws consumed so far. *)
Record random_state := RandomState {
  raw : nat → Z;
  cursor : nat
}.

Record world := World {
  files : gmap string file;
  stdout : list message;
  rand : random_state
}.

(** Computations: a result or an exception, and the world left behind. *)
Definition M (A : Type) : Type := world → result A * world.

Global Instance M_ret : MRet M := λ A (a : A) w, (inr a, w).

Global Instance M_bind : MBind M := λ A B (k : A → M B) (m : M A) w,
  match m w with
  | (inr a, w') => k a w'
  | (inl e, w') => (inl e, w')
  end.

Definition raise {A} (e : exn) : M A := λ w, (inl e, w).

Definition lift {A} (r : result A) : M A := λ w, (r, w).

(** [try: body except Exception as e: handler e] *)
Definition try_except {A} (body : M A) (handler : exn → M A) : M A :=
  λ w, match body w with
       | (inl e, w') => handler e w'
       | r => r
       end.

(** [for x in l: body x] *)
Fixpoint for_each {A} (l : list A) (body : A → M unit) : M unit :=
  match l with
  | [] => mret tt
  | x :: l' => body x ;; for_each l' body
  end.

(** [[body x for x in l]] *)
Fixpoint for_collect {A B} (l : list A) (body : A → M B) : M (list B) :=
  match l with
  | [] => mret []
  | x :: l' => y ← body x ; ys ← for_collect l' body; mret (y :: ys)
  end.

(** The same comprehension for code that has no effect but exceptions. *)
Fixpoint collect {A B} (f : A → result B) (l : list A) : result (list B) :=
  match l with
  | [] => inr []
  | x :: l' =>
      match f x with
      | inl e => inl e
      | inr y => match collect f l' with
                 | inl e => inl e
                 | inr ys => inr (y :: ys)
                 end
      end
  end.

Definition print (m : message) : M unit :=
  λ w, (inr tt, World (files w) (stdout w ++ [m]) (rand w)).

(** [open(path, 'w')]: the file is created or truncated.  The path is
    taken to be one that [open] accepts: the name of a file, in a
    directory that exists. *)
Definition open_w (path : string) : M unit :=
  λ w, (inr tt, World (<[path := TextFile []]> (files w)) (stdout w) (rand w)).

(** [f.write(s)] on the file opened at [path]; inside a [with] block the
    text written so far stays in the file when an exception leaves it. *)
Definition f_write (path : string) (s : text) : M unit :=
  λ w, match files w !! path with
       | Some (TextFile old) =>
           (inr tt, World (<[path := TextFile (old ++ s)]> (files w)) (stdout w) (rand w))
       | _ => (inr tt, w)
       end.

(** [open(path, 'r')] followed by reading: the whole text, newlines
    translated. *)
Definition open_r (path : string) : M text :=
  λ w, match files w !! path with
       | Some (TextFile s) => (inr (universal_newlines s), w)
       | Some (ImageFile _) => (inl (UnicodeDecodeError path), w)
       | None => (inl (FileNotFoundError path), w)
       end.

(** *** The imaging library (Pillow), mode ['L'] *)

Module PIL.

(** [Image.open(path).convert('L')] *)
Definition open (path : string) : M image :=
  λ w, match files w !! path with
       | Some (ImageFile im) => (inr im, w)
       | Some (TextFile _) => (inl (UnidentifiedImageError path), w)
       | None => (inl (FileNotFoundError path), w)
       end.

Definition size (im : image) : Z * Z := (im_width im, im_height im).

Definition getdata (im : image) : list Z := im_data im.

(** [Image.new('L', (width, height))]: a black raster. *)
Definition new (size : Z * Z) : result image :=
  let '(width, height) := size in
  if (width <? 0) || (height <? 0) then inl ValueError_size
  else inr (Image width height (replicate (Z.to_nat (width * height)) 0)).

Definition clip8 (v : Z) : Z := Z.max 0 (Z.min 255 v).

(** The magnitude from which an integer is too large to convert to a
    double: it would round to 2^1024. *)
Definition sample_limit : Z := 2 ^ 1024 - 2 ^ 970.

(** [img.putdata(data)]: a sequence longer than the raster is refused;
    otherwise every sample is converted to a double, which fails on an
    integer too large for one, and stored from the first pixel on,
    clipped to a byte. *)
Definition putdata (im : image) (data : list Z) : result image :=
  if im_width im * im_height im <? Z.of_nat (length data)
  then inl TypeError_too_many_data
  else if forallb (λ v, Z.abs v <? sample_limit) data
  then inr (Image (im_width im) (im_height im)
              ((clip8 <$> data) ++ drop (length data) (im_data im)))
  else inl OverflowError.

(** Whether the path names a PNG file.  The store keeps decoded rasters,
    so a written file is modelled only for a lossless format, and PNG is
    the one the scripts name; every other extension is treated like one
    that the library has no writer for. *)
Definition png (path : string) : bool :=
  bool_decide (splitext_lower path = txt ".png").

(** What [img.save(path)] checks: the format is chosen from the
    extension, before the file is opened; the encoder then refuses an
    image without pixels. *)
Definition save_check (im : image) (path : string) : result unit :=
  if negb (png path) then inl (ValueError_unknown_extension (splitext_lower path))
  else if (im_width im =? 0) || (im_height im =? 0) then inl SystemError_tile
  else inr tt.

(** [img.save(path)]; a save that fails leaves no file behind. *)
Definition save (im : image) (path : string) : M unit :=
  λ w, match save_check im path with
       | inl e => (inl e, w)
       | inr _ => (inr tt, World (<[path := ImageFile im]> (files w)) (stdout w) (rand w))
       end.

End PIL.

(** ** [Edge Detection/convert_image.py] *)

Definition header_line (height width channels : Z) : text :=
  str height ++ [SP] ++ str width ++ [SP] ++ str channels ++ [LF].

Definition row_line (row : list Z) : text :=
  join [SP] (str <$> row) ++ [LF].

Definition convert_to_txt (img_path txt_path : string) : M unit :=
  try_except
    (img ← PIL.open img_path;
     let '(width, height) := PIL.size img in
     let pixels := PIL.getdata img in
     print (Msg_converting_to_txt img_path width height txt_path) ;;
     open_w txt_path ;;
     f_write txt_path (header_line height width 1) ;;
     starts ← lift (range3 0 (Z.of_nat (length pixels)) width);
     for_each starts (λ i,
       let row := slice pixels i (i + width) in
       f_write txt_path (row_line row)) ;;
     print Msg_done)
    (λ e, print (Msg_error_converting_to_text e)).

(** What becomes of the first line (lines 34 to 43). *)
Inductive header_outcome :=
| Header_empty
| Header_invalid (header : list text)
| Header_raises (e : exn)
| Header_ok (height width channels : Z).

Definition read_header (first_line : text) : header_outcome :=
  let header := split (strip first_line) in
  match header with
  | [] => Header_empty
  | [a; b; c] =>
      match int a, int b, int c with
      | inr height, inr width, inr channels => Header_ok height width channels
      | inl e, _, _ | _, inl e, _ | _, _, inl e => Header_raises e
      end
  | _ => Header_invalid header
  end.

(** The pixel loop (lines 46 to 50): every line is stripped, split and
    converted, and its values extend the buffer. *)
Definition read_pixels (rest : text) : result (list Z) :=
  match collect (λ line, collect int (split (strip line))) (lines rest) with
  | inl e => inl e
  | inr vals => inr (concat vals)
  end.

Definition convert_to_img (txt_path img_path : string) : M unit :=
  try_except
    (print (Msg_converting_to_img txt_path img_path) ;;
     content ← open_r txt_path;
     let '(first_line, rest) := readline content in
     match read_header first_line with
     | Header_empty => print Msg_error_empty_file
     | Header_invalid header => print (Msg_error_invalid_header header)
     | Header_raises e => raise e
     | Header_ok height width channels =>
         pixels ← lift (read_pixels rest);
         (if bool_decide (Z.of_nat (length pixels) ≠ width * height)
          then print (Msg_warning_expected_got (width * height) (Z.of_nat (length pixels)))
          else mret tt) ;;
         img ← lift (PIL.new (width, height));
         img ← lift (PIL.putdata img pixels);
         PIL.save img img_path ;;
         print Msg_done
     end)
    (λ e, print (Msg_error_converting_to_image e)).

(** The script's entry point; the value is the exit status of the process
    ([sys.exit(1)] gives 1, reaching the end of the script gives 0). *)
Definition main (argv : list string) : M Z :=
  if bool_decide (length argv < 4)%nat then
    print Msg_usage ;; mret 1
  else
    let mode := default EmptyString (argv !! 1%nat) in
    let input_file := default EmptyString (argv !! 2%nat) in
    let output_file := default EmptyString (argv !! 3%nat) in
    if String.eqb mode "to_txt" then
      convert_to_txt input_file output_file ;; mret 0
    else if String.eqb mode "to_img" then
      convert_to_img input_file output_file ;; mret 0
    else
      print Msg_unknown_mode ;; mret 0.

(** ** Python and NumPy floats

    The operations the generators apply to floating-point numbers, as an
    interface: [binary64] below is the IEEE 754 double arithmetic that
    CPython and NumPy use; [PyFloatLaws] states the textbook properties
    of round-to-nearest from which the general results follow. *)

Class PyFloat (F : Type) := {
  of_int : Z → F;               (* float(n) *)
  truediv : Z → Z → F;          (* x / w on integers, for w <> 0 *)
  fmul : F → F → F;
  fadd : F → F → F;
  float32 : F → F;              (* storing into an array of dtype float32 *)
  fclip : F → F → F → F;        (* np.clip(v, lo, hi) *)
  trunc : F → Z                 (* int(v), and astype(uint8) within 0..255 *)
}.

Definition Qtrunc (q : Q) : Z :=
  if Qle_bool 0 q then Qfloor q else Qceiling q.

Class PyFloatLaws (F : Type) `{PyFloat F} := {
  val : F → Q;                  (* the number a float stands for *)
  rnd : Q → Q;                  (* rounding to the nearest float *)
  rnd32 : Q → Q;                (* rounding to the nearest float32 *)
  rnd_proper : ∀ a b : Q, (a == b → rnd a == rnd b)%Q;
  rnd_mono : ∀ a b : Q, (a <= b → rnd a <= rnd b)%Q;
  rnd_exact : ∀ m k : Z,
    Z.abs m <= 2 ^ 53 → 0 <= k <= 1000 →
    (rnd (inject_Z m / inject_Z (2 ^ k)) == inject_Z m / inject_Z (2 ^ k))%Q;
  rnd_error : ∀ a : Q,
    (1 / inject_Z (2 ^ 1000) <= Qabs a → Qabs a <= inject_Z (2 ^ 1000) →
     Qabs (rnd a - a) <= Qabs a / inject_Z (2 ^ 53))%Q;
  val_of_int : ∀ n : Z, (val (of_int n) == rnd (inject_Z n))%Q;
  val_truediv : ∀ x w : Z, w ≠ 0 →
    (val (truediv x w) == rnd (inject_Z x / inject_Z w))%Q;
  val_fmul : ∀ a b : F, (val (fmul a b) == rnd (val a * val b))%Q;
  val_fadd : ∀ a b : F, (val (fadd a b) == rnd (val a + val b))%Q;
  val_float32 : ∀ a : F, (val (float32 a) == rnd32 (val a))%Q;
  val_fclip : ∀ v lo hi : F,
    (val (fclip v lo hi) == Qmin (Qmax (val v) (val lo)) (val hi))%Q;
  trunc_val : ∀ a : F, trunc a = Qtrunc (val a)
}.

(** *** IEEE 754 double precision *)

Module Binary64.

(** [float(n)]: the double nearest to the integer [n], ties to even (an
    integer beyond the range of the doubles gives an infinity, where
    Python raises [OverflowError]). *)
Definition of_int (n : Z) : float :=
  SF2Prim (binary_normalize 53 1024 n 0 false).

(** The quotient of two integers that are exact as floats. *)
Definition truediv (x w : Z) : float := PrimFloat.div (of_int x) (of_int w).

Definition trunc (f : float) : Z :=
  match Prim2SF f with
  | S754_finite s m e =>
      let n := if 0 <=? e then Z.shiftl (Zpos m) e else Z.shiftr (Zpos m) (- e) in
      if s then - n else n
  | _ => 0
  end.

Definition float32 (f : float) : float :=
  match Prim2SF f with
  | S754_finite s m e =>
      SF2Prim (binary_normalize 24 128 (if s then Zneg m else Zpos m) e s)
  | _ => f
  end.

Definition maximum (a b : float) : float := if PrimFloat.ltb a b then b else a.
Definition minimum (a b : float) : float := if PrimFloat.ltb b a then b else a.
Definition clip (v lo hi : float) : float := minimum (maximum v lo) hi.

End Binary64.

Global Instance binary64 : PyFloat float := {
  of_int := Binary64.of_int;
  truediv := Binary64.truediv;
  fmul := PrimFloat.mul;
  fadd := PrimFloat.add;
  float32 := Binary64.float32;
  fclip := Binary64.clip;
  trunc := Binary64.trunc
}.

(** *** Exact arithmetic: every number is its own float *)

Definition exact_arith : PyFloat Q := {|
  of_int := inject_Z;
  truediv := λ x w, (inject_Z x / inject_Z w)%Q;
  fmul := Qmult;
  fadd := Qplus;
  float32 := λ a, a;
  fclip := λ v lo hi, Qmin (Qmax v lo) hi;
  trunc := Qtrunc
|}.

(** ** Helpers shared by the generator scripts *)

Global Instance result_ret : MRet (sum exn) := λ A (a : A), inr a.

Global Instance result_bind : MBind (sum exn) := λ A B (k : A → result B) (m : result A),
  match m with
  | inr a => k a
  | inl e => inl e
  end.

(** [for x in l: s = body s x] for a local variable [s]. *)
Fixpoint for_fold {A S} (l : list A) (body : S → A → M S) (s : S) : M S :=
  match l with
  | [] => mret s
  | x :: l' => s' ← body s x; for_fold l' body s'
  end.

Fixpoint fold_result {A S} (body : S → A → result S) (s : S) (l : list A) : result S :=
  match l with
  | [] => inr s
  | x :: l' =>
      match body s x with
      | inl e => inl e
      | inr s' => fold_result body s' l'
      end
  end.

(** [range(a, b)] *)
Definition range2 (a b : Z) : list Z := seqZ a (b - a).

(** [random.randint(a, b)]: a draw in [a, b], or [ValueError] when the
    interval is empty. *)
Definition randint (a b : Z) : M Z :=
  λ w, if b <? a then (inl ValueError_randrange, w)
       else
         let r := rand w in
         (inr (a + raw r (cursor r) mod (b - a + 1)),
          World (files w) (stdout w) (RandomState (raw r) (S (cursor r)))).

(** [random.random()]: a multiple of 2^-53 in [0, 1). *)
Definition random_random : M Q :=
  λ w, let r := rand w in
       (inr (Qmake (raw r (cursor r) mod 2 ^ 53) (2 ^ 53)),
        World (files w) (stdout w) (RandomState (raw r) (S (cursor r)))).

Definition Qlt_bool (a b : Q) : bool := negb (Qle_bool b a).

(** [os.path.dirname]: the part before the last slash. *)
Fixpoint head_to_last_slash (s : text) : option text :=
  match s with
  | [] => None
  | c :: s' =>
      match head_to_last_slash s' with
      | Some h => Some (c :: h)
      | None => if Ascii.eqb c "/" then Some [c] else None
      end
  end.

Definition is_slash (c : ascii) : bool := Ascii.eqb c "/".

Fixpoint lstrip_slash (s : text) : text :=
  match s with
  | c :: s' => if is_slash c then lstrip_slash s' else s
  | [] => []
  end.

Definition dirname (p : string) : text :=
  match head_to_last_slash (list_ascii_of_string p) with
  | None => []
  | Some h =>
      if forallb is_slash h then h
      else reverse (lstrip_slash (reverse h))
  end.

(** [os.makedirs(d, exist_ok=True)]: directories are not part of the file
    store; the call only fails on the empty path. *)
Definition makedirs (d : text) : M unit :=
  match d with
  | [] => raise (FileNotFoundError EmptyString)
  | _ => mret tt
  end.

(** [os.path.dirname(filename) if os.path.dirname(filename) else "."] *)
Definition dirname_or_dot (filename : string) : text :=
  match dirname filename with
  | [] => txt "."
  | d => d
  end.

(** [l[i]] as an assignment target: the position meant by index [i]. *)
Definition index {A} (l : list A) (i : Z) : result nat :=
  let n := Z.of_nat (length l) in
  if (0 <=? i) && (i <? n) then inr (Z.to_nat i)
  else if (- n <=? i) && (i <? 0) then inr (Z.to_nat (i + n))
  else inl IndexError.

(** [pixels[y][x] = v] on a list of rows. *)
Definition setitem2 (pixels : list (list Z)) (y x v : Z) : result (list (list Z)) :=
  j ← index pixels y;
  match pixels !! j with
  | None => inl IndexError
  | Some row =>
      i ← index row x;
      inr (<[j := <[i := v]> row]> pixels)
  end.

(** ** [Edge Detection/generate_test_images.py] *)

Module Edge.

Section Gradient.
Context {F : Type} `{PyFloat F}.

(** The value of one pixel of the gradient (lines 21 to 23). *)
Definition gradient_val (x w : Z) : result Z :=
  if w =? 0 then inl ZeroDivisionError
  else
    let val := trunc (fmul (truediv x w) (of_int 255)) in
    inr (if x mod 50 <? 5 then 255 - val else val).

Definition create_gradient_image (h w : Z) (filename : string) : M unit :=
  makedirs (dirname_or_dot filename) ;;
  open_w filename ;;
  f_write filename (header_line h w 1) ;;
  for_each (range h) (λ y,
    row ← lift (collect (λ x, gradient_val x w) (range w));
    f_write filename (row_line row)) ;;
  print (Msg_created filename w h).

End Gradient.

Definition stamp_rect (pixels : list (list Z)) (h w rx ry rw rh val : Z)
  : result (list (list Z)) :=
  fold_result (λ pixels y,
      fold_result (λ pixels x, setitem2 pixels y x val)
        pixels (range2 rx (Z.min (rx + rw) w)))
    pixels (range2 ry (Z.min (ry + rh) h)).

Definition stamp_circle (pixels : list (list Z)) (h w cx cy r val : Z)
  : result (list (list Z)) :=
  fold_result (λ pixels y,
      fold_result (λ pixels x,
          if (x - cx) ^ 2 + (y - cy) ^ 2 <=? r ^ 2
          then setitem2 pixels y x val
          else inr pixels)
        pixels (range2 (Z.max 0 (cx - r)) (Z.min w (cx + r + 1))))
    pixels (range2 (Z.max 0 (cy - r)) (Z.min h (cy + r + 1))).

(** The two drawing loops (lines 33 to 55): the grid handed to the writer. *)
Definition shapes_pixels (h w : Z) : M (list (list Z)) :=
  let pixels := replicate (Z.to_nat h) (replicate (Z.to_nat w) 50) in
  pixels ← for_fold (range 5) (λ pixels _,
    rx ← randint 0 (w - 100);
    ry ← randint 0 (h - 100);
    rw ← randint 30 100;
    rh ← randint 30 100;
    val ← randint 150 250;
    lift (stamp_rect pixels h w rx ry rw rh val)) pixels;
  for_fold (range 3) (λ pixels _,
    cx ← randint 50 (w - 50);
    cy ← randint 50 (h - 50);
    r ← randint 20 50;
    val ← randint 150 250;
    lift (stamp_circle pixels h w cx cy r val)) pixels.

Definition create_shapes_image (h w : Z) (filename : string) : M unit :=
  makedirs (dirname_or_dot filename) ;;
  pixels ← shapes_pixels h w;
  open_w filename ;;
  f_write filename (header_line h w 1) ;;
  for_each pixels (λ row, f_write filename (row_line row)) ;;
  print (Msg_created filename w h).

Definition checkerboard_val (x y block_size : Z) : result Z :=
  if block_size =? 0 then inl ZeroDivisionError
  else
    let bx := x / block_size in
    let by_ := y / block_size in
    inr (if (bx + by_) mod 2 =? 0 then 200 else 50).

Definition create_checkerboard_image (h w : Z) (filename : string) (block_size : Z)
  : M unit :=
  makedirs (dirname_or_dot filename) ;;
  open_w filename ;;
  f_write filename (header_line h w 1) ;;
  for_each (range h) (λ y,
    row ← lift (collect (λ x, checkerboard_val x y block_size) (range w));
    f_write filename (row_line row)) ;;
  print (Msg_created filename w h).

Definition noisy_edges_val (x y : Z) : M Z :=
  let band := (y / 64) mod 2 in
  let base := if band =? 0 then 180 else 60 in
  let base := if x mod 100 <? 10 then 255 - base else base in
  noise ← randint (-20) 20;
  mret (Z.max 0 (Z.min 255 (base + noise))).

Definition create_noisy_edges_image (h w : Z) (filename : string) : M unit :=
  makedirs (dirname_or_dot filename) ;;
  open_w filename ;;
  f_write filename (header_line h w 1) ;;
  for_each (range h) (λ y,
    row ← for_collect (range w) (λ x, noisy_edges_val x y);
    f_write filename (row_line row)) ;;
  print (Msg_created filename w h).

End Edge.

(** ** [Image Segmentation/generate_large_images.py] *)

Module Large.

Definition bimodal_val : M Z :=
  u ← random_random;
  if Qlt_bool u (1 # 2) then randint 20 80 else randint 180 240.

Definition create_bimodal_image (h w : Z) (filename : string) : M unit :=
  makedirs (dirname filename) ;;
  open_w filename ;;
  f_write filename (header_line h w 1) ;;
  for_each (range (h * w)) (λ i,
    val ← bimodal_val;
    f_write filename (str val ++ [LF])) ;;
  print (Msg_created_pixels filename w h).

End Large.

(** ** NumPy arrays with two axes *)

Record ndarray (A : Type) := NdArray {
  nd_shape : Z * Z;                 (* (rows, columns) *)
  nd_rows : list (list A)
}.
Arguments NdArray {A} _ _.
Arguments nd_shape {A} _.
Arguments nd_rows {A} _.

Module np.

(** Storing a Python integer into an array of dtype [uint8] keeps its low
    eight bits (NumPy 1); values within 0..255 are stored unchanged. *)
Definition uint8 (v : Z) : Z := v mod 256.

(** [np.full((height, width), v)], [np.zeros] being [full] of zero. *)
Definition full {A} (height width : Z) (v : A) : result (ndarray A) :=
  if (height <? 0) || (width <? 0) then inl ValueError_size
  else inr (NdArray (height, width)
              (replicate (Z.to_nat height) (replicate (Z.to_nat width) v))).

(** [a[rows, cols] = v]: the entries whose row index satisfies [rows] and
    whose column index satisfies [cols] receive [v y x]. A bound [:k]
    is the test [x < k], a bound [k:] the test [k <= x], an index [i]
    the test [x = i] (all bounds and indices here are non-negative). *)
Definition assign {A} (a : ndarray A) (rows cols : Z → bool) (v : Z → Z → A)
  : ndarray A :=
  NdArray (nd_shape a)
    (imap (λ y row,
       imap (λ x old,
         if rows (Z.of_nat y) && cols (Z.of_nat x)
         then v (Z.of_nat y) (Z.of_nat x) else old) row) (nd_rows a)).

Definition all_ (_ : Z) : bool := true.
Definition below (k x : Z) : bool := x <? k.
Definition from (k x : Z) : bool := k <=? x.
Definition between (a b x : Z) : bool := (a <=? x) && (x <? b).
Definition at_ (i x : Z) : bool := x =? i.

Definition map2d {A B} (f : A → B) (a : ndarray A) : ndarray B :=
  NdArray (nd_shape a) (fmap (M:=list) f <$> nd_rows a).

(** The global generator of [np.random]: after [seed(s)] draw number [i]
    of the standard normal law is [standard_normal s i] and raw integer
    draw number [i] is [random_bits s i]. *)
Record random (F : Type) := Random {
  standard_normal : Z → nat → F;
  random_bits : Z → nat → Z
}.
Arguments Random {F} _ _.
Arguments standard_normal {F} _ _ _.
Arguments random_bits {F} _ _ _.

End np.

(** ** [Image Segmentation/generate_test_images.py] *)

Module Seg.

Definition save_image_txt (arr : ndarray Z) (filename : string) : M unit :=
  let '(H, W) := nd_shape arr in
  open_w filename ;;
  f_write filename (header_line H W 1) ;;
  for_each (range H) (λ y,
    let row := default [] (nd_rows arr !! Z.to_nat y) in
    f_write filename (row_line row)) ;;
  print (Msg_created_txt filename W H).

Definition generate_bimodal_image (width height bg_val fg_val : Z)
  : result (ndarray Z) :=
  img ← np.full height width 0;
  let img := np.assign img np.all_ (np.below (width / 2)) (λ _ _, np.uint8 bg_val) in
  let img := np.assign img np.all_ (np.from (width / 2)) (λ _ _, np.uint8 fg_val) in
  mret img.

Definition generate_circle_image (width height bg_val fg_val : Z)
  : result (ndarray Z) :=
  img ← np.full height width (np.uint8 bg_val);
  let cy := height / 2 in
  let cx := width / 2 in
  let radius := Z.min width height / 3 in
  mret (foldl (λ img y,
          foldl (λ img x,
            if (x - cx) ^ 2 + (y - cy) ^ 2 <=? radius ^ 2
            then np.assign img (np.at_ y) (np.at_ x) (λ _ _, np.uint8 fg_val)
            else img) img (range width))
        img (range height)).

Section Floats.
Context {F : Type} `{PyFloat F}.

(** [int(255 * x / d)] *)
Definition ramp (x d : Z) : result Z :=
  if d =? 0 then inl ZeroDivisionError
  else inr (trunc (truediv (255 * x) d)).

Definition generate_gradient_image (width height : Z) : result (ndarray Z) :=
  img ← np.full height width 0;
  fold_result (λ img x,
      v ← ramp x (width - 1);
      mret (np.assign img np.all_ (np.at_ x) (λ _ _, np.uint8 v)))
    img (range width).

(** [loc + np.random.normal(0, scale, (rows, cols))] at entry [(y, x)],
    the draws being numbered from [start] row after row. *)
Definition normal_entry (rng : np.random F) (seed : Z) (start : nat)
    (loc scale cols : Z) (y x : Z) : F :=
  let z := np.standard_normal rng seed (start + Z.to_nat (y * cols + x)) in
  fadd (of_int loc) (fadd (of_int 0) (fmul (of_int scale) z)).

(** [np.clip(img, 0, 255).astype(np.uint8)] *)
Definition clip_to_uint8 (img : ndarray F) : ndarray Z :=
  np.map2d (λ v, trunc (fclip v (of_int 0) (of_int 255))) img.

Definition generate_noisy_bimodal_image (rng : np.random F)
    (width height bg_mean fg_mean noise_std : Z) : result (ndarray Z) :=
  let seed := 42 in
  img ← np.full height width (float32 (of_int 0));
  (if noise_std <? 0 then inl ValueError_scale else inr tt) ;;
  let half := width / 2 in
  let img := np.assign img np.all_ (np.below half)
    (λ y x, float32 (normal_entry rng seed 0 bg_mean noise_std half y x)) in
  let img := np.assign img np.all_ (np.from half)
    (λ y x, float32 (normal_entry rng seed (Z.to_nat (height * half))
                       fg_mean noise_std (width - half) y (x - half))) in
  mret (clip_to_uint8 img).

Definition generate_large_test_image (rng : np.random F) (width height : Z)
  : result (ndarray Z) :=
  let seed := 123 in
  img ← np.full height width 0;
  img ← fold_result (λ img x,
      v ← ramp x (width / 2 - 1);
      mret (np.assign img (np.below (height / 2)) (np.at_ x) (λ _ _, np.uint8 v)))
    img (range (width / 2));
  let img := np.assign img (np.below (height / 2)) (np.from (width / 2))
    (λ _ _, np.uint8 200) in
  let img := np.assign img (np.from (height / 2)) (np.below (width / 2))
    (λ _ _, np.uint8 50) in
  let img := np.assign img (np.from (height / 2)) (np.from (width / 2))
    (λ y x,
       let i := Z.to_nat ((y - height / 2) * (width - width / 2) + (x - width / 2)) in
       0 + np.random_bits rng seed i mod (256 - 0)) in
  mret img.

Definition generate_very_large_image (rng : np.random F) (width height : Z)
  : M (ndarray Z) :=
  print (Msg_generating width height) ;;
  let seed := 42 in
  img ← lift (np.full height width (float32 (of_int 0)));
  let half := height / 2 in
  let entry loc start y x :=
    float32 (fadd (of_int loc)
      (fmul (of_int 30)
         (np.standard_normal rng seed (start + Z.to_nat (y * width + x))))) in
  let img := np.assign img (np.below half) np.all_ (entry 60 0%nat) in
  let img := np.assign img (np.from half) np.all_
    (λ y x, entry 180 (Z.to_nat (half * width)) (y - half) x) in
  mret (clip_to_uint8 img).

End Floats.

Definition generate_checkerboard_image (width height block_size dark bright : Z)
  : result (ndarray Z) :=
  img ← np.full height width 0;
  fold_result (λ img y,
      fold_result (λ img x,
          if block_size =? 0 then inl ZeroDivisionError
          else
            let block_y := y / block_size in
            let block_x := x / block_size in
            if (block_x + block_y) mod 2 =? 0
            then inr (np.assign img (np.at_ y) (np.at_ x) (λ _ _, np.uint8 dark))
            else inr (np.assign img (np.at_ y) (np.at_ x) (λ _ _, np.uint8 bright)))
        img (range width))
    img (range height).

Definition generate_three_level_image (width height : Z) : result (ndarray Z) :=
  img ← np.full height width 0;
  let third := width / 3 in
  let img := np.assign img np.all_ (np.below third) (λ _ _, np.uint8 30) in
  let img := np.assign img np.all_ (np.between third (2 * third)) (λ _ _, np.uint8 128) in
  let img := np.assign img np.all_ (np.from (2 * third)) (λ _ _, np.uint8 230) in
  mret img.

End Seg.

(** ** [Image Segmentation/ReadImage.py]

    [np.array(img)] of a grayscale raster has one row per image line;
    converting a grayscale raster to RGB repeats each sample three times. *)

Definition array_rows (im : image) : list (list Z) :=
  (λ y, slice (im_data im) (y * im_width im) (y * im_width im + im_width im))
    <$> range (im_height im).

Definition save_image_matrix (input_path output_txt_path : string) (grayscale : bool)
  : M unit :=
  img ← PIL.open input_path;
  let arr := array_rows img in
  let H := im_height img in
  let W := im_width img in
  let C := if grayscale then 1 else 3 in
  open_w output_txt_path ;;
  f_write output_txt_path (header_line H W C) ;;
  (if C =? 1 then
     for_each (range H) (λ y,
       let row := default [] (arr !! Z.to_nat y) in
       f_write output_txt_path (row_line row))
   else
     for_each (range H) (λ y,
       let row_vals :=
         foldl (λ row_vals x,
                  let v := default 0 (default [] (arr !! Z.to_nat y) !! Z.to_nat x) in
                  row_vals ++ [v; v; v]) [] (range W) in
       f_write output_txt_path (row_line row_vals))) ;;
  print (Msg_saved_matrix output_txt_path).

(** ** [Image Segmentation/visualize.py]: the header stage of
    [load_segmented_image] (lines 17 to 24) *)

Definition load_segmented_image_header (first_line : text) : result (Z * Z * Z) :=
  let header := strip first_line in
  match header with
  | [] => inl ValueError_header_empty
  | _ =>
      match split header with
      | [a; b; c] =>
          H ← int a;
          W ← int b;
          C ← int c;
          mret (H, W, C)
      | _ => inl ValueError_header_arity
      end
  end.

(** ** Vocabulary of the statements *)

Definition nonspace (c : ascii) : Prop := isspace c = false.

Definition token (t : text) : Prop := t ≠ [] ∧ Forall nonspace t.

Definition inline (c : ascii) : Prop :=
  Ascii.eqb c LF = false ∧ Ascii.eqb c CR = false.

(** ** The plaintext format, as the specification words it *)

Definition plaintext (height width channels : Z) (rows : list (list Z)) : text :=
  header_line height width channels ++ concat (row_line <$> rows).

(** [rows] is a grid of [height] lines of [n] values. *)
Definition grid (height n : Z) (rows : list (list Z)) : Prop :=
  Z.of_nat (length rows) = height ∧ Forall (λ row, Z.of_nat (length row) = n) rows.


(** A value that a C [long] holds on every platform. *)
Definition c_long (v : Z) : Prop := - 2 ^ 31 <= v < 2 ^ 31.

(** The image that [convert_to_img] makes of accepted dimensions and a
    pixel buffer and is about to store (lines 56 to 58), or the
    exception of the first step that fails. *)
Definition built (width height : Z) (pixels : list Z) (img_path : string) : result image :=
  img ← PIL.new (width, height);
  img ← PIL.putdata img pixels;
  PIL.save_check img img_path ;;
  mret img.

(** The warning [convert_to_img] prints, if any. *)
Definition warning_if_mismatch (width height : Z) (pixels : list Z) : list message :=
  if bool_decide (Z.of_nat (length pixels) ≠ width * height)
  then [Msg_warning_expected_got (width * height) (Z.of_nat (length pixels))]
  else [].

(** The first line is refused: no dimensions come out of it. *)
Definition header_refused (o : header_outcome) : Prop :=
  match o with
  | Header_ok _ _ _ => False
  | _ => True
  end.

(** The ways a first line can be unfit: blank, not three tokens, or
    holding a token that [int] does not accept. *)
Definition unfit_header (first_line : text) : Prop :=
  split first_line = []
  ∨ length (split first_line) ≠ 3%nat
  ∨ ∃ t, t ∈ split first_line ∧ int_literal t = None.

(** The entry of an array at row [y] and column [x]. *)
Definition pixel {A} (img : ndarray A) (y x : Z) : option A :=
  if (0 <=? y) && (0 <=? x)
  then row ← nd_rows img !! Z.to_nat y; row !! Z.to_nat x
  else None.

(** An array whose rows agree with its shape. *)
Definition well_shaped {A} (img : ndarray A) : Prop :=
  0 <= (nd_shape img).1 ∧ 0 <= (nd_shape img).2
  ∧ length (nd_rows img) = Z.to_nat (nd_shape img).1
  ∧ Forall (λ row, length row = Z.to_nat (nd_shape img).2) (nd_rows img).

Definition byte (v : Z) : Prop := 0 <= v <= 255.

(** One step of a scan over the pixels: [img[y, x] = c y x] where [p y x]
    holds. *)
Definition scan_step (p : Z → Z → bool) (c : Z → Z → Z) (y : Z)
    (img : ndarray Z) (x : Z) : ndarray Z :=
  if p y x then np.assign img (np.at_ y) (np.at_ x) (λ _ _, c y x) else img.

(** The colour of the checkerboard of the segmentation tests at [(y, x)]. *)
Definition checker (block_size dark bright : Z) (y x : Z) : Z :=
  if (x / block_size + y / block_size) mod 2 =? 0 then dark else bright.

(** [quiet m P]: [m] leaves the files and the output alone, and any value
    it returns satisfies [P]; [sure m P]: moreover it does return. *)
Definition quiet {A} (m : M A) (P : A → Prop) : Prop :=
  ∀ w, ∃ r w', m w = (r, w') ∧ files w' = files w ∧ stdout w' = stdout w
               ∧ ∀ a, r = inr a → P a.

Definition sure {A} (m : M A) (P : A → Prop) : Prop :=
  ∀ w, ∃ a w', m w = (inr a, w') ∧ files w' = files w ∧ stdout w' = stdout w
               ∧ P a.

(** The common shape of these generators: directory, header, one line
    per row, closing message. *)
Definition line_writer (fn : string) (h wd : Z) (row_of : Z → M (list Z)) : M unit :=
  makedirs (dirname_or_dot fn) ;;
  open_w fn ;;
  f_write fn (header_line h wd 1) ;;
  for_each (range h) (λ y, row ← row_of y; f_write fn (row_line row)) ;;
  print (Msg_created fn wd h).

(** A grid of [h] rows of [wd] values that all satisfy [P]. *)
Definition painted (h wd : Z) (P : Z → Prop) (pixels : list (list Z)) : Prop :=
  length pixels = Z.to_nat h
  ∧ Forall (λ row, length row = Z.to_nat wd ∧ Forall P row) pixels.

(** The values of the shapes image: background, or a shape's fill. *)
Definition shape_value (v : Z) : Prop := v = 50 ∨ 150 <= v <= 250.

(** [int((x / w) * 255)], and the value the edge-detection gradient
    gives to column [x]: the former, inverted in the bands. *)
Definition edge_core {F} `{PyFloat F} (x w : Z) : Z :=
  trunc (fmul (truediv x w) (of_int 255)).

Definition edge_gradient_value {F} `{PyFloat F} (x w : Z) : Z :=
  if x mod 50 <? 5 then 255 - edge_core x w else edge_core x w.

(** A float format in which [int((k / 255) * 255)] is [k] for each of
    the ratios k / 255 below one, as it is in IEEE double precision. *)
Definition exact_on_255ths {F} `{PyFloat F} : Prop :=
  ∀ k, 0 <= k < 255 → edge_core k 255 = k.

Definition exact_on_255ths_check {F} `{PyFloat F} : bool :=
  forallb (λ k, edge_core k 255 =? k) (range 255).

(** A grayscale row seen as RGB: every sample three times. *)
Definition triple (row : list Z) : list Z := concat ((λ v, [v; v; v]) <$> row).

(** What a generator leaves in the file store: nothing new, or the file
    [fn] holding rows whose values all satisfy [P]. *)
Definition emits (P : Z → Prop) (fn : string) (w w' : world) : Prop :=
  files w' = files w
  ∨ ∃ h wd rows,
      files w' = <[fn := TextFile (plaintext h wd 1 rows)]> (files w)
      ∧ Forall (Forall P) rows.

(** The values of an array that a generator returns, if it returns. *)
Definition array_values (r : result (ndarray Z)) : list Z :=
  match r with
  | inr img => concat (nd_rows img)
  | inl _ => []
  end.

(** The values of the large bimodal image: dark or bright. *)
Definition bimodal_value (v : Z) : Prop := 20 <= v <= 80 ∨ 180 <= v <= 240.

(** The file [fn] holds a header and [height] lines of
    [width * channels] values. *)
Definition holds_plaintext (w : world) (fn : string) (height width channels : Z) : Prop :=
  ∃ rows,
    files w !! fn = Some (TextFile (plaintext height width channels rows))
    ∧ grid height (width * channels) rows.

(** The file [fn] holds a header and [height * width] lines of one value. *)
Definition holds_value_lines (w : world) (fn : string) (height width : Z) : Prop :=
  ∃ vals,
    files w !! fn = Some (TextFile (plaintext height width 1 ((λ v, [v]) <$> vals)))
    ∧ Z.of_nat (length vals) = height * width.

(** An array all of whose entries are bytes. *)
Definition bytes_array (img : ndarray Z) : Prop := Forall (Forall byte) (nd_rows img).

(** *** Sample inputs *)

Definition sample_world (fs : gmap string file) : world :=
  World fs [] (RandomState (λ n, Z.of_nat n * 7919 + 13) 0).

Definition sample_image : image := Image 2 2 [0; 85; 170; 255].

(** Exact arithmetic satisfies the laws of rounding: nothing is rounded. *)
Definition exact_laws : @PyFloatLaws Q exact_arith.
Proof.
  refine {| val := λ a : Q, a; rnd := λ a : Q, a; rnd32 := λ a : Q, a |}.
  - intros a b Hab. exact Hab.
  - intros a b Hab. exact Hab.
  - intros m k _ _. reflexivity.
  - intros a _ _.
    assert (Hz : (a - a == 0)%Q) by ring.
    rewrite Hz. change (Qabs 0) with 0%Q.
    apply Qle_shift_div_l; [reflexivity|].
    rewrite Qmult_0_l. apply Qabs_nonneg.
  - intros n. reflexivity.
  - intros x w _. reflexivity.
  - intros a b. reflexivity.
  - intros a b. reflexivity.
  - intros a. reflexivity.
  - intros v lo hi. reflexivity.
  - intros a. reflexivity.
Defined.

(** Sample streams for [np.random]: one in exact arithmetic, one in
    IEEE doubles (draw [i] of the normal law is [(i - 3) / 2]). *)
Definition sample_np_random : np.random Q :=
  np.Random (λ _ i, (inject_Z (Z.of_nat i - 3) / 2)%Q) (λ _ i, Z.of_nat i * 77).

Definition sample_np_random64 : np.random float :=
  np.Random (λ _ i, Binary64.truediv (Z.of_nat i - 3) 2) (λ _ i, Z.of_nat i * 77).

(** ** Vocabulary of the further properties *)

(** [m] cannot fail and touches nothing but the random state, of which it
    consumes exactly [n] draws: started with the stream [raw] at position
    [c] it returns [f raw c]. *)
Definition draws {A} (n : nat) (f : (nat → Z) → nat → A) (m : M A) : Prop :=
  ∀ w, m w = (inr (f (raw (rand w)) (cursor (rand w))),
              World (files w) (stdout w)
                (RandomState (raw (rand w)) (cursor (rand w) + n))).

(** The value [random.randint(a, b)] makes of the raw draw [r]. *)
Definition drawn (a b r : Z) : Z := a + r mod (b - a + 1).

(** The noise-free value of the noisy-edges image at column [x] of row
    [y] (lines 91 to 96 of [Edge Detection/generate_test_images.py]). *)
Definition noisy_base (x y : Z) : Z :=
  let band := (y / 64) mod 2 in
  let base := if band =? 0 then 180 else 60 in
  if x mod 100 <? 10 then 255 - base else base.

(** The value the large bimodal generator makes of two consecutive raw
    draws: the first chooses the mode, the second the level. *)
Definition bimodal_of (r1 r2 : Z) : Z :=
  if Qlt_bool (Qmake (r1 mod 2 ^ 53) (2 ^ 53)) (1 # 2)
  then drawn 20 80 r2 else drawn 180 240 r2.

(** A text with every line feed turned into carriage return, line feed. *)
Fixpoint crlf (s : text) : text :=
  match s with
  | [] => []
  | c :: s' => if Ascii.eqb c LF then CR :: LF :: crlf s' else c :: crlf s'
  end.

(** What [load_segmented_image] makes of a first line, told from what
    [convert_to_img] makes of it. *)
Definition outcome_as_result (o : header_outcome) : result (Z * Z * Z) :=
  match o with
  | Header_empty => inl ValueError_header_empty
  | Header_invalid _ => inl ValueError_header_arity
  | Header_raises e => inl e
  | Header_ok height width channels => inr (height, width, channels)
  end.

(** The image of the large mixed generator, quadrant by quadrant. *)
Definition large_test_value {F} (rng : np.random F) (width height y x : Z) : Z :=
  if y <? height / 2 then
    if x <? width / 2 then 255 * x / (width / 2 - 1) else 200
  else
    if x <? width / 2 then 50
    else np.random_bits rng 123
           (Z.to_nat ((y - height / 2) * (width - width / 2) + (x - width / 2)))
         mod 256.

(** How many entries of [l] equal [v]. *)
Definition count (v : Z) (l : list Z) : nat := length (filter (λ u, u = v) l).


(** * Properties *)

(** ** The built-ins at work *)

Example str_examples :
  str 255 = txt "255" ∧ str 0 = txt "0" ∧ str (-40) = txt "-40".
Proof. split_and!; reflexivity. Qed.

Example int_examples :
  int (txt "007") = inr 7
  ∧ int (txt "-2") = inr (-2)
  ∧ int (txt "+15") = inr 15
  ∧ int (txt "1_000") = inr 1000
  ∧ int (txt "1__0") = inl (ValueError_literal (txt "1__0"))
  ∧ int (txt "12a") = inl (ValueError_literal (txt "12a"))
  ∧ int (txt "") = inl (ValueError_literal (txt "")).
Proof. split_and!; reflexivity. Qed.

Example split_examples :
  split (txt "  12  7 x ") = [txt "12"; txt "7"; txt "x"]
  ∧ split (txt "1 2" ++ [LF]) = [txt "1"; txt "2"]
  ∧ strip (SP :: txt "2 2 1" ++ [CR; LF]) = txt "2 2 1"
  ∧ join [SP] [txt "0"; txt "85"] = txt "0 85".
Proof. split_and!; reflexivity. Qed.

Example range_examples :
  range 3 = [0; 1; 2]
  ∧ range (-2) = []
  ∧ range2 2 5 = [2; 3; 4]
  ∧ range3 0 7 3 = inr [0; 3; 6]
  ∧ range3 0 0 0 = inl ValueError_range_step
  ∧ slice [10; 11; 12; 13; 14] 2 4 = [12; 13].
Proof. split_and!; reflexivity. Qed.

Example text_file_examples :
  universal_newlines (txt "a" ++ [CR; LF] ++ txt "b" ++ [CR] ++ txt "c")
  = txt "a" ++ [LF] ++ txt "b" ++ [LF] ++ txt "c"
  ∧ readline (txt "ab" ++ LF :: txt "c") = (txt "ab" ++ [LF], txt "c")
  ∧ lines (txt "ab" ++ LF :: txt "c") = [txt "ab" ++ [LF]; txt "c"]
  ∧ dirname "test_images/a.txt" = txt "test_images"
  ∧ dirname "a.txt" = [].
Proof. split_and!; reflexivity. Qed.

(** ** Characters and decimal numerals *)

Lemma digit_val_digit_char d : 0 <= d < 10 → digit_val (digit_char d) = Some d.
Proof.
  intros Hd.
  assert (Hcases : d = 0 ∨ d = 1 ∨ d = 2 ∨ d = 3 ∨ d = 4 ∨ d = 5 ∨ d = 6
                   ∨ d = 7 ∨ d = 8 ∨ d = 9) by lia.
  repeat destruct Hcases as [-> | Hcases]; try subst d; reflexivity.
Qed.

Lemma digit_char_nonspace d : 0 <= d < 10 → nonspace (digit_char d).
Proof.
  intros Hd.
  assert (Hcases : d = 0 ∨ d = 1 ∨ d = 2 ∨ d = 3 ∨ d = 4 ∨ d = 5 ∨ d = 6
                   ∨ d = 7 ∨ d = 8 ∨ d = 9) by lia.
  repeat destruct Hcases as [-> | Hcases]; try subst d; reflexivity.
Qed.

Lemma digit_char_not_sign d :
  0 <= d < 10 →
  Ascii.eqb (digit_char d) "-" = false ∧ Ascii.eqb (digit_char d) "+" = false.
Proof.
  intros Hd.
  assert (Hcases : d = 0 ∨ d = 1 ∨ d = 2 ∨ d = 3 ∨ d = 4 ∨ d = 5 ∨ d = 6
                   ∨ d = 7 ∨ d = 8 ∨ d = 9) by lia.
  repeat destruct Hcases as [-> | Hcases]; try subst d; split; reflexivity.
Qed.

(** The numeral of [n] is never empty and is made of digits. *)
Lemma digits_fuel_shape fuel n :
  0 <= n →
  ∃ d s, 0 <= d < 10 ∧ digits_fuel (S fuel) n = digit_char d :: s
         ∧ Forall nonspace (digits_fuel (S fuel) n).
Proof.
  revert n. induction fuel as [|fuel IH]; intros n Hn.
  - simpl. destruct (n <? 10) eqn:E.
    + apply Z.ltb_lt in E. exists n, []. repeat split; try lia.
      constructor; [by apply digit_char_nonspace | constructor].
    + apply Z.ltb_ge in E. exists (n mod 10), []. simpl.
      assert (0 <= n mod 10 < 10) by (apply Z.mod_pos_bound; lia).
      repeat split; try lia.
      constructor; [by apply digit_char_nonspace | constructor].
  - change (digits_fuel (S (S fuel)) n) with
      (if n <? 10 then [digit_char n]
       else digits_fuel (S fuel) (n / 10) ++ [digit_char (n mod 10)]).
    destruct (n <? 10) eqn:E.
    + apply Z.ltb_lt in E. exists n, []. repeat split; try lia.
      constructor; [by apply digit_char_nonspace | constructor].
    + apply Z.ltb_ge in E.
      destruct (IH (n / 10)) as (d & s & Hd & Heq & Hall).
      { apply Z.div_pos; lia. }
      rewrite Heq in *. exists d, (s ++ [digit_char (n mod 10)]).
      repeat split; try lia.
      apply Forall_app. split; [done|].
      constructor; [|constructor].
      apply digit_char_nonspace. apply Z.mod_pos_bound. lia.
Qed.

(** Reading back a numeral: the digits of [n] continue the number read
    so far. *)
Lemma int_digits_digits_fuel fuel n acc b rest :
  0 <= n < 10 ^ Z.of_nat (S fuel) →
  int_digits acc b (digits_fuel (S fuel) n ++ rest)
  = int_digits (acc * 10 ^ Z.of_nat (length (digits_fuel (S fuel) n)) + n) true rest.
Proof.
  revert n acc b rest. induction fuel as [|fuel IH]; intros n acc b rest Hn.
  - change (10 ^ Z.of_nat 1) with 10 in Hn.
    simpl digits_fuel. destruct (n <? 10) eqn:E; [|apply Z.ltb_ge in E; lia].
    simpl. rewrite digit_val_digit_char by lia. f_equal. lia.
  - change (digits_fuel (S (S fuel)) n) with
      (if n <? 10 then [digit_char n]
       else digits_fuel (S fuel) (n / 10) ++ [digit_char (n mod 10)]).
    destruct (n <? 10) eqn:E.
    + apply Z.ltb_lt in E. simpl.
      rewrite digit_val_digit_char by lia. f_equal. lia.
    + apply Z.ltb_ge in E.
      rewrite <- app_assoc.
      assert (Hq : 0 <= n / 10 < 10 ^ Z.of_nat (S fuel)).
      { split; [apply Z.div_pos; lia|].
        apply Z.div_lt_upper_bound; [lia|].
        rewrite (Nat2Z.inj_succ (S fuel)), Z.pow_succ_r in Hn; lia. }
      rewrite IH by done. simpl app. cbn [int_digits].
      rewrite digit_val_digit_char by (apply Z.mod_pos_bound; lia).
      f_equal. rewrite length_app. simpl length.
      rewrite Nat2Z.inj_add, Z.pow_add_r by lia.
      change (Z.of_nat 1) with 1. rewrite Z.pow_1_r.
      pose proof (Z.div_mod n 10 ltac:(lia)). lia.
Qed.

Lemma str_nonneg_fuel_ok n : 0 <= n → n < 10 ^ Z.of_nat (S (Z.to_nat (Z.log2 n))).
Proof.
  intros Hn. destruct (decide (n = 0)) as [->|Hne]; [simpl; lia|].
  assert (Hpos : 0 < n) by lia.
  pose proof (Z.log2_spec n Hpos) as [_ Hlt].
  pose proof (Z.log2_nonneg n) as Hl.
  rewrite Nat2Z.inj_succ, Z2Nat.id by done.
  eapply Z.lt_le_trans; [exact Hlt|].
  apply Z.pow_le_mono_l. lia.
Qed.

Lemma int_digits_str_nonneg n b :
  0 <= n → int_digits 0 b (str_nonneg n) = Some n.
Proof.
  intros Hn. unfold str_nonneg.
  rewrite <- (app_nil_r (digits_fuel _ _)).
  rewrite int_digits_digits_fuel by (split; [done | by apply str_nonneg_fuel_ok]).
  reflexivity.
Qed.

Lemma str_nonneg_shape n :
  0 <= n →
  ∃ d s, 0 <= d < 10 ∧ str_nonneg n = digit_char d :: s
         ∧ Forall nonspace (str_nonneg n).
Proof. intros Hn. by apply digits_fuel_shape. Qed.

Lemma str_nonspace n : Forall nonspace (str n).
Proof.
  unfold str. destruct (n <? 0) eqn:E.
  - apply Z.ltb_lt in E. constructor; [reflexivity|].
    destruct (str_nonneg_shape (- n)) as (? & ? & ? & ? & ?); [lia | done].
  - apply Z.ltb_ge in E.
    destruct (str_nonneg_shape n) as (? & ? & ? & ? & ?); done.
Qed.

Lemma str_nonempty n : str n ≠ [].
Proof.
  unfold str. destruct (n <? 0) eqn:E; [done|].
  apply Z.ltb_ge in E.
  destruct (str_nonneg_shape n) as (? & ? & ? & -> & ?); done.
Qed.

(** ** [strip], [split] and [int] on well-behaved tokens *)

Lemma lstrip_nonspace c s : nonspace c → lstrip (c :: s) = c :: s.
Proof. unfold nonspace. intros Hc. simpl. by rewrite Hc. Qed.

Lemma lstrip_skip ws s : Forall (λ c, isspace c = true) ws → lstrip (ws ++ s) = lstrip s.
Proof. induction 1 as [|c ws Hc _ IH]; [done|]. simpl. by rewrite Hc. Qed.

(** Every text is its left-stripped part after some whitespace. *)
Lemma lstrip_decompose s :
  ∃ ws, s = ws ++ lstrip s ∧ Forall (λ c, isspace c = true) ws.
Proof.
  induction s as [|c s (ws & Heq & Hws)]; [by exists []|].
  simpl. destruct (isspace c) eqn:E.
  - exists (c :: ws). split; [simpl; congruence | by constructor].
  - by exists [].
Qed.

Lemma rstrip_decompose s :
  ∃ ws, s = rstrip s ++ ws ∧ Forall (λ c, isspace c = true) ws.
Proof.
  destruct (lstrip_decompose (reverse s)) as (ws & Heq & Hws).
  exists (reverse ws). split; [|by apply Forall_reverse].
  unfold rstrip. rewrite <- reverse_app, <- Heq. by rewrite reverse_involutive.
Qed.

Lemma strip_nonspace s : Forall nonspace s → strip s = s.
Proof.
  intros Hs. unfold strip, rstrip.
  destruct s as [|c s]; [done|].
  rewrite lstrip_nonspace by (by inversion Hs).
  assert (Hr : Forall nonspace (reverse (c :: s))) by (by apply Forall_reverse).
  destruct (reverse (c :: s)) as [|c' s'] eqn:E.
  - apply (f_equal reverse) in E. rewrite reverse_involutive in E. done.
  - rewrite lstrip_nonspace by (by inversion Hr).
    rewrite <- E. apply reverse_involutive.
Qed.

Lemma split_from_word w cur s :
  Forall nonspace w → split_from cur (w ++ s) = split_from (reverse w ++ cur) s.
Proof.
  intros Hw. revert cur. induction Hw as [|c w Hc _ IH]; intros cur; [done|].
  simpl. rewrite Hc, IH. by rewrite reverse_cons, <- app_assoc.
Qed.

Lemma split_from_trailing ws cur :
  Forall (λ c, isspace c = true) ws → split_from cur ws = split_from cur [].
Proof.
  intros Hws. revert cur. induction Hws as [|c ws Hc _ IH]; intros cur; [done|].
  simpl. rewrite Hc. destruct cur; rewrite IH; reflexivity.
Qed.

Lemma split_from_app_trailing s ws cur :
  Forall (λ c, isspace c = true) ws → split_from cur (s ++ ws) = split_from cur s.
Proof.
  intros Hws. revert cur. induction s as [|c s IH]; intros cur.
  - by apply split_from_trailing.
  - simpl. destruct (isspace c); [destruct cur|]; by rewrite IH.
Qed.

Lemma split_from_leading ws s :
  Forall (λ c, isspace c = true) ws → split_from [] (ws ++ s) = split_from [] s.
Proof. induction 1 as [|c ws Hc _ IH]; [done|]. simpl. by rewrite Hc. Qed.

(** Stripping a line before splitting it changes nothing. *)
Lemma split_strip s : split (strip s) = split s.
Proof.
  unfold split, strip.
  destruct (lstrip_decompose s) as (ws1 & Heq1 & Hws1).
  destruct (rstrip_decompose (lstrip s)) as (ws2 & Heq2 & Hws2).
  rewrite Heq1 at 2. rewrite split_from_leading by done.
  rewrite Heq2 at 2. by rewrite split_from_app_trailing.
Qed.

Lemma split_token_sep t c s :
  token t → isspace c = true → split (t ++ c :: s) = t :: split s.
Proof.
  intros [Hne Ht] Hc. unfold split.
  rewrite split_from_word by done. simpl. rewrite Hc, app_nil_r.
  destruct (reverse t) eqn:E.
  - apply (f_equal reverse) in E. rewrite reverse_involutive in E. done.
  - rewrite <- E. by rewrite reverse_involutive.
Qed.

(** Splitting a line written by [join] gives the tokens back. *)
Lemma split_join_line ts :
  Forall token ts → split (join [SP] ts ++ [LF]) = ts.
Proof.
  induction 1 as [|t ts Ht Hts IH]; [reflexivity|].
  destruct ts as [|t' ts].
  - simpl. by rewrite (split_token_sep t LF []).
  - change (join [SP] (t :: t' :: ts)) with (t ++ [SP] ++ join [SP] (t' :: ts)).
    replace ((t ++ [SP] ++ join [SP] (t' :: ts)) ++ [LF])
      with (t ++ SP :: (join [SP] (t' :: ts) ++ [LF]))
      by (by rewrite <- !app_assoc).
    rewrite split_token_sep by done. by rewrite IH.
Qed.

Lemma str_token n : token (str n).
Proof. split; [apply str_nonempty | apply str_nonspace]. Qed.

(** [int(str(n)) == n] *)
Lemma int_str n : int (str n) = inr n.
Proof.
  unfold int, int_literal. rewrite strip_nonspace by apply str_nonspace.
  unfold str. destruct (n <? 0) eqn:E.
  - apply Z.ltb_lt in E. simpl.
    rewrite int_digits_str_nonneg by lia. simpl. f_equal. lia.
  - apply Z.ltb_ge in E.
    destruct (str_nonneg_shape n) as (d & s & Hd & Heq & _); [done|].
    pose proof (int_digits_str_nonneg n false E) as Hint.
    rewrite Heq in *.
    destruct (digit_char_not_sign d Hd) as [-> ->]. by rewrite Hint.
Qed.

Lemma collect_int_str row : collect int (str <$> row) = inr row.
Proof.
  induction row as [|v row IH]; [done|].
  rewrite fmap_cons. cbn [collect]. by rewrite int_str, IH.
Qed.

(** One written row reads back as the row. *)
Lemma read_row_line row :
  collect int (split (strip (row_line row))) = inr row.
Proof.
  rewrite split_strip. unfold row_line.
  rewrite split_join_line; [apply collect_int_str|].
  apply Forall_fmap, Forall_true. intros v. apply str_token.
Qed.

(** ** Lines of a written file *)

Lemma nonspace_inline c : nonspace c → inline c.
Proof.
  unfold nonspace, inline. intros Hc.
  split; destruct (Ascii.eqb_spec c LF), (Ascii.eqb_spec c CR); subst; done.
Qed.

Lemma join_inline ts :
  Forall (Forall nonspace) ts → Forall inline (join [SP] ts).
Proof.
  induction 1 as [|t ts Ht Hts IH]; [constructor|].
  assert (Ht' : Forall inline t).
  { eapply Forall_impl; [exact Ht | apply nonspace_inline]. }
  destruct ts as [|t' ts]; [done|].
  change (join [SP] (t :: t' :: ts)) with (t ++ [SP] ++ join [SP] (t' :: ts)).
  rewrite !Forall_app. split_and!; [done | | done].
  constructor; [by split | constructor].
Qed.

Lemma row_body_inline row : Forall inline (join [SP] (str <$> row)).
Proof.
  apply join_inline, Forall_fmap, Forall_true. intros v. apply str_nonspace.
Qed.

Lemma str_inline n : Forall inline (str n).
Proof. eapply Forall_impl; [apply str_nonspace | apply nonspace_inline]. Qed.

Lemma header_body_inline h w c :
  Forall inline (str h ++ [SP] ++ str w ++ [SP] ++ str c).
Proof.
  rewrite !Forall_app. split_and!; try apply str_inline;
    (constructor; [by split | constructor]).
Qed.

Lemma universal_newlines_inline s : Forall inline s → universal_newlines s = s.
Proof.
  induction 1 as [|c s [_ Hc] _ IH]; [done|].
  simpl. by rewrite Hc, IH.
Qed.

Lemma universal_newlines_app_line body s :
  Forall inline body →
  universal_newlines (body ++ LF :: s) = body ++ LF :: universal_newlines s.
Proof.
  induction 1 as [|c body [_ Hc] _ IH]; [done|].
  simpl. rewrite Hc. f_equal. exact IH.
Qed.

Lemma readline_line body s :
  Forall inline body → readline (body ++ LF :: s) = (body ++ [LF], s).
Proof.
  induction 1 as [|c body [Hc _] _ IH]; [done|].
  simpl. by rewrite Hc, IH.
Qed.

Lemma lines_from_line body cur s :
  Forall inline body →
  lines_from cur (body ++ LF :: s) = (reverse cur ++ body ++ [LF]) :: lines_from [] s.
Proof.
  intros Hb. revert cur. induction Hb as [|c body [Hc _] _ IH]; intros cur.
  - simpl. by rewrite reverse_cons.
  - simpl. rewrite Hc, IH, reverse_cons, <- app_assoc. done.
Qed.

Lemma lines_rows rows : lines (concat (row_line <$> rows)) = row_line <$> rows.
Proof.
  unfold lines. induction rows as [|row rows IH]; [done|].
  rewrite fmap_cons, concat_cons. unfold row_line at 1.
  rewrite <- app_assoc. simpl app.
  rewrite lines_from_line by apply row_body_inline.
  rewrite reverse_nil, IH. done.
Qed.

Lemma universal_newlines_rows rows :
  universal_newlines (concat (row_line <$> rows)) = concat (row_line <$> rows).
Proof.
  induction rows as [|row rows IH]; [done|].
  rewrite fmap_cons, concat_cons. unfold row_line at 1 3.
  rewrite <- !app_assoc. simpl app.
  rewrite universal_newlines_app_line by apply row_body_inline.
  by rewrite IH.
Qed.

(** The pixel loop reads written rows back, in order. *)
Lemma read_pixels_rows rows :
  read_pixels (concat (row_line <$> rows)) = inr (concat rows).
Proof.
  unfold read_pixels. rewrite lines_rows.
  assert (Hc : collect (λ line, collect int (split (strip line))) (row_line <$> rows)
               = inr rows).
  { induction rows as [|row rows IH]; [done|].
    rewrite fmap_cons. cbn [collect]. by rewrite read_row_line, IH. }
  by rewrite Hc.
Qed.

Lemma read_header_line h w c :
  read_header (header_line h w c) = Header_ok h w c.
Proof.
  unfold read_header, header_line. rewrite split_strip. cbn [app].
  rewrite (split_token_sep (str h) SP) by (apply str_token || done).
  rewrite (split_token_sep (str w) SP) by (apply str_token || done).
  rewrite (split_token_sep (str c) LF) by (apply str_token || done).
  change (split []) with (@nil text). by rewrite !int_str.
Qed.

Lemma readline_plaintext h w c rows :
  readline (universal_newlines (plaintext h w c rows))
  = (header_line h w c, concat (row_line <$> rows)).
Proof.
  unfold plaintext, header_line.
  replace ((str h ++ [SP] ++ str w ++ [SP] ++ str c ++ [LF]) ++ concat (row_line <$> rows))
    with ((str h ++ [SP] ++ str w ++ [SP] ++ str c) ++ LF :: concat (row_line <$> rows))
    by (by rewrite <- !app_assoc).
  rewrite universal_newlines_app_line by apply header_body_inline.
  rewrite universal_newlines_rows.
  rewrite readline_line by apply header_body_inline.
  by rewrite <- !app_assoc.
Qed.

(** ** Running the scripts *)

Ltac run := unfold mbind, M_bind, mret, M_ret, lift, raise, print, open_w; cbn beta iota.

Lemma f_write_open path s w old :
  files w !! path = Some (TextFile old) →
  f_write path s w
  = (inr tt, World (<[path := TextFile (old ++ s)]> (files w)) (stdout w) (rand w)).
Proof. intros Hf. unfold f_write. by rewrite Hf. Qed.

(** A loop that only writes appends the pieces in order. *)
Lemma for_each_write {A} path (g : A → text) (l : list A) w old :
  files w !! path = Some (TextFile old) →
  for_each l (λ x, f_write path (g x)) w
  = (inr tt, World (<[path := TextFile (old ++ concat (g <$> l))]> (files w))
               (stdout w) (rand w)).
Proof.
  revert w old. induction l as [|x l IH]; intros w old Hf.
  - simpl. run. rewrite app_nil_r, insert_id by done. by destruct w.
  - cbn [for_each]. run. rewrite (f_write_open _ _ _ old) by done.
    rewrite (IH _ (old ++ g x)) by (cbn; apply lookup_insert_eq).
    cbn [files stdout rand].
    rewrite insert_insert_eq, fmap_cons, concat_cons, app_assoc. done.
Qed.

(** *** Cutting a flat buffer into rows *)

Lemma seqZ_as_seq n : seqZ 0 n = Z.of_nat <$> seq 0 (Z.to_nat n).
Proof.
  unfold seqZ. apply list_fmap_ext. intros _ i _. lia.
Qed.

Lemma chunks_concat {A} (l : list A) (w n : nat) :
  concat ((λ y, take w (drop (y * w) l)) <$> seq 0 n) = take (n * w) l.
Proof.
  induction n as [|n IH]; [done|].
  rewrite seq_S, fmap_app, concat_app, IH. simpl.
  rewrite app_nil_r, take_take_drop. f_equal. lia.
Qed.

Lemma slice_row {A} (l : list A) (w : Z) (y : nat) :
  0 <= w →
  slice l (Z.of_nat y * w) (Z.of_nat y * w + w)
  = take (Z.to_nat w) (drop (y * Z.to_nat w) l).
Proof.
  intros Hw. unfold slice. f_equal; [f_equal; lia|]. f_equal. nia.
Qed.

Lemma array_rows_concat im :
  0 <= im_width im → 0 <= im_height im →
  Z.of_nat (length (im_data im)) = im_width im * im_height im →
  concat (array_rows im) = im_data im.
Proof.
  intros Hw Hh Hlen. unfold array_rows, range.
  rewrite seqZ_as_seq, <- list_fmap_compose.
  erewrite list_fmap_ext; [|intros _ y _; apply (slice_row _ _ y Hw)].
  rewrite chunks_concat. apply take_ge. nia.
Qed.

Lemma array_rows_grid im :
  0 <= im_width im → 0 <= im_height im →
  Z.of_nat (length (im_data im)) = im_width im * im_height im →
  grid (im_height im) (im_width im) (array_rows im).
Proof.
  intros Hw Hh Hlen. unfold grid, array_rows, range.
  rewrite seqZ_as_seq, <- list_fmap_compose. split.
  - rewrite length_fmap, length_seq. lia.
  - apply Forall_fmap, Forall_forall. intros y Hy.
    apply elem_of_seq in Hy. cbn.
    rewrite slice_row by done.
    rewrite length_take, length_drop. nia.
Qed.

(** The starting indices of the rows ([range(0, len(pixels), width)]). *)
Lemma range3_rows w h :
  0 < w → 0 <= h →
  range3 0 (w * h) w = inr ((λ y, y * w) <$> range h).
Proof.
  intros Hw Hh. unfold range3, range.
  destruct (w =? 0) eqn:E; [apply Z.eqb_eq in E; lia|].
  destruct (0 <? w) eqn:E'; [|apply Z.ltb_ge in E'; lia].
  f_equal. replace ((w * h - 0 + w - 1) / w) with h.
  - apply list_fmap_ext. intros _ y _. lia.
  - apply Z.div_unique with (r := w - 1); lia.
Qed.

(** *** [convert_to_txt] *)

Lemma convert_to_txt_rows im w img_path txt_path :
  files w !! img_path = Some (ImageFile im) →
  0 < im_width im → 0 <= im_height im →
  Z.of_nat (length (im_data im)) = im_width im * im_height im →
  convert_to_txt img_path txt_path w
  = (inr tt,
     World (<[txt_path := TextFile (plaintext (im_height im) (im_width im) 1 (array_rows im))]>
              (files w))
       (stdout w ++ [Msg_converting_to_txt img_path (im_width im) (im_height im) txt_path;
                     Msg_done])
       (rand w)).
Proof.
  intros Hf Hw Hh Hlen. unfold convert_to_txt, try_except, PIL.open. run.
  rewrite Hf. unfold PIL.size, PIL.getdata. cbn [files stdout rand].
  rewrite (f_write_open _ _ _ []) by (cbn; apply lookup_insert_eq).
  cbn [files stdout rand]. rewrite Hlen, range3_rows by lia.
  rewrite (for_each_write txt_path
             (λ i, row_line (slice (im_data im) i (i + im_width im))) _ _
             ([] ++ header_line (im_height im) (im_width im) 1))
    by (cbn; apply lookup_insert_eq).
  cbn [files stdout rand]. rewrite !insert_insert_eq.
  unfold plaintext, array_rows.
  rewrite <- !list_fmap_compose, <- (app_assoc (stdout w)). done.
Qed.

Lemma convert_to_txt_zero_width im w img_path txt_path :
  files w !! img_path = Some (ImageFile im) →
  im_width im = 0 →
  convert_to_txt img_path txt_path w
  = (inr tt,
     World (<[txt_path := TextFile (plaintext (im_height im) 0 1 [])]> (files w))
       (stdout w ++ [Msg_converting_to_txt img_path 0 (im_height im) txt_path;
                     Msg_error_converting_to_text ValueError_range_step])
       (rand w)).
Proof.
  intros Hf Hw. unfold convert_to_txt, try_except, PIL.open. run.
  rewrite Hf. unfold PIL.size, PIL.getdata. cbn [files stdout rand].
  rewrite (f_write_open _ _ _ []) by (cbn; apply lookup_insert_eq).
  cbn [files stdout rand]. rewrite Hw. unfold range3. cbn [Z.eqb].
  cbn [files stdout rand].
  rewrite !insert_insert_eq, <- (app_assoc (stdout w)). unfold plaintext.
  by rewrite app_nil_r.
Qed.

(** *** [convert_to_img] on a well-formed file *)

Lemma clip8_bytes data :
  Forall (λ v, 0 <= v <= 255) data → PIL.clip8 <$> data = data.
Proof.
  induction 1 as [|v data Hv _ IH]; [done|].
  rewrite fmap_cons, IH. f_equal. unfold PIL.clip8. lia.
Qed.

Lemma samples_c_long data :
  Forall c_long data → forallb (λ v, Z.abs v <? PIL.sample_limit) data = true.
Proof.
  assert (Hlim : 2 ^ 31 < PIL.sample_limit) by (vm_compute; reflexivity).
  induction 1 as [|v data Hv _ IH]; [done|].
  cbn [forallb]. rewrite IH, andb_true_r. apply Z.ltb_lt.
  unfold c_long in Hv. lia.
Qed.

Lemma bytes_c_long data : Forall (λ v, 0 <= v <= 255) data → Forall c_long data.
Proof.
  intros Hb. eapply Forall_impl; [exact Hb|]. intros v Hv. unfold c_long.
  cbv beta in Hv. assert (255 < 2 ^ 31) by (vm_compute; reflexivity). lia.
Qed.

(** The image built from a buffer that does not overfill a raster with
    pixels, for a PNG path. *)
Lemma built_clipped width height data path :
  0 < width → 0 < height →
  Z.of_nat (length data) <= width * height →
  Forall c_long data → PIL.png path = true →
  built width height data path
  = inr (Image width height
           ((PIL.clip8 <$> data)
            ++ replicate (Z.to_nat (width * height) - length data) 0)).
Proof.
  intros Hw Hh Hlen Hc Hpng. unfold built, PIL.new.
  assert (Hb : (width <? 0) || (height <? 0) = false)
    by (apply orb_false_intro; apply Z.ltb_ge; lia).
  rewrite Hb. unfold mbind at 1, result_bind at 1.
  unfold PIL.putdata. cbn [im_width im_height im_data].
  rewrite (proj2 (Z.ltb_ge _ _)) by lia.
  rewrite samples_c_long by done. unfold mbind at 1, result_bind at 1.
  unfold PIL.save_check. rewrite Hpng. cbn [negb im_width im_height].
  assert (Hz : (width =? 0) || (height =? 0) = false)
    by (apply orb_false_intro; apply Z.eqb_neq; lia).
  rewrite Hz. cbn. by rewrite drop_replicate.
Qed.

Lemma built_bytes width height data path :
  0 < width → 0 < height →
  Z.of_nat (length data) = width * height →
  Forall (λ v, 0 <= v <= 255) data → PIL.png path = true →
  built width height data path = inr (Image width height data).
Proof.
  intros Hw Hh Hlen Hb Hpng.
  rewrite built_clipped by (done || lia || by apply bytes_c_long).
  rewrite clip8_bytes by done.
  replace (Z.to_nat (width * height) - length data)%nat with 0%nat by lia.
  by rewrite app_nil_r.
Qed.

(** What [convert_to_img] does once the header has been accepted and the
    pixel loop has finished. *)
Lemma convert_to_img_built w txt_path img_path content first rest h wd c pixels :
  files w !! txt_path = Some (TextFile content) →
  readline (universal_newlines content) = (first, rest) →
  read_header first = Header_ok h wd c →
  read_pixels rest = inr pixels →
  convert_to_img txt_path img_path w
  = (inr tt,
     match built wd h pixels img_path with
     | inr img =>
         World (<[img_path := ImageFile img]> (files w))
           (stdout w ++ Msg_converting_to_img txt_path img_path
              :: warning_if_mismatch wd h pixels ++ [Msg_done])
           (rand w)
     | inl e =>
         World (files w)
           (stdout w ++ Msg_converting_to_img txt_path img_path
              :: warning_if_mismatch wd h pixels ++ [Msg_error_converting_to_image e])
           (rand w)
     end).
Proof.
  intros Hf Hrl Hh Hp. unfold convert_to_img, try_except, open_r. run.
  cbn [files]. rewrite Hf, Hrl, Hh. run. rewrite Hp.
  unfold warning_if_mismatch, built, mbind, result_bind.
  destruct (bool_decide _); cbn [files stdout rand];
    (destruct (PIL.new (wd, h)) as [e|img]; cbn [files stdout rand];
     [|destruct (PIL.putdata img pixels) as [e|img']; cbn [files stdout rand];
       [|unfold PIL.save; destruct (PIL.save_check img' img_path) as [e|[]];
         cbn [files stdout rand mret result_ret]]]);
    rewrite <- ?app_assoc; done.
Qed.

Lemma convert_to_img_plaintext w txt_path img_path height width channels rows :
  files w !! txt_path = Some (TextFile (plaintext height width channels rows)) →
  0 < width → 0 < height →
  Z.of_nat (length (concat rows)) = width * height →
  Forall (λ v, 0 <= v <= 255) (concat rows) →
  PIL.png img_path = true →
  convert_to_img txt_path img_path w
  = (inr tt,
     World (<[img_path := ImageFile (Image width height (concat rows))]> (files w))
       (stdout w ++ [Msg_converting_to_img txt_path img_path; Msg_done])
       (rand w)).
Proof.
  intros Hf Hw Hh Hlen Hb Hpng.
  rewrite (convert_to_img_built w txt_path img_path _ (header_line height width channels)
             (concat (row_line <$> rows)) height width channels (concat rows)
             Hf (readline_plaintext height width channels rows)
             (read_header_line height width channels) (read_pixels_rows rows)).
  rewrite built_bytes by done. unfold warning_if_mismatch.
  by rewrite bool_decide_eq_false_2 by (intros Hne; apply Hne, Hlen).
Qed.

(** ** The round trip *)




(** ** The reader *)

Lemma split_from_sep c s cur rest :
  isspace c = true →
  split_from cur (s ++ c :: rest) = split_from cur (s ++ [c]) ++ split_from [] rest.
Proof.
  intros Hc. revert cur. induction s as [|a s IH]; intros cur.
  - simpl. rewrite Hc. by destruct cur.
  - simpl. destruct (isspace a); [destruct cur|]; by rewrite IH.
Qed.

(** The words of a text are the words of its lines, in order. *)
Lemma split_lines_from s cur :
  concat ((λ line, split (strip line)) <$> lines_from cur s) = split (reverse cur ++ s).
Proof.
  revert cur. induction s as [|c s IH]; intros cur.
  - simpl. destruct cur as [|a cur].
    + done.
    + rewrite fmap_cons, concat_cons, split_strip. simpl. by rewrite !app_nil_r.
  - simpl. destruct (Ascii.eqb_spec c LF) as [->|Hne].
    + rewrite fmap_cons, concat_cons, split_strip, (IH []).
      rewrite reverse_cons. unfold split.
      by rewrite (split_from_sep LF (reverse cur) [] s).
    + rewrite IH, reverse_cons, <- app_assoc. done.
Qed.

Lemma collect_app {A B} (f : A → result B) l1 l2 :
  collect f (l1 ++ l2)
  = match collect f l1 with
    | inl e => inl e
    | inr v1 => match collect f l2 with
                | inl e => inl e
                | inr v2 => inr (v1 ++ v2)
                end
    end.
Proof.
  induction l1 as [|x l1 IH]; simpl.
  - by destruct (collect f l2).
  - destruct (f x); [done|]. rewrite IH.
    destruct (collect f l1); [done|]. by destruct (collect f l2).
Qed.

Lemma collect_concat {A B} (f : A → result B) ls :
  collect f (concat ls)
  = match collect (collect f) ls with
    | inl e => inl e
    | inr vs => inr (concat vs)
    end.
Proof.
  induction ls as [|l ls IH]; [done|].
  rewrite concat_cons, collect_app, IH. cbn [collect].
  destruct (collect f l); [done|]. by destruct (collect (collect f) ls).
Qed.

Lemma collect_fmap {A B C} (g : A → B) (f : B → result C) l :
  collect f (g <$> l) = collect (λ x, f (g x)) l.
Proof.
  induction l as [|x l IH]; [done|].
  rewrite fmap_cons. cbn [collect]. by rewrite IH.
Qed.

(** The pixel loop collects every whitespace-separated token of the rest
    of the file, converted by [int], in order; it raises at the first
    token that is not an integer literal. *)
Lemma read_pixels_tokens rest : read_pixels rest = collect int (split rest).
Proof.
  unfold read_pixels, lines.
  change (split rest) with (split (reverse [] ++ rest)).
  rewrite <- (split_lines_from rest []), collect_concat, collect_fmap. done.
Qed.




(** ** The header *)

Lemma int_inr_iff t : (∃ n, int t = inr n) ↔ int_literal t ≠ None.
Proof.
  unfold int. destruct (int_literal t); split; intros H; try done.
  - by exists z.
  - by destruct H.
Qed.

Lemma read_header_refused_iff first_line :
  header_refused (read_header first_line) ↔ unfit_header first_line.
Proof.
  unfold read_header, unfit_header. rewrite split_strip.
  destruct (split first_line) as [|a [|b [|c [|d l]]]]; cbn [header_refused length].
  - split; [by left | done].
  - split; [intros _; right; left; lia | done].
  - split; [intros _; right; left; lia | done].
  - unfold int.
    destruct (int_literal a) eqn:Ea, (int_literal b) eqn:Eb, (int_literal c) eqn:Ec;
      cbn [header_refused].
    all: split; [|try done].
    all: try (intros _; right; right; first
           [ by (exists a; split; [rewrite !elem_of_cons; tauto | done])
           | by (exists b; split; [rewrite !elem_of_cons; tauto | done])
           | by (exists c; split; [rewrite !elem_of_cons; tauto | done]) ]).
    + done.
    + intros [H|[H|(t & Ht & Hn)]]; [done | lia |].
      rewrite !elem_of_cons, elem_of_nil in Ht.
      destruct Ht as [->|[->|[->|[]]]]; congruence.
  - split; [intros _; right; left; lia | done].
Qed.

Lemma load_header_refused_iff first_line :
  (∃ e, load_segmented_image_header first_line = inl e) ↔ unfit_header first_line.
Proof.
  unfold load_segmented_image_header, unfit_header.
  pose proof (split_strip first_line) as Hs.
  destruct (strip first_line) as [|c0 s0] eqn:Es.
  - change (split []) with (@nil text) in Hs. rewrite <- Hs.
    split; [by left | by eexists].
  - rewrite Hs.
    destruct (split first_line) as [|a [|b [|c [|d l]]]]; cbn [length].
    + split; [by left | by eexists].
    + split; [intros _; right; left; lia | by eexists].
    + split; [intros _; right; left; lia | by eexists].
    + unfold int, mbind, result_bind, mret, result_ret.
      destruct (int_literal a) eqn:Ea, (int_literal b) eqn:Eb, (int_literal c) eqn:Ec.
      all: split; [|try by eexists].
      all: try (intros _; right; right; first
             [ by (exists a; split; [rewrite !elem_of_cons; tauto | done])
             | by (exists b; split; [rewrite !elem_of_cons; tauto | done])
             | by (exists c; split; [rewrite !elem_of_cons; tauto | done]) ]).
      * by intros [e He].
      * intros [H|[H|(t & Ht & Hn)]]; [done | lia |].
        rewrite !elem_of_cons, elem_of_nil in Ht.
      destruct Ht as [->|[->|[->|[]]]]; congruence.
    + split; [intros _; right; left; lia | by eexists].
Qed.

(** A refused header leaves the file store as it was: no image is made. *)
Lemma convert_to_img_refused w txt_path img_path content :
  files w !! txt_path = Some (TextFile content) →
  header_refused (read_header (readline (universal_newlines content)).1) →
  files (convert_to_img txt_path img_path w).2 = files w.
Proof.
  intros Hf Hr. unfold convert_to_img, try_except, open_r. run.
  cbn [files]. rewrite Hf.
  destruct (readline (universal_newlines content)) as [first rest]. cbn [fst] in Hr.
  destruct (read_header first); try done; reflexivity.
Qed.

(** C3, as amended: the header stage of the reader fails, and no image
    is produced, exactly when the first line is blank, does not consist
    of exactly three whitespace-separated tokens, or holds a token that
    [int] does not accept.  [int] accepts signed decimal literals, so a
    header holding a negative integer passes this stage: "-2 2 1" is read
    as height -2, width 2, one channel.  Reading "bad header\n" is
    refused (two tokens) and leaves no image. *)
Theorem C3_header_error :
  (∀ first_line,
     (header_refused (read_header first_line) ↔ unfit_header first_line)
     ∧ ((∃ e, load_segmented_image_header first_line = inl e) ↔ unfit_header first_line))
  ∧ (∀ (w : world) (txt_path img_path : string) content,
       files w !! txt_path = Some (TextFile content) →
       unfit_header (readline (universal_newlines content)).1 →
       files (convert_to_img txt_path img_path w).2 = files w)
  ∧ read_header (txt "-2 2 1" ++ [LF]) = Header_ok (-2) 2 1
  ∧ load_segmented_image_header (txt "-2 2 1" ++ [LF]) = inr (-2, 2, 1)
  ∧ read_header (txt "bad header" ++ [LF]) = Header_invalid [txt "bad"; txt "header"]
  ∧ load_segmented_image_header (txt "bad header" ++ [LF]) = inl ValueError_header_arity
  ∧ (let w := sample_world {["in.txt" := TextFile (txt "bad header" ++ [LF])]} in
     let w' := (convert_to_img "in.txt" "out.png" w).2 in
     stdout w' = [Msg_converting_to_img "in.txt" "out.png";
                  Msg_error_invalid_header [txt "bad"; txt "header"]]
     ∧ files w' !! "out.png" = None).
Proof.
  split_and!; try reflexivity.
  - intros first_line. split.
    + apply read_header_refused_iff.
    + apply load_header_refused_iff.
  - intros w txt_path img_path content Hf Hu.
    apply (convert_to_img_refused _ _ _ content); [done|].
    by apply read_header_refused_iff.
  - split; reflexivity.
Qed.

Lemma C3_header_error_witness :
  let w := sample_world {["in.txt" := TextFile (txt "bad header" ++ [LF])]} in
  files (convert_to_img "in.txt" "out.png" w).2 = files w.
Proof.
  intros w.
  apply (proj1 (proj2 C3_header_error) w "in.txt" "out.png" (txt "bad header" ++ [LF])).
  - reflexivity.
  - right. left. vm_compute. intros H. discriminate H.
Defined.

(** C3, as stated, fails: a header with a negative integer is not
    rejected.  With a negative channel count the whole conversion goes
    through and the image is stored. *)
Lemma C3_counterexample :
  let content := txt "2 2 -1" ++ LF :: txt "1 2 3 4" ++ [LF] in
  let w := sample_world {["in.txt" := TextFile content]} in
  let w' := (convert_to_img "in.txt" "out.png" w).2 in
  read_header (readline (universal_newlines content)).1 = Header_ok 2 2 (-1)
  ∧ load_segmented_image_header (readline (universal_newlines content)).1 = inr (2, 2, -1)
  ∧ stdout w' = [Msg_converting_to_img "in.txt" "out.png"; Msg_done]
  ∧ files w' !! "out.png" = Some (ImageFile (Image 2 2 [1; 2; 3; 4])).
Proof. cbn zeta. split_and!; reflexivity. Qed.

(** ** The command line *)

(** C9: with fewer than three arguments after the script name the usage
    text is printed and the exit status is 1.  With an unrecognised mode
    the script prints its "Unknown mode" line and then ends normally,
    with exit status 0, where the claim asks for a non-zero status. *)
Theorem C9_exit_status :
  (∀ (argv : list string) (w : world),
     (length argv < 4)%nat →
     main argv w = (inr 1, World (files w) (stdout w ++ [Msg_usage]) (rand w)))
  ∧ (∀ (argv : list string) (mode : string) (w : world),
       (4 <= length argv)%nat →
       argv !! 1%nat = Some mode →
       mode ≠ "to_txt"%string → mode ≠ "to_img"%string →
       main argv w = (inr 0, World (files w) (stdout w ++ [Msg_unknown_mode]) (rand w)))
  ∧ main ["convert_image.py"; "bogus"; "in.png"; "out.txt"]%string (sample_world ∅)
    = (inr 0, World ∅ [Msg_unknown_mode] (rand (sample_world ∅))).
Proof.
  split_and!.
  - intros argv w Hlen. unfold main.
    rewrite bool_decide_eq_true_2 by done. reflexivity.
  - intros argv mode w Hlen Hmode Htxt Himg. unfold main.
    rewrite bool_decide_eq_false_2 by lia. rewrite Hmode.
    change (default EmptyString (Some mode)) with mode.
    destruct (String.eqb_spec mode "to_txt"); [done|].
    destruct (String.eqb_spec mode "to_img"); [done|].
    reflexivity.
  - reflexivity.
Qed.

Lemma C9_exit_status_witness :
  main ["convert_image.py"; "bogus"; "in.png"; "out.txt"]%string (sample_world ∅)
  = (inr 0, World (files (sample_world ∅))
              (stdout (sample_world ∅) ++ [Msg_unknown_mode]) (rand (sample_world ∅))).
Proof.
  apply (proj1 (proj2 C9_exit_status)
           ["convert_image.py"; "bogus"; "in.png"; "out.txt"]%string "bogus"%string).
  - cbn. lia.
  - reflexivity.
  - intros H. discriminate H.
  - intros H. discriminate H.
Defined.

(** ** Arrays *)

Lemma full_ok {A} height width (v : A) :
  0 <= height → 0 <= width →
  np.full height width v
  = inr (NdArray (height, width)
           (replicate (Z.to_nat height) (replicate (Z.to_nat width) v))).
Proof.
  intros Hh Hw. unfold np.full.
  destruct ((height <? 0) || (width <? 0)) eqn:E; [|done].
  apply orb_true_iff in E. destruct E as [E|E]; apply Z.ltb_lt in E; lia.
Qed.

Lemma full_inv {A} height width (v : A) img :
  np.full height width v = inr img →
  0 <= height ∧ 0 <= width
  ∧ img = NdArray (height, width)
            (replicate (Z.to_nat height) (replicate (Z.to_nat width) v)).
Proof.
  unfold np.full. destruct ((height <? 0) || (width <? 0)) eqn:E; [done|].
  apply orb_false_iff in E. destruct E as [E1 E2].
  apply Z.ltb_ge in E1, E2. intros [= <-]. done.
Qed.

Lemma pixel_replicate {A} height width (v : A) y x :
  0 <= y < height → 0 <= x < width →
  pixel (NdArray (height, width)
           (replicate (Z.to_nat height) (replicate (Z.to_nat width) v))) y x
  = Some v.
Proof.
  intros Hy Hx. unfold pixel. cbn [nd_rows].
  destruct (0 <=? y) eqn:E1; [|apply Z.leb_gt in E1; lia].
  destruct (0 <=? x) eqn:E2; [|apply Z.leb_gt in E2; lia].
  cbn. rewrite lookup_replicate_2 by lia. cbn.
  apply lookup_replicate_2. lia.
Qed.

Lemma pixel_assign {A} (a : ndarray A) rows cols v y x :
  pixel (np.assign a rows cols v) y x
  = (λ old, if rows y && cols x then v y x else old) <$> pixel a y x.
Proof.
  unfold pixel, np.assign. cbn [nd_rows].
  destruct (0 <=? y) eqn:E1; [|done].
  destruct (0 <=? x) eqn:E2; [|done].
  apply Z.leb_le in E1, E2. cbn.
  rewrite list_lookup_imap.
  destruct (nd_rows a !! Z.to_nat y) as [row|]; [|done]. cbn.
  rewrite list_lookup_imap, !Z2Nat.id by done. done.
Qed.

Lemma well_shaped_assign {A} (a : ndarray A) rows cols v :
  well_shaped a → well_shaped (np.assign a rows cols v).
Proof.
  unfold well_shaped, np.assign. cbn [nd_shape nd_rows].
  intros (Hh & Hw & Hlen & Hrows). split_and!; try done.
  - by rewrite length_imap.
  - rewrite Forall_lookup in Hrows. apply Forall_lookup. intros i row Hi.
    rewrite list_lookup_imap in Hi.
    destruct (nd_rows a !! i) as [row0|] eqn:E; [|done].
    cbn in Hi. injection Hi as <-. rewrite length_imap. by eapply Hrows.
Qed.

Lemma shape_assign {A} (a : ndarray A) rows cols v :
  nd_shape (np.assign a rows cols v) = nd_shape a.
Proof. done. Qed.

Lemma bytes_assign (a : ndarray Z) rows cols v :
  (∀ y x, byte (v y x)) →
  Forall (Forall byte) (nd_rows a) →
  Forall (Forall byte) (nd_rows (np.assign a rows cols v)).
Proof.
  intros Hv Ha. unfold np.assign. cbn [nd_rows].
  rewrite Forall_lookup in Ha. apply Forall_lookup. intros i row Hi.
  rewrite list_lookup_imap in Hi.
  destruct (nd_rows a !! i) as [row0|] eqn:E; [|done].
  cbn in Hi. injection Hi as <-.
  specialize (Ha _ _ E). rewrite Forall_lookup in Ha.
  apply Forall_lookup. intros j u Hj. rewrite list_lookup_imap in Hj.
  destruct (row0 !! j) as [old|] eqn:E'; [|done].
  cbn in Hj. injection Hj as <-.
  destruct (_ && _); [apply Hv | by eapply Ha].
Qed.

Lemma uint8_byte v : byte (np.uint8 v).
Proof. unfold byte, np.uint8. pose proof (Z.mod_pos_bound v 256). lia. Qed.

Lemma uint8_id v : byte v → np.uint8 v = v.
Proof. unfold byte, np.uint8. intros Hv. apply Z.mod_small. lia. Qed.

(** *** Scanning loops *)

Lemma pixel_scan_cols p c y xs img y' x' :
  pixel (foldl (scan_step p c y) img xs) y' x'
  = (λ old, if bool_decide (y' = y ∧ x' ∈ xs) && p y' x' then c y' x' else old)
      <$> pixel img y' x'.
Proof.
  revert img. induction xs as [|x0 xs IH]; intros img.
  - cbn [foldl]. destruct (pixel img y' x') as [old|]; [|done]. cbn.
    rewrite bool_decide_eq_false_2; [done|]. intros [_ H]. by apply elem_of_nil in H.
  - cbn [foldl]. rewrite IH. unfold scan_step.
    destruct (p y x0) eqn:Ep; [rewrite pixel_assign|];
      (destruct (pixel img y' x') as [old|]; [|done]); cbn; f_equal; unfold np.at_.
    + repeat case_bool_decide; destruct (Z.eqb_spec y' y), (Z.eqb_spec x' x0); subst; cbn;
        rewrite ?Ep; try done.
      all: exfalso; rewrite elem_of_cons in *; tauto.
    + repeat case_bool_decide; try done.
      * exfalso; rewrite elem_of_cons in *; tauto.
      * destruct (decide (x' = x0)) as [->|Hne].
        -- destruct H0 as [-> _]. by rewrite Ep.
        -- exfalso; rewrite elem_of_cons in *; tauto.
Qed.

Lemma pixel_scan p c ys xs img y' x' :
  pixel (foldl (λ img y, foldl (scan_step p c y) img xs) img ys) y' x'
  = (λ old, if bool_decide (y' ∈ ys ∧ x' ∈ xs) && p y' x' then c y' x' else old)
      <$> pixel img y' x'.
Proof.
  revert img. induction ys as [|y0 ys IH]; intros img.
  - cbn [foldl]. destruct (pixel img y' x') as [old|]; [|done]. cbn.
    rewrite bool_decide_eq_false_2; [done|]. intros [H _]. by apply elem_of_nil in H.
  - cbn [foldl]. rewrite IH, pixel_scan_cols.
    destruct (pixel img y' x') as [old|]; [|done]. cbn. f_equal.
    repeat case_bool_decide; cbn; try done;
      destruct (p y' x'); cbn; try done;
      exfalso; rewrite elem_of_cons in *; tauto.
Qed.

Lemma scan_shape p c ys xs img :
  nd_shape (foldl (λ img y, foldl (scan_step p c y) img xs) img ys) = nd_shape img
  ∧ (well_shaped img →
     well_shaped (foldl (λ img y, foldl (scan_step p c y) img xs) img ys))
  ∧ ((∀ y x, byte (c y x)) → Forall (Forall byte) (nd_rows img) →
     Forall (Forall byte)
       (nd_rows (foldl (λ img y, foldl (scan_step p c y) img xs) img ys))).
Proof.
  assert (Hcols : ∀ y img,
    nd_shape (foldl (scan_step p c y) img xs) = nd_shape img
    ∧ (well_shaped img → well_shaped (foldl (scan_step p c y) img xs))
    ∧ ((∀ y x, byte (c y x)) → Forall (Forall byte) (nd_rows img) →
       Forall (Forall byte) (nd_rows (foldl (scan_step p c y) img xs)))).
  { intros y. induction xs as [|x xs IH]; intros img0; [done|].
    cbn [foldl]. destruct (IH (scan_step p c y img0 x)) as (H1 & H2 & H3).
    unfold scan_step in *. destruct (p y x); [|done].
    split_and!.
    - by rewrite H1.
    - intros Hws. by apply H2, well_shaped_assign.
    - intros Hc Hb. apply H3; [done|]. by apply bytes_assign. }
  revert img. induction ys as [|y ys IH]; intros img; [done|].
  cbn [foldl]. destruct (IH (foldl (scan_step p c y) img xs)) as (H1 & H2 & H3).
  destruct (Hcols y img) as (G1 & G2 & G3). split_and!.
  - by rewrite H1.
  - intros Hws. by apply H2, G2.
  - intros Hc Hb. apply H3; [done|]. by apply G3.
Qed.

Lemma fold_result_pure {A S} (body : S → A → result S) (g : S → A → S) l s :
  (∀ s x, x ∈ l → body s x = inr (g s x)) →
  fold_result body s l = inr (foldl g s l).
Proof.
  revert s. induction l as [|x l IH]; intros s Hb; [done|].
  cbn [fold_result foldl]. rewrite Hb by left.
  apply IH. intros s' x' Hx'. apply Hb. by right.
Qed.

Lemma elem_of_range n x : x ∈ range n ↔ 0 <= x < n.
Proof. unfold range. rewrite elem_of_seqZ. lia. Qed.

(** ** The checkerboards *)

Lemma generate_checkerboard_scan width height block_size dark bright :
  block_size ≠ 0 → 0 <= height → 0 <= width →
  Seg.generate_checkerboard_image width height block_size dark bright
  = inr (foldl (λ img y,
           foldl (scan_step (λ _ _, true)
                    (λ y x, np.uint8 (checker block_size dark bright y x)) y)
             img (range width))
         (NdArray (height, width)
            (replicate (Z.to_nat height) (replicate (Z.to_nat width) 0)))
         (range height)).
Proof.
  intros Hb Hh Hw. unfold Seg.generate_checkerboard_image.
  rewrite full_ok by done. unfold mbind, result_bind.
  apply fold_result_pure. intros img y _.
  apply fold_result_pure. intros img' x _.
  destruct (Z.eqb_spec block_size 0); [done|].
  unfold scan_step, checker. by destruct (_ =? 0).
Qed.

(** ** Computations that only draw random numbers *)

Lemma sure_quiet {A} (m : M A) P : sure m P → quiet m P.
Proof.
  intros Hs w. destruct (Hs w) as (a & w' & -> & Hf & Ho & HP).
  exists (inr a), w'. split_and!; try done. by intros ? [= <-].
Qed.

Lemma quiet_ret {A} (a : A) (P : A → Prop) : P a → quiet (mret a) P.
Proof. intros HP w. exists (inr a), w. split_and!; try done. by intros ? [= <-]. Qed.

Lemma sure_ret {A} (a : A) (P : A → Prop) : P a → sure (mret a) P.
Proof. intros HP w. by exists a, w. Qed.

Lemma quiet_lift {A} (r : result A) (P : A → Prop) :
  (∀ a, r = inr a → P a) → quiet (lift r) P.
Proof. intros HP w. by exists r, w. Qed.

Lemma sure_lift {A} (r : result A) (P : A → Prop) a :
  r = inr a → P a → sure (lift r) P.
Proof. intros -> HP w. by exists a, w. Qed.

Lemma quiet_bind {A B} (m : M A) (k : A → M B) P Q :
  quiet m P → (∀ a, P a → quiet (k a) Q) → quiet (m ≫= k) Q.
Proof.
  intros Hm Hk w. destruct (Hm w) as (r & w1 & Hr & Hf & Ho & HP).
  unfold mbind, M_bind. rewrite Hr. destruct r as [e|a].
  - exists (inl e), w1. by split_and!.
  - destruct (Hk a (HP a eq_refl) w1) as (r2 & w2 & Hr2 & Hf2 & Ho2 & HQ).
    exists r2, w2. split_and!; try done; congruence.
Qed.

Lemma sure_bind {A B} (m : M A) (k : A → M B) P Q :
  sure m P → (∀ a, P a → sure (k a) Q) → sure (m ≫= k) Q.
Proof.
  intros Hm Hk w. destruct (Hm w) as (a & w1 & Hr & Hf & Ho & HP).
  unfold mbind, M_bind. rewrite Hr.
  destruct (Hk a HP w1) as (b & w2 & Hr2 & Hf2 & Ho2 & HQ).
  exists b, w2. split_and!; try done; congruence.
Qed.

Lemma quiet_randint a b : quiet (randint a b) (λ v, a <= v <= b).
Proof.
  intros w. unfold randint. destruct (b <? a) eqn:E.
  - exists (inl ValueError_randrange), w. by split_and!.
  - apply Z.ltb_ge in E. eexists _, _. split_and!; try done.
    intros v [= <-].
    pose proof (Z.mod_pos_bound (raw (rand w) (cursor (rand w))) (b - a + 1)). lia.
Qed.

Lemma sure_randint a b : a <= b → sure (randint a b) (λ v, a <= v <= b).
Proof.
  intros Hab w. unfold randint. destruct (b <? a) eqn:E.
  - apply Z.ltb_lt in E. lia.
  - eexists _, _. split; [done|]. split; [done|]. split; [done|].
    pose proof (Z.mod_pos_bound (raw (rand w) (cursor (rand w))) (b - a + 1)). lia.
Qed.

(** An empty interval: the draw raises and nothing has changed. *)
Lemma randint_empty a b w : b < a → randint a b w = (inl ValueError_randrange, w).
Proof. intros Hab. unfold randint. by rewrite (proj2 (Z.ltb_lt b a) Hab). Qed.

Lemma quiet_random_random : quiet random_random (λ _, True).
Proof. intros w. unfold random_random. by eexists _, _. Qed.

Lemma sure_random_random : sure random_random (λ _, True).
Proof. intros w. unfold random_random. by eexists _, _. Qed.

Lemma quiet_for_collect {A B} (l : list A) (body : A → M B) (P : B → Prop) :
  (∀ x, x ∈ l → quiet (body x) P) →
  quiet (for_collect l body) (λ ys, length ys = length l ∧ Forall P ys).
Proof.
  induction l as [|x l IH]; intros Hb.
  - cbn [for_collect]. by apply quiet_ret.
  - cbn [for_collect]. eapply quiet_bind; [apply Hb; left|].
    intros y Hy. eapply quiet_bind.
    + apply IH. intros x' Hx'. apply Hb. by right.
    + intros ys [Hlen Hys]. apply quiet_ret. split; [cbn; lia | by constructor].
Qed.

Lemma sure_for_collect {A B} (l : list A) (body : A → M B) (P : B → Prop) :
  (∀ x, x ∈ l → sure (body x) P) →
  sure (for_collect l body) (λ ys, length ys = length l ∧ Forall P ys).
Proof.
  induction l as [|x l IH]; intros Hb.
  - cbn [for_collect]. by apply sure_ret.
  - cbn [for_collect]. eapply sure_bind; [apply Hb; left|].
    intros y Hy. eapply sure_bind.
    + apply IH. intros x' Hx'. apply Hb. by right.
    + intros ys [Hlen Hys]. apply sure_ret. split; [cbn; lia | by constructor].
Qed.

Lemma quiet_for_fold {A S} (l : list A) (body : S → A → M S) (I : S → Prop) s :
  (∀ s x, I s → quiet (body s x) I) → I s → quiet (for_fold l body s) I.
Proof.
  intros Hb. revert s. induction l as [|x l IH]; intros s Hs.
  - by apply quiet_ret.
  - cbn [for_fold]. eapply quiet_bind; [by apply Hb|]. intros s' Hs'. by apply IH.
Qed.

Lemma sure_for_fold {A S} (l : list A) (body : S → A → M S) (I : S → Prop) s :
  (∀ s x, I s → sure (body s x) I) → I s → sure (for_fold l body s) I.
Proof.
  intros Hb. revert s. induction l as [|x l IH]; intros s Hs.
  - by apply sure_ret.
  - cbn [for_fold]. eapply sure_bind; [by apply Hb|]. intros s' Hs'. by apply IH.
Qed.

(** *** Loops that write one line per step *)

(** Whatever happens, the file holds the old text followed by the lines
    of the rows computed so far; if the loop ends normally there is one
    row per step. *)
Lemma write_rows_quiet {A} fn (row_of : A → M (list Z)) (P : list Z → Prop) ys w old :
  (∀ y, y ∈ ys → quiet (row_of y) P) →
  files w !! fn = Some (TextFile old) →
  ∃ r rows w',
    for_each ys (λ y, row ← row_of y; f_write fn (row_line row)) w = (r, w')
    ∧ files w' = <[fn := TextFile (old ++ concat (row_line <$> rows))]> (files w)
    ∧ stdout w' = stdout w
    ∧ Forall P rows
    ∧ (r = inr tt → length rows = length ys).
Proof.
  revert w old. induction ys as [|y ys IH]; intros w old Hq Hf.
  - exists (inr tt), [], w. cbn. rewrite app_nil_r, insert_id by done. by split_and!.
  - cbn [for_each]. unfold mbind at 1, M_bind at 1. unfold mbind at 1, M_bind at 1.
    destruct (Hq y ltac:(left) w) as (r1 & w1 & Hr1 & Hf1 & Ho1 & HP1).
    rewrite Hr1. destruct r1 as [e|row].
    + exists (inl e), [], w1. cbn. rewrite app_nil_r, Hf1, insert_id by done.
      by split_and!.
    + rewrite (f_write_open _ _ _ old) by (by rewrite Hf1).
      destruct (IH (World (<[fn:=TextFile (old ++ row_line row)]> (files w1))
                      (stdout w1) (rand w1)) (old ++ row_line row))
        as (r & rows & w' & Hr & Hf' & Ho' & HP & Hlen).
      { intros y' Hy'. apply Hq. by right. }
      { cbn. apply lookup_insert_eq. }
      rewrite Hr. exists r, (row :: rows), w'. split_and!.
      * by destruct r as [e|[]].
      * rewrite Hf'. cbn [files]. rewrite insert_insert_eq, Hf1, fmap_cons, concat_cons.
        by rewrite app_assoc.
      * rewrite Ho'. cbn. done.
      * constructor; [by apply HP1 | done].
      * intros ->. cbn. f_equal. by apply Hlen.
Qed.

Lemma write_rows_sure {A} fn (row_of : A → M (list Z)) (P : list Z → Prop) ys w old :
  (∀ y, y ∈ ys → sure (row_of y) P) →
  files w !! fn = Some (TextFile old) →
  ∃ rows w',
    for_each ys (λ y, row ← row_of y; f_write fn (row_line row)) w = (inr tt, w')
    ∧ files w' = <[fn := TextFile (old ++ concat (row_line <$> rows))]> (files w)
    ∧ stdout w' = stdout w
    ∧ Forall P rows
    ∧ length rows = length ys.
Proof.
  revert w old. induction ys as [|y ys IH]; intros w old Hq Hf.
  - exists [], w. cbn. rewrite app_nil_r, insert_id by done. by split_and!.
  - cbn [for_each]. unfold mbind at 1, M_bind at 1. unfold mbind at 1, M_bind at 1.
    destruct (Hq y ltac:(left) w) as (row & w1 & Hr1 & Hf1 & Ho1 & HP1).
    rewrite Hr1.
    rewrite (f_write_open _ _ _ old) by (by rewrite Hf1).
    destruct (IH (World (<[fn:=TextFile (old ++ row_line row)]> (files w1))
                    (stdout w1) (rand w1)) (old ++ row_line row))
      as (rows & w' & Hr & Hf' & Ho' & HP & Hlen).
    { intros y' Hy'. apply Hq. by right. }
    { cbn. apply lookup_insert_eq. }
    rewrite Hr. exists (row :: rows), w'. split_and!.
    * done.
    * rewrite Hf'. cbn [files]. rewrite insert_insert_eq, Hf1, fmap_cons, concat_cons.
      by rewrite app_assoc.
    * rewrite Ho'. cbn. done.
    * by constructor.
    * cbn. by f_equal.
Qed.

(** The rows of a loop without side effects are known exactly. *)
Lemma write_rows_pure {A} fn (row_of : A → result (list Z)) ys rows w old :
  collect row_of ys = inr rows →
  files w !! fn = Some (TextFile old) →
  for_each ys (λ y, row ← lift (row_of y); f_write fn (row_line row)) w
  = (inr tt, World (<[fn := TextFile (old ++ concat (row_line <$> rows))]> (files w))
               (stdout w) (rand w)).
Proof.
  revert rows w old. induction ys as [|y ys IH]; intros rows w old Hc Hf.
  - injection Hc as <-. cbn. run. rewrite app_nil_r, insert_id by done. by destruct w.
  - cbn [collect] in Hc. destruct (row_of y) as [e|row] eqn:Ey; [done|].
    destruct (collect row_of ys) as [e|rows'] eqn:Ec; [done|].
    injection Hc as <-. cbn [for_each]. run. rewrite Ey.
    rewrite (f_write_open _ _ _ old) by done.
    rewrite (IH rows' _ (old ++ row_line row)) by (done || (cbn; apply lookup_insert_eq)).
    cbn [files stdout rand].
    rewrite insert_insert_eq, fmap_cons, concat_cons, app_assoc. done.
Qed.

(** ** Generators that write their file line by line *)

Lemma makedirs_dirname_or_dot fn w :
  makedirs (dirname_or_dot fn) w = (inr tt, w).
Proof.
  unfold dirname_or_dot. destruct (dirname fn); reflexivity.
Qed.

Lemma open_header fn h wd c w :
  (open_w fn ;; f_write fn (header_line h wd c)) w
  = (inr tt, World (<[fn := TextFile (header_line h wd c)]> (files w)) (stdout w) (rand w)).
Proof.
  run. rewrite (f_write_open _ _ _ []) by (cbn; apply lookup_insert_eq).
  cbn [files stdout rand]. by rewrite insert_insert_eq.
Qed.

Lemma line_writer_quiet fn h wd row_of (P : list Z → Prop) w :
  (∀ y, quiet (row_of y) P) →
  ∃ r rows w',
    line_writer fn h wd row_of w = (r, w')
    ∧ files w' = <[fn := TextFile (plaintext h wd 1 rows)]> (files w)
    ∧ Forall P rows
    ∧ (r = inr tt → length rows = Z.to_nat h ∧ stdout w' = stdout w ++ [Msg_created fn wd h]).
Proof.
  intros Hq. unfold line_writer.
  unfold mbind at 1, M_bind at 1. rewrite makedirs_dirname_or_dot.
  unfold mbind at 1, M_bind at 1. unfold mbind at 1, M_bind at 1.
  pose proof (open_header fn h wd 1 w) as Hoh.
  unfold mbind at 1, M_bind at 1 in Hoh.
  destruct (open_w fn w) as [[e|[]] w0] eqn:Eo; [done|].
  rewrite Hoh. unfold mbind, M_bind.
  destruct (write_rows_quiet fn row_of P (range h)
              (World (<[fn:=TextFile (header_line h wd 1)]> (files w)) (stdout w) (rand w))
              (header_line h wd 1))
    as (r & rows & w' & Hr & Hf & Ho & HP & Hlen).
  { intros y _. apply Hq. }
  { cbn. apply lookup_insert_eq. }
  unfold mbind, M_bind in Hr. rewrite Hr.
  cbn [files stdout] in Hf, Ho. rewrite insert_insert_eq in Hf.
  destruct r as [e|[]].
  - exists (inl e), rows, w'. by split_and!.
  - eexists (inr tt), rows, _. split_and!; try done.
    intros _. split.
    + rewrite Hlen by done. unfold range. by rewrite length_seqZ.
    + unfold print. cbn. by rewrite Ho.
Qed.

Lemma line_writer_sure fn h wd row_of (P : list Z → Prop) w :
  (∀ y, 0 <= y < h → sure (row_of y) P) →
  ∃ rows w',
    line_writer fn h wd row_of w = (inr tt, w')
    ∧ files w' = <[fn := TextFile (plaintext h wd 1 rows)]> (files w)
    ∧ stdout w' = stdout w ++ [Msg_created fn wd h]
    ∧ Forall P rows
    ∧ length rows = Z.to_nat h.
Proof.
  intros Hq. unfold line_writer.
  unfold mbind at 1, M_bind at 1. rewrite makedirs_dirname_or_dot.
  unfold mbind at 1, M_bind at 1. unfold mbind at 1, M_bind at 1.
  pose proof (open_header fn h wd 1 w) as Hoh.
  unfold mbind at 1, M_bind at 1 in Hoh.
  destruct (open_w fn w) as [[e|[]] w0] eqn:Eo; [done|].
  rewrite Hoh. unfold mbind, M_bind.
  destruct (write_rows_sure fn row_of P (range h)
              (World (<[fn:=TextFile (header_line h wd 1)]> (files w)) (stdout w) (rand w))
              (header_line h wd 1))
    as (rows & w' & Hr & Hf & Ho & HP & Hlen).
  { intros y Hy. apply Hq. by apply elem_of_range. }
  { cbn. apply lookup_insert_eq. }
  unfold mbind, M_bind in Hr. rewrite Hr.
  cbn [files stdout] in Hf, Ho. rewrite insert_insert_eq in Hf.
  eexists rows, _. split_and!; try done.
  - unfold print. cbn. by rewrite Ho.
  - rewrite Hlen. unfold range. by rewrite length_seqZ.
Qed.

Lemma line_writer_pure fn h wd (row_of : Z → result (list Z)) rows w :
  collect row_of (range h) = inr rows →
  line_writer fn h wd (λ y, lift (row_of y)) w
  = (inr tt, World (<[fn := TextFile (plaintext h wd 1 rows)]> (files w))
               (stdout w ++ [Msg_created fn wd h]) (rand w)).
Proof.
  intros Hc. unfold line_writer.
  unfold mbind at 1, M_bind at 1. rewrite makedirs_dirname_or_dot.
  unfold mbind at 1, M_bind at 1. unfold mbind at 1, M_bind at 1.
  pose proof (open_header fn h wd 1 w) as Hoh.
  unfold mbind at 1, M_bind at 1 in Hoh.
  destruct (open_w fn w) as [[e|[]] w0] eqn:Eo; [done|].
  rewrite Hoh. unfold mbind at 1, M_bind at 1.
  rewrite (write_rows_pure fn row_of (range h) rows _ (header_line h wd 1))
    by (done || (cbn; apply lookup_insert_eq)).
  unfold print. cbn [files stdout rand]. by rewrite insert_insert_eq.
Qed.

Lemma collect_pure {A B} (f : A → result B) (g : A → B) l :
  (∀ x, x ∈ l → f x = inr (g x)) → collect f l = inr (g <$> l).
Proof.
  induction l as [|x l IH]; intros Hf; [done|].
  cbn [collect]. rewrite Hf by left. rewrite IH; [done|].
  intros x' Hx'. apply Hf. by right.
Qed.

Lemma collect_Forall {A B} (f : A → result B) (P : B → Prop) l ys :
  (∀ x y, x ∈ l → f x = inr y → P y) →
  collect f l = inr ys → length ys = length l ∧ Forall P ys.
Proof.
  revert ys. induction l as [|x l IH]; intros ys Hf Hc.
  - by injection Hc as <-.
  - cbn [collect] in Hc. destruct (f x) as [e|y] eqn:Ex; [done|].
    destruct (collect f l) as [e|ys'] eqn:Ec; [done|].
    injection Hc as <-.
    destruct (IH ys') as [Hlen HP]; [|done|].
    { intros x' y' Hx'. apply Hf. by right. }
    split; [cbn; lia|]. constructor; [|done]. eapply Hf; [left | done].
Qed.

Lemma even_mod2 n : (n mod 2 =? 0) = Z.even n.
Proof. rewrite Zmod_even. by destruct (Z.even n). Qed.

Lemma edge_checkerboard_val x y b :
  b ≠ 0 →
  Edge.checkerboard_val x y b = inr (if Z.even (x / b + y / b) then 200 else 50).
Proof.
  intros Hb. unfold Edge.checkerboard_val.
  destruct (Z.eqb_spec b 0); [done|]. by rewrite even_mod2.
Qed.

Lemma edge_checkerboard_file h wd fn b w :
  b ≠ 0 →
  Edge.create_checkerboard_image h wd fn b w
  = (inr tt,
     World (<[fn := TextFile (plaintext h wd 1
               ((λ y, (λ x, if Z.even (x / b + y / b) then 200 else 50) <$> range wd)
                  <$> range h))]> (files w))
       (stdout w ++ [Msg_created fn wd h]) (rand w)).
Proof.
  intros Hb.
  apply (line_writer_pure fn h wd
           (λ y, collect (λ x, Edge.checkerboard_val x y b) (range wd))).
  apply collect_pure. intros y _.
  apply collect_pure. intros x _. by apply edge_checkerboard_val.
Qed.

Lemma seg_checkerboard_pixel width height block_size dark bright y x :
  block_size ≠ 0 → byte dark → byte bright →
  0 <= y < height → 0 <= x < width →
  ∃ img,
    Seg.generate_checkerboard_image width height block_size dark bright = inr img
    ∧ nd_shape img = (height, width)
    ∧ well_shaped img
    ∧ pixel img y x
      = Some (if Z.even (x / block_size + y / block_size) then dark else bright).
Proof.
  intros Hb Hd Hbr Hy Hx.
  rewrite generate_checkerboard_scan by lia.
  eexists. split; [reflexivity|].
  destruct (scan_shape (λ _ _, true)
              (λ y x, np.uint8 (checker block_size dark bright y x))
              (range height) (range width)
              (NdArray (height, width)
                 (replicate (Z.to_nat height) (replicate (Z.to_nat width) 0))))
    as (Hs & Hws & _).
  split_and!.
  - by rewrite Hs.
  - apply Hws. unfold well_shaped. cbn. split_and!; try lia.
    + by rewrite length_replicate.
    + apply Forall_replicate. by rewrite length_replicate.
  - rewrite pixel_scan, pixel_replicate by done. cbn. f_equal.
    rewrite bool_decide_eq_true_2 by (by rewrite !elem_of_range).
    cbn. unfold checker. rewrite even_mod2.
    destruct (Z.even _); by apply uint8_id.
Qed.

(** C4, as amended: in the checkerboard of the segmentation tests, which
    takes the block size [b] and the dark and bright values (bytes), the
    pixel [(y, x)] is dark when floor(x/b) + floor(y/b) is even and bright
    when it is odd; in the checkerboard of the edge-detection tests,
    whose two values are fixed, the pixel is 200 when the sum is even and
    50 when it is odd. *)
Theorem C4_checkerboard_rule :
  (∀ width height block_size dark bright y x,
     block_size ≠ 0 → byte dark → byte bright →
     0 <= y < height → 0 <= x < width →
     ∃ img,
       Seg.generate_checkerboard_image width height block_size dark bright = inr img
       ∧ nd_shape img = (height, width)
       ∧ pixel img y x
         = Some (if Z.even (x / block_size + y / block_size) then dark else bright))
  ∧ (∀ h wd fn block_size w,
       block_size ≠ 0 →
       Edge.create_checkerboard_image h wd fn block_size w
       = (inr tt,
          World (<[fn := TextFile (plaintext h wd 1
                    ((λ y, (λ x, if Z.even (x / block_size + y / block_size)
                                 then 200 else 50) <$> range wd) <$> range h))]>
                   (files w))
            (stdout w ++ [Msg_created fn wd h]) (rand w))).
Proof.
  split.
  - intros width height block_size dark bright y x Hb Hd Hbr Hy Hx.
    destruct (seg_checkerboard_pixel width height block_size dark bright y x)
      as (img & H1 & H2 & _ & H3); try done.
    by exists img.
  - intros. by apply edge_checkerboard_file.
Qed.

Lemma C4_checkerboard_rule_witness :
  ∃ img,
    Seg.generate_checkerboard_image 4 4 2 0 255 = inr img
    ∧ nd_shape img = (4, 4)
    ∧ pixel img 1 2 = Some (if Z.even (2 / 2 + 1 / 2) then 0 else 255).
Proof.
  apply (proj1 C4_checkerboard_rule 4 4 2 0 255 1 2); unfold byte; lia.
Defined.

(** C4, as stated, fails: with block size 2, dark 0 and bright 255 the
    pixel (0, 0), whose block sum is even, holds the dark value. *)
Lemma C4_counterexample :
  Z.even (0 / 2 + 0 / 2) = true
  ∧ (img ← Seg.generate_checkerboard_image 4 4 2 0 255; mret (pixel img 0 0))
    = inr (Some 0)
  ∧ 0 ≠ 255.
Proof. split_and!; [reflexivity | reflexivity | lia]. Qed.

(** C5: the checkerboard generator called with block size 2, dark 0 and
    bright 255 on a 4 x 4 grid produces the rows [0 0 255 255],
    [0 0 255 255], [255 255 0 0], [255 255 0 0], from top to bottom, and
    [save_image_txt] writes them in that order. *)
Theorem C5_checkerboard_4x4 :
  Seg.generate_checkerboard_image 4 4 2 0 255
  = inr (NdArray (4, 4)
           [[0; 0; 255; 255]; [0; 0; 255; 255]; [255; 255; 0; 0]; [255; 255; 0; 0]])
  ∧ files ((img ← lift (Seg.generate_checkerboard_image 4 4 2 0 255);
            Seg.save_image_txt img "test_checkerboard.txt") (sample_world ∅)).2
      !! "test_checkerboard.txt"
    = Some (TextFile (plaintext 4 4 1
              [[0; 0; 255; 255]; [0; 0; 255; 255]; [255; 255; 0; 0]; [255; 255; 0; 0]])).
Proof. split; reflexivity. Qed.

(** ** The shapes image *)

Lemma fold_result_sure {A S} (body : S → A → result S) (I : S → Prop) l s :
  (∀ s x, x ∈ l → I s → ∃ s', body s x = inr s' ∧ I s') →
  I s → ∃ s', fold_result body s l = inr s' ∧ I s'.
Proof.
  revert s. induction l as [|x l IH]; intros s Hb Hs.
  - by exists s.
  - cbn [fold_result]. destruct (Hb s x ltac:(left) Hs) as (s1 & -> & Hs1).
    apply IH; [|done]. intros s' x' Hx'. apply Hb. by right.
Qed.

Lemma fold_result_inv {A S} (body : S → A → result S) (I : S → Prop) l s s' :
  (∀ s x s', I s → body s x = inr s' → I s') →
  I s → fold_result body s l = inr s' → I s'.
Proof.
  intros Hb. revert s. induction l as [|x l IH]; intros s Hs Hf.
  - by injection Hf as <-.
  - cbn [fold_result] in Hf. destruct (body s x) as [e|s1] eqn:E; [done|].
    eapply IH; [|exact Hf]. by eapply Hb.
Qed.

Lemma elem_of_range2 a b x : x ∈ range2 a b ↔ a <= x < b.
Proof. unfold range2. rewrite elem_of_seqZ. lia. Qed.

Lemma index_ok {A} (l : list A) i :
  0 <= i < Z.of_nat (length l) → index l i = inr (Z.to_nat i).
Proof.
  intros Hi. unfold index.
  destruct (0 <=? i) eqn:E1; [|apply Z.leb_gt in E1; lia].
  destruct (i <? Z.of_nat (length l)) eqn:E2; [done|apply Z.ltb_ge in E2; lia].
Qed.

Lemma painted_insert h wd (P : Z → Prop) pixels j i row v :
  painted h wd P pixels → pixels !! j = Some row → P v →
  painted h wd P (<[j := <[i := v]> row]> pixels).
Proof.
  intros [Hlen Hrows] Hj Hv. split; [by rewrite length_insert|].
  apply Forall_insert; [done|].
  rewrite Forall_lookup in Hrows. destruct (Hrows _ _ Hj) as [Hl HP].
  split; [by rewrite length_insert|].
  destruct (decide (i < length row)%nat).
  - by apply Forall_insert.
  - by rewrite list_insert_ge by lia.
Qed.

Lemma setitem2_sure h wd (P : Z → Prop) pixels y x v :
  painted h wd P pixels → 0 <= y < h → 0 <= x < wd → P v →
  ∃ pixels', setitem2 pixels y x v = inr pixels' ∧ painted h wd P pixels'.
Proof.
  intros Hp Hy Hx Hv. pose proof Hp as [Hlen Hrows]. unfold setitem2.
  rewrite index_ok by lia. unfold mbind, result_bind.
  destruct (pixels !! Z.to_nat y) as [row|] eqn:Ej.
  - rewrite Forall_lookup in Hrows. destruct (Hrows _ _ Ej) as [Hl _].
    rewrite index_ok by lia. eexists. split; [done|]. by apply painted_insert.
  - apply lookup_ge_None in Ej. lia.
Qed.

Lemma setitem2_values (P : Z → Prop) pixels y x v pixels' :
  Forall (Forall P) pixels → P v →
  setitem2 pixels y x v = inr pixels' → Forall (Forall P) pixels'.
Proof.
  intros Hp Hv. unfold setitem2, mbind, result_bind.
  destruct (index pixels y) as [e|j]; [done|].
  destruct (pixels !! j) as [row|] eqn:Ej; [|done].
  destruct (index row x) as [e|i]; [done|]. intros [= <-].
  apply Forall_insert; [done|].
  rewrite Forall_lookup in Hp. specialize (Hp _ _ Ej).
  destruct (decide (i < length row)%nat).
  - by apply Forall_insert.
  - by rewrite list_insert_ge by lia.
Qed.

Lemma stamp_rect_sure h wd P pixels rx ry rw rh val :
  painted h wd P pixels → 0 <= rx → 0 <= ry → P val →
  ∃ pixels', Edge.stamp_rect pixels h wd rx ry rw rh val = inr pixels'
             ∧ painted h wd P pixels'.
Proof.
  intros Hp Hrx Hry Hv. unfold Edge.stamp_rect.
  apply fold_result_sure; [|done]. intros px y Hy Hpx.
  apply elem_of_range2 in Hy.
  apply fold_result_sure; [|done]. intros px' x Hx Hpx'.
  apply elem_of_range2 in Hx.
  apply (setitem2_sure h wd P); (done || lia).
Qed.

Lemma stamp_circle_sure h wd P pixels cx cy r val :
  painted h wd P pixels → P val →
  ∃ pixels', Edge.stamp_circle pixels h wd cx cy r val = inr pixels'
             ∧ painted h wd P pixels'.
Proof.
  intros Hp Hv. unfold Edge.stamp_circle.
  apply fold_result_sure; [|done]. intros px y Hy Hpx.
  apply elem_of_range2 in Hy.
  apply fold_result_sure; [|done]. intros px' x Hx Hpx'.
  apply elem_of_range2 in Hx.
  destruct (_ <=? _); [|by eexists].
  apply (setitem2_sure h wd P); (done || lia).
Qed.

Lemma stamp_rect_values P pixels h wd rx ry rw rh val pixels' :
  Forall (Forall P) pixels → P val →
  Edge.stamp_rect pixels h wd rx ry rw rh val = inr pixels' →
  Forall (Forall P) pixels'.
Proof.
  intros Hp Hv. unfold Edge.stamp_rect.
  apply fold_result_inv; [|done]. intros px y px1 Hpx.
  apply fold_result_inv; [|done]. intros px2 x px3 Hpx2.
  by apply setitem2_values.
Qed.

Lemma stamp_circle_values P pixels h wd cx cy r val pixels' :
  Forall (Forall P) pixels → P val →
  Edge.stamp_circle pixels h wd cx cy r val = inr pixels' →
  Forall (Forall P) pixels'.
Proof.
  intros Hp Hv. unfold Edge.stamp_circle.
  apply fold_result_inv; [|done]. intros px y px1 Hpx.
  apply fold_result_inv; [|done]. intros px2 x px3 Hpx2.
  destruct (_ <=? _); [by apply setitem2_values | by intros [= <-]].
Qed.

Lemma background_painted h wd :
  painted h wd shape_value (replicate (Z.to_nat h) (replicate (Z.to_nat wd) 50)).
Proof.
  split; [by rewrite length_replicate|].
  apply Forall_replicate. split; [by rewrite length_replicate|].
  apply Forall_replicate. by left.
Qed.

(** With both sides at least 100 every draw has a non-empty interval and
    every stamped pixel lies inside the grid. *)
Lemma shapes_pixels_sure h wd :
  100 <= h → 100 <= wd →
  sure (Edge.shapes_pixels h wd) (painted h wd shape_value).
Proof.
  intros Hh Hw. unfold Edge.shapes_pixels.
  eapply sure_bind.
  - apply (sure_for_fold _ _ (painted h wd shape_value)); [|apply background_painted].
    intros px _ Hpx.
    eapply sure_bind; [apply sure_randint; lia|]. intros rx Hrx.
    eapply sure_bind; [apply sure_randint; lia|]. intros ry Hry.
    eapply sure_bind; [apply sure_randint; lia|]. intros rw Hrw.
    eapply sure_bind; [apply sure_randint; lia|]. intros rh Hrh.
    eapply sure_bind; [apply sure_randint; lia|]. intros val Hval.
    cbv beta in *.
    destruct (stamp_rect_sure h wd shape_value px rx ry rw rh val)
      as (px' & Hs & Hp'); [done | lia | lia | by right |].
    by eapply sure_lift.
  - intros px0 Hpx0.
    apply (sure_for_fold _ _ (painted h wd shape_value)); [|done].
    intros px _ Hpx.
    eapply sure_bind; [apply sure_randint; lia|]. intros cx Hcx.
    eapply sure_bind; [apply sure_randint; lia|]. intros cy Hcy.
    eapply sure_bind; [apply sure_randint; lia|]. intros r Hr.
    eapply sure_bind; [apply sure_randint; lia|]. intros val Hval.
    cbv beta in *.
    destruct (stamp_circle_sure h wd shape_value px cx cy r val)
      as (px' & Hs & Hp'); [done | by right |].
    by eapply sure_lift.
Qed.

(** Whatever the sides, a grid that comes out holds shape values only. *)
Lemma shapes_pixels_quiet h wd :
  quiet (Edge.shapes_pixels h wd) (Forall (Forall shape_value)).
Proof.
  unfold Edge.shapes_pixels.
  eapply quiet_bind.
  - apply (quiet_for_fold _ _ (Forall (Forall shape_value))).
    + intros px _ Hpx.
      eapply quiet_bind; [apply quiet_randint|]. intros rx Hrx.
      eapply quiet_bind; [apply quiet_randint|]. intros ry Hry.
      eapply quiet_bind; [apply quiet_randint|]. intros rw Hrw.
      eapply quiet_bind; [apply quiet_randint|]. intros rh Hrh.
      eapply quiet_bind; [apply quiet_randint|]. intros val Hval.
      cbv beta in *.
      apply quiet_lift. intros px'. apply stamp_rect_values; [done | by right].
    + apply Forall_replicate, Forall_replicate. by left.
  - intros px0 Hpx0.
    apply (quiet_for_fold _ _ (Forall (Forall shape_value))); [|done].
    intros px _ Hpx.
    eapply quiet_bind; [apply quiet_randint|]. intros cx Hcx.
    eapply quiet_bind; [apply quiet_randint|]. intros cy Hcy.
    eapply quiet_bind; [apply quiet_randint|]. intros r Hr.
    eapply quiet_bind; [apply quiet_randint|]. intros val Hval.
    cbv beta in *.
    apply quiet_lift. intros px'. apply stamp_circle_values; [done | by right].
Qed.

Lemma create_shapes_image_sure h wd fn w :
  100 <= h → 100 <= wd →
  ∃ pixels w',
    Edge.create_shapes_image h wd fn w = (inr tt, w')
    ∧ files w' = <[fn := TextFile (plaintext h wd 1 pixels)]> (files w)
    ∧ stdout w' = stdout w ++ [Msg_created fn wd h]
    ∧ painted h wd shape_value pixels.
Proof.
  intros Hh Hw. unfold Edge.create_shapes_image.
  unfold mbind at 1, M_bind at 1. rewrite makedirs_dirname_or_dot.
  destruct (shapes_pixels_sure h wd Hh Hw w) as (px & w1 & Hr & Hf & Ho & Hp).
  unfold mbind at 1, M_bind at 1. rewrite Hr.
  unfold mbind at 1, M_bind at 1. unfold mbind at 1, M_bind at 1.
  pose proof (open_header fn h wd 1 w1) as Hoh.
  unfold mbind at 1, M_bind at 1 in Hoh.
  destruct (open_w fn w1) as [[e|[]] w0] eqn:Eo; [done|].
  rewrite Hoh. unfold mbind at 1, M_bind at 1.
  rewrite (for_each_write fn row_line px _ (header_line h wd 1))
    by (cbn; apply lookup_insert_eq).
  unfold print. cbn [files stdout rand]. rewrite insert_insert_eq, Hf, Ho.
  by exists px; eexists.
Qed.

Lemma create_shapes_image_small h wd fn w :
  h < 100 ∨ wd < 100 →
  ∃ w',
    Edge.create_shapes_image h wd fn w = (inl ValueError_randrange, w')
    ∧ files w' = files w ∧ stdout w' = stdout w.
Proof.
  intros Hsmall. unfold Edge.create_shapes_image, Edge.shapes_pixels.
  unfold mbind at 1, M_bind at 1. rewrite makedirs_dirname_or_dot.
  change (range 5) with [0; 1; 2; 3; 4]. cbn [for_fold].
  unfold mbind, M_bind.
  destruct (decide (wd < 100)) as [Hw|Hw].
  - rewrite randint_empty by lia. by exists w.
  - destruct (sure_randint 0 (wd - 100) ltac:(lia) w) as (rx & w1 & -> & Hf & Ho & _).
    rewrite randint_empty by lia. by exists w1.
Qed.

(** C10: the shapes generator needs both sides to be at least 100.  For
    every height >= 100 and width >= 100 [create_shapes_image] succeeds,
    whatever the random draws, and writes a single-channel grid of
    [height] rows of [width] values, each 50 (background) or in 150..250
    (a shape's fill).  For a height or a width below 100 a position is
    drawn from an empty interval: the call raises before the output file
    is opened and the file store is left as it was. *)
Theorem C10_shapes_minimum_size :
  (∀ h wd fn w,
     100 <= h → 100 <= wd →
     ∃ pixels w',
       Edge.create_shapes_image h wd fn w = (inr tt, w')
       ∧ files w' = <[fn := TextFile (plaintext h wd 1 pixels)]> (files w)
       ∧ painted h wd shape_value pixels)
  ∧ (∀ h wd fn w,
       h < 100 ∨ wd < 100 →
       ∃ w',
         Edge.create_shapes_image h wd fn w = (inl ValueError_randrange, w')
         ∧ files w' = files w).
Proof.
  split.
  - intros h wd fn w Hh Hw.
    destruct (create_shapes_image_sure h wd fn w Hh Hw) as (px & w' & H1 & H2 & _ & H3).
    by exists px, w'.
  - intros h wd fn w Hs.
    destruct (create_shapes_image_small h wd fn w Hs) as (w' & H1 & H2 & _).
    by exists w'.
Qed.

Lemma C10_shapes_minimum_size_witness :
  (∃ pixels w',
     Edge.create_shapes_image 100 100 "shapes.txt" (sample_world ∅) = (inr tt, w')
     ∧ files w' = <[("shapes.txt" : string) := TextFile (plaintext 100 100 1 pixels)]>
                    (files (sample_world ∅))
     ∧ painted 100 100 shape_value pixels)
  ∧ (∃ w',
       Edge.create_shapes_image 99 256 "shapes.txt" (sample_world ∅)
       = (inl ValueError_randrange, w')
       ∧ files w' = files (sample_world ∅)).
Proof.
  split.
  - apply (proj1 C10_shapes_minimum_size 100 100 "shapes.txt" (sample_world ∅)); lia.
  - apply (proj2 C10_shapes_minimum_size 99 256 "shapes.txt" (sample_world ∅)). left. lia.
Defined.

(** ** Floating-point facts *)

Lemma Qtrunc_nonneg (q : Q) : (0 <= q)%Q → Qtrunc q = Qfloor q.
Proof. intros Hq. unfold Qtrunc. by rewrite (proj2 (Qle_bool_iff 0 q) Hq). Qed.

Lemma Qtrunc_range (q : Q) (lo hi : Z) :
  0 <= lo → (inject_Z lo <= q)%Q → (q <= inject_Z hi)%Q → lo <= Qtrunc q <= hi.
Proof.
  intros Hlo H1 H2.
  rewrite Qtrunc_nonneg.
  - split.
    + rewrite <- (Qfloor_Z lo). by apply Qfloor_resp_le.
    + rewrite <- (Qfloor_Z hi). by apply Qfloor_resp_le.
  - eapply Qle_trans; [|exact H1]. change 0%Q with (inject_Z 0).
    rewrite <- Zle_Qle. done.
Qed.

Lemma Qfloor_bounds (v : Q) (k : Z) :
  ((inject_Z k <= v)%Q → k <= Qfloor v)
  ∧ ((v < inject_Z k + 1)%Q → Qfloor v <= k).
Proof.
  split; intros Hv.
  - rewrite <- (Qfloor_Z k). by apply Qfloor_resp_le.
  - pose proof (Qfloor_le v) as Hf.
    assert (Hlt : (inject_Z (Qfloor v) < inject_Z (k + 1))%Q).
    { rewrite inject_Z_plus. eapply Qle_lt_trans; [exact Hf | exact Hv]. }
    rewrite <- Zlt_Qlt in Hlt. lia.
Qed.

(** The integer part of a number close enough to the fraction [n/d]. *)
Lemma floor_of_near (v eps : Q) (n d : Z) :
  0 < d → 0 <= n →
  (Qabs (v - inject_Z n / inject_Z d) <= eps)%Q →
  (eps < 1 / inject_Z d)%Q →
  n / d - 1 <= Qfloor v <= n / d ∧ (n mod d ≠ 0 → Qfloor v = n / d).
Proof.
  intros Hd Hn Hnear Heps.
  pose proof (Z.div_mod n d ltac:(lia)) as Hdm.
  pose proof (Z.mod_pos_bound n d Hd) as Hr.
  set (k := n / d) in *. set (r := n mod d) in *.
  assert (Hdq : (0 < inject_Z d)%Q) by (change 0%Q with (inject_Z 0); by rewrite <- Zlt_Qlt).
  set (u := (1 / inject_Z d)%Q) in *.
  assert (Hu : (0 < u)%Q) by (apply Qlt_shift_div_l; [done | by rewrite Qmult_0_l]).
  assert (Hq : (inject_Z n / inject_Z d == inject_Z k + inject_Z r * u)%Q).
  { rewrite Hdm, inject_Z_plus, inject_Z_mult. unfold u. field.
    intros Hz. rewrite Hz in Hdq. by apply Qlt_irrefl in Hdq. }
  assert (Hdu : (inject_Z d * u == 1)%Q).
  { unfold u. field. intros Hz. rewrite Hz in Hdq. by apply Qlt_irrefl in Hdq. }
  assert (Hru0 : (0 <= inject_Z r * u)%Q).
  { apply Qmult_le_0_compat; [|by apply Qlt_le_weak].
    change 0%Q with (inject_Z 0). rewrite <- Zle_Qle. lia. }
  assert (Hru1 : (inject_Z r * u <= 1 - u)%Q).
  { assert (Hle : (inject_Z r <= inject_Z d - 1)%Q).
    { assert (Hle' : (inject_Z r + 1 <= inject_Z d)%Q).
      { change 1%Q with (inject_Z 1). rewrite <- inject_Z_plus, <- Zle_Qle. lia. }
      lra. }
    apply (Qmult_le_compat_r _ _ u) in Hle; [|by apply Qlt_le_weak].
    eapply Qle_trans; [exact Hle|]. 
    assert (He : ((inject_Z d - 1) * u == inject_Z d * u - u)%Q) by ring.
    rewrite He, Hdu. apply Qle_refl. }
  apply Qabs_Qle_condition in Hnear. destruct Hnear as [Hlo Hhi].
  rewrite Hq in Hlo, Hhi.
  set (ru := (inject_Z r * u)%Q) in *.
  assert (Hu1 : (u <= 1)%Q) by lra.
  destruct (Qfloor_bounds v k) as [_ Hup].
  destruct (Qfloor_bounds v (k + -1)) as [Hlow _].
  split.
  - split.
    + assert (k + -1 <= Qfloor v); [|lia].
      apply Hlow. rewrite inject_Z_plus. change (inject_Z (-1)) with (-1 # 1)%Q. lra.
    + apply Hup. lra.
  - intros Hrne.
    assert (Hru2 : (u <= ru)%Q).
    { unfold ru.
      assert (Hle : (inject_Z 1 <= inject_Z r)%Q) by (rewrite <- Zle_Qle; lia).
      apply (Qmult_le_compat_r _ _ u) in Hle; [|by apply Qlt_le_weak].
      change (inject_Z 1) with 1%Q in Hle. rewrite Qmult_1_l in Hle. exact Hle. }
    destruct (Qfloor_bounds v k) as [Hlow' _].
    apply Z.le_antisymm; [apply Hup; lra | apply Hlow'; lra].
Qed.

Lemma normal_range (a : Q) :
  (1 # 70368744177664 <= a)%Q → (a <= 256)%Q →
  (1 / inject_Z (2 ^ 1000) <= Qabs a)%Q ∧ (Qabs a <= inject_Z (2 ^ 1000))%Q.
Proof.
  intros Hlo Hhi.
  assert (Hpos : (0 <= a)%Q) by lra.
  rewrite (Qabs_pos a Hpos).
  assert (H1 : (1 / inject_Z (2 ^ 1000) <= 1 # 70368744177664)%Q)
    by (apply Qle_bool_iff; vm_compute; reflexivity).
  assert (H2 : (256 <= inject_Z (2 ^ 1000))%Q)
    by (apply Qle_bool_iff; vm_compute; reflexivity).
  split; lra.
Qed.

Lemma Qinv_le (d c : Z) : 0 < d <= c → (1 / inject_Z c <= 1 / inject_Z d)%Q.
Proof.
  intros [Hd Hc].
  assert (Hdq : (0 < inject_Z d)%Q) by (change 0%Q with (inject_Z 0); by rewrite <- Zlt_Qlt).
  assert (Hcq : (0 < inject_Z c)%Q) by (change 0%Q with (inject_Z 0); rewrite <- Zlt_Qlt; lia).
  apply Qle_shift_div_l; [done|].
  assert (He : (1 / inject_Z c * inject_Z d == inject_Z d / inject_Z c)%Q).
  { field. intros Hz. rewrite Hz in Hcq. by apply Qlt_irrefl in Hcq. }
  rewrite He. apply Qle_shift_div_r; [done|].
  rewrite Qmult_1_l, <- Zle_Qle. done.
Qed.

Lemma Qfrac_bounds (n d lo hi : Z) :
  0 < d → lo * d <= n <= hi * d →
  (inject_Z lo <= inject_Z n / inject_Z d)%Q ∧ (inject_Z n / inject_Z d <= inject_Z hi)%Q.
Proof.
  intros Hd [H1 H2].
  assert (Hdq : (0 < inject_Z d)%Q) by (change 0%Q with (inject_Z 0); by rewrite <- Zlt_Qlt).
  split.
  - apply Qle_shift_div_l; [done|]. by rewrite <- inject_Z_mult, <- Zle_Qle.
  - apply Qle_shift_div_r; [done|]. by rewrite <- inject_Z_mult, <- Zle_Qle.
Qed.

Lemma inject_Z_nonzero (d : Z) : d ≠ 0 → ¬ (inject_Z d == 0)%Q.
Proof. intros Hd Hz. unfold Qeq in Hz. cbn in Hz. lia. Qed.

Section FloatFacts.
Context {F : Type} {ops : PyFloat F} {laws : @PyFloatLaws F ops}.

Lemma rnd_Z (n : Z) : Z.abs n <= 2 ^ 53 → (rnd (inject_Z n) == inject_Z n)%Q.
Proof.
  intros Hn. pose proof (rnd_exact n 0 Hn ltac:(lia)) as He.
  change (inject_Z (2 ^ 0)) with 1%Q in He.
  assert (Hd : (inject_Z n / 1 == inject_Z n)%Q) by (field).
  rewrite <- Hd at 2. rewrite <- He. apply rnd_proper. symmetry. exact Hd.
Qed.

Lemma rnd_0 : (rnd 0 == 0)%Q.
Proof. apply (rnd_Z 0). cbn. lia. Qed.

Lemma rnd_between (a : Q) (lo hi : Z) :
  Z.abs lo <= 2 ^ 53 → Z.abs hi <= 2 ^ 53 →
  (inject_Z lo <= a)%Q → (a <= inject_Z hi)%Q →
  (inject_Z lo <= rnd a)%Q ∧ (rnd a <= inject_Z hi)%Q.
Proof.
  intros Hlo Hhi H1 H2. split.
  - rewrite <- (rnd_Z lo Hlo). by apply rnd_mono.
  - rewrite <- (rnd_Z hi Hhi). by apply rnd_mono.
Qed.

(** The relative error of one rounding, for a positive number of
    ordinary size. *)
Lemma rnd_near (a : Q) :
  (1 # 70368744177664 <= a)%Q → (a <= 256)%Q →
  (Qabs (rnd a - a) <= a * (1 # 9007199254740992))%Q.
Proof.
  intros Hlo Hhi. destruct (normal_range a Hlo Hhi) as [H1 H2].
  pose proof (rnd_error a H1 H2) as He.
  rewrite (Qabs_pos a) in He by lra. exact He.
Qed.


(** [int(255 * x / d)] is the integer quotient. *)
Lemma ramp_floor (x d : Z) :
  0 <= x <= d → 0 < d <= 2 ^ 45 → Seg.ramp x d = inr (255 * x / d).
Proof.
  intros Hx Hd. unfold Seg.ramp.
  destruct (Z.eqb_spec d 0) as [|_]; [lia|]. f_equal.
  rewrite trunc_val.
  set (q := (inject_Z (255 * x) / inject_Z d)%Q).
  assert (Hv : (val (truediv (255 * x) d) == rnd q)%Q) by (apply val_truediv; lia).
  assert (Hq : (inject_Z 0 <= q)%Q ∧ (q <= inject_Z 255)%Q)
    by (apply Qfrac_bounds; lia).
  destruct Hq as [Hq0 Hq255].
  destruct (rnd_between q 0 255) as [Hr0 Hr255]; try done.
  change (inject_Z 0) with 0%Q in *. change (inject_Z 255) with 255%Q in *.
  rewrite Qtrunc_nonneg by (by rewrite Hv).
  rewrite Hv.
  destruct (decide ((255 * x) mod d = 0)) as [Hdiv|Hndiv].
  - assert (Hqk : (q == inject_Z (255 * x / d))%Q).
    { unfold q. rewrite (Z.div_mod (255 * x) d) at 1 by lia.
      rewrite Hdiv, Z.add_0_r, inject_Z_mult. field.
      apply inject_Z_nonzero. lia. }
    rewrite (rnd_proper _ _ Hqk), rnd_Z; [apply Qfloor_Z|].
    assert (0 <= 255 * x / d <= 255); [|lia].
    split; [apply Z.div_pos; lia | apply Z.div_le_upper_bound; lia].
  - assert (Hx1 : 1 <= x) by (destruct (decide (x = 0)) as [->|]; [done | lia]).
    assert (Hu : (1 / inject_Z (2 ^ 45) <= 1 / inject_Z d)%Q) by (apply Qinv_le; lia).
    change (1 / inject_Z (2 ^ 45))%Q with (1 # 35184372088832)%Q in Hu.
    assert (Hq1 : (inject_Z 1 / inject_Z d <= q)%Q).
    { unfold q. apply Qmult_le_compat_r.
      - rewrite <- Zle_Qle. lia.
      - apply Qlt_le_weak, Qinv_lt_0_compat.
        change 0%Q with (inject_Z 0). rewrite <- Zlt_Qlt. lia. }
    change (inject_Z 1) with 1%Q in Hq1.
    pose proof (rnd_near q ltac:(lra) ltac:(lra)) as Hnear.
    destruct (floor_of_near (rnd q) (q * (1 # 9007199254740992)) (255 * x) d)
      as [_ Hfl]; [lia | lia | done | | by apply Hfl].
    clearbody q. set (u := (1 / inject_Z d)%Q) in *. clearbody u. lra.
Qed.


(** *** [int((x / w) * 255)] *)

Lemma val_edge_core (x w : Z) :
  w ≠ 0 →
  (val (fmul (truediv x w) (of_int 255))
   == rnd (rnd (inject_Z x / inject_Z w) * 255))%Q.
Proof.
  intros Hw. rewrite val_fmul. apply rnd_proper.
  rewrite (val_truediv x w Hw), val_of_int, (rnd_Z 255) by (cbn; lia).
  reflexivity.
Qed.

Lemma Qdiv_le_compat (x x' w : Z) :
  0 < w → x <= x' → (inject_Z x / inject_Z w <= inject_Z x' / inject_Z w)%Q.
Proof.
  intros Hw Hx. apply Qmult_le_compat_r.
  - by rewrite <- Zle_Qle.
  - apply Qlt_le_weak, Qinv_lt_0_compat.
    change 0%Q with (inject_Z 0). by rewrite <- Zlt_Qlt.
Qed.

Lemma edge_core_val_range (x w : Z) :
  0 <= x < w →
  (0 <= rnd (rnd (inject_Z x / inject_Z w) * 255))%Q
  ∧ (rnd (rnd (inject_Z x / inject_Z w) * 255) <= 255)%Q.
Proof.
  intros Hx.
  destruct (Qfrac_bounds x w 0 1) as [Ht0 Ht1]; [lia | lia |].
  destruct (rnd_between _ 0 1 ltac:(cbn; lia) ltac:(cbn; lia) Ht0 Ht1) as [Ha0 Ha1].
  set (a := rnd (inject_Z x / inject_Z w)) in *. clearbody a.
  change (inject_Z 0) with 0%Q in *. change (inject_Z 1) with 1%Q in *.
  apply (rnd_between (a * 255) 0 255); try (cbn; lia).
  - change (inject_Z 0) with 0%Q. lra.
  - change (inject_Z 255) with 255%Q. lra.
Qed.

Lemma edge_core_range (x w : Z) :
  0 <= x < w → 0 <= trunc (fmul (truediv x w) (of_int 255)) <= 255.
Proof.
  intros Hx. rewrite trunc_val.
  destruct (edge_core_val_range x w Hx) as [H0 H255].
  apply Qtrunc_range; [lia | |]; rewrite val_edge_core by lia; done.
Qed.

Lemma edge_core_mono (x x' w : Z) :
  0 <= x <= x' → x' < w →
  trunc (fmul (truediv x w) (of_int 255)) <= trunc (fmul (truediv x' w) (of_int 255)).
Proof.
  intros Hx Hx'. rewrite !trunc_val.
  destruct (edge_core_val_range x w ltac:(lia)) as [H0 _].
  destruct (edge_core_val_range x' w ltac:(lia)) as [H0' _].
  rewrite !Qtrunc_nonneg by (rewrite val_edge_core by lia; done).
  apply Qfloor_resp_le. rewrite !val_edge_core by lia.
  apply rnd_mono. apply Qmult_le_compat_r; [|done].
  apply rnd_mono. apply Qdiv_le_compat; lia.
Qed.

Lemma edge_core_near (x w : Z) :
  0 <= x < w → w <= 2 ^ 44 →
  255 * x / w - 1 <= trunc (fmul (truediv x w) (of_int 255)) <= 255 * x / w
  ∧ ((255 * x) mod w ≠ 0 →
     trunc (fmul (truediv x w) (of_int 255)) = 255 * x / w).
Proof.
  intros Hx Hw. rewrite trunc_val.
  destruct (edge_core_val_range x w Hx) as [H0 H255].
  rewrite Qtrunc_nonneg by (rewrite val_edge_core by lia; done).
  rewrite (Qfloor_comp _ _ (val_edge_core x w ltac:(lia))).
  destruct (decide (x = 0)) as [->|Hx0].
  - assert (Hz : (rnd (rnd (inject_Z 0 / inject_Z w) * 255) == 0)%Q).
    { assert (Ht : (inject_Z 0 / inject_Z w == 0)%Q) by (unfold Qdiv; ring).
      assert (Hp : (rnd (inject_Z 0 / inject_Z w) * 255 == 0)%Q).
      { rewrite (rnd_proper _ _ Ht), rnd_0. ring. }
      rewrite (rnd_proper _ _ Hp). apply rnd_0. }
    rewrite (Qfloor_comp _ _ Hz). change (Qfloor 0) with 0.
    rewrite Z.mul_0_r, Z.div_0_l, Z.mod_0_l by lia. split; [lia | done].
  - apply (floor_of_near _ (511 # 9007199254740992)); [lia | lia | |].
    + assert (Hu : (1 / inject_Z (2 ^ 44) <= 1 / inject_Z w)%Q) by (apply Qinv_le; lia).
      change (1 / inject_Z (2 ^ 44))%Q with (1 # 17592186044416)%Q in Hu.
      assert (Ht1 : (inject_Z 1 / inject_Z w <= inject_Z x / inject_Z w)%Q)
        by (apply Qdiv_le_compat; lia).
      change (inject_Z 1) with 1%Q in Ht1.
      destruct (Qfrac_bounds x w 0 1) as [_ Ht2]; [lia | lia |].
      change (inject_Z 1) with 1%Q in Ht2.
      assert (Hq : (inject_Z (255 * x) / inject_Z w == 255 * (inject_Z x / inject_Z w))%Q).
      { rewrite inject_Z_mult. change (inject_Z 255) with 255%Q. field.
        apply inject_Z_nonzero. lia. }
      rewrite Hq.
      set (t := (inject_Z x / inject_Z w)%Q) in *. clearbody t.
      set (u := (1 / inject_Z w)%Q) in *. clearbody u.
      pose proof (rnd_near t ltac:(lra) ltac:(lra)) as Ha.
      apply Qabs_Qle_condition in Ha. destruct Ha as [Ha1 Ha2].
      set (a := rnd t) in *. clearbody a.
      pose proof (rnd_near (a * 255) ltac:(lra) ltac:(lra)) as Hv.
      apply Qabs_Qle_condition in Hv. destruct Hv as [Hv1 Hv2].
      set (v := rnd (a * 255)) in *. clearbody v.
      apply Qabs_Qle_condition. split; lra.
    + assert (Hu : (1 / inject_Z (2 ^ 44) <= 1 / inject_Z w)%Q) by (apply Qinv_le; lia).
      change (1 / inject_Z (2 ^ 44))%Q with (1 # 17592186044416)%Q in Hu.
      set (u := (1 / inject_Z w)%Q) in *. clearbody u. lra.
Qed.

Lemma edge_core_pow2 (x j : Z) :
  0 <= j <= 45 → 0 <= x < 2 ^ j →
  trunc (fmul (truediv x (2 ^ j)) (of_int 255)) = 255 * x / 2 ^ j.
Proof.
  intros Hj Hx.
  assert (Hpow : 2 ^ j <= 2 ^ 45) by (apply Z.pow_le_mono_r; lia).
  assert (Hpos : 0 < 2 ^ j) by (apply Z.pow_pos_nonneg; lia).
  change (2 ^ 45) with 35184372088832 in Hpow.
  rewrite trunc_val.
  destruct (edge_core_val_range x (2 ^ j) Hx) as [H0 H255].
  rewrite Qtrunc_nonneg by (rewrite val_edge_core by lia; done).
  rewrite (Qfloor_comp _ _ (val_edge_core x (2 ^ j) ltac:(lia))).
  assert (Hp : (rnd (inject_Z x / inject_Z (2 ^ j)) * 255
                == inject_Z (255 * x) / inject_Z (2 ^ j))%Q).
  { rewrite rnd_exact by (change (2 ^ 53) with 9007199254740992; lia).
    rewrite inject_Z_mult. change (inject_Z 255) with 255%Q. field.
    apply inject_Z_nonzero. lia. }
  rewrite (Qfloor_comp _ _ (rnd_proper _ _ Hp)).
  rewrite (Qfloor_comp _ _ (rnd_exact (255 * x) j
             ltac:(change (2 ^ 53) with 9007199254740992; lia) ltac:(lia))).
  symmetry. apply Zdiv_Qdiv.
Qed.

(** The value depends on the ratio x / w only. *)
Lemma edge_core_ratio (x w k : Z) :
  0 <= x < w → 0 <= k < 255 → 255 * x = k * w →
  trunc (fmul (truediv x w) (of_int 255)) = trunc (fmul (truediv k 255) (of_int 255)).
Proof.
  intros Hx Hk Hkw. rewrite !trunc_val.
  destruct (edge_core_val_range x w Hx) as [H0 _].
  destruct (edge_core_val_range k 255 Hk) as [H0' _].
  rewrite !Qtrunc_nonneg by (rewrite val_edge_core by lia; done).
  apply Qfloor_comp. rewrite !val_edge_core by lia.
  apply rnd_proper. apply Qmult_comp; [|reflexivity].
  apply rnd_proper.
  assert (Hq : (inject_Z 255 * inject_Z x == inject_Z k * inject_Z w)%Q)
    by (rewrite <- !inject_Z_mult; by rewrite Hkw).
  apply (Qmult_inj_r _ _ (inject_Z 255 * inject_Z w)).
  { intros Hz. apply Qmult_integral in Hz as [Hz|Hz];
      revert Hz; apply inject_Z_nonzero; lia. }
  transitivity (inject_Z 255 * inject_Z x)%Q;
    [|rewrite Hq]; field; apply inject_Z_nonzero; lia.
Qed.

(** With the ratios k / 255 exact, [int((x / w) * 255)] is the integer
    quotient. *)
Lemma edge_core_floor (x w : Z) :
  exact_on_255ths → 0 <= x < w → w <= 2 ^ 44 →
  trunc (fmul (truediv x w) (of_int 255)) = 255 * x / w.
Proof.
  intros H255 Hx Hw.
  destruct (decide ((255 * x) mod w = 0)) as [Hdiv|Hndiv].
  - pose proof (Z.div_mod (255 * x) w ltac:(lia)) as Hdm.
    rewrite Hdiv, Z.add_0_r in Hdm.
    set (k := 255 * x / w) in *.
    assert (Hk : 0 <= k < 255) by nia.
    rewrite (edge_core_ratio x w k) by (done || lia).
    apply (H255 k Hk).
  - by apply edge_core_near.
Qed.

End FloatFacts.

Lemma exact_on_255ths_checked {F} `{PyFloat F} :
  exact_on_255ths_check = true → exact_on_255ths.
Proof.
  unfold exact_on_255ths_check, exact_on_255ths. intros Hc k Hk.
  rewrite forallb_forall in Hc. apply Z.eqb_eq, Hc.
  apply list_elem_of_In, elem_of_range. exact Hk.
Qed.

(** ** The gradients *)

Lemma pixel_fill_cols rows (c : Z → Z) xs (img : ndarray Z) y' x' :
  pixel (foldl (λ img x, np.assign img rows (np.at_ x) (λ _ _, c x)) img xs) y' x'
  = (λ old, if rows y' && bool_decide (x' ∈ xs) then c x' else old) <$> pixel img y' x'.
Proof.
  revert img. induction xs as [|x0 xs IH]; intros img.
  - cbn [foldl]. destruct (pixel img y' x') as [old|]; [|done]. cbn.
    rewrite bool_decide_eq_false_2 by apply not_elem_of_nil.
    by rewrite andb_false_r.
  - cbn [foldl]. rewrite IH, pixel_assign.
    destruct (pixel img y' x') as [old|]; [|done]. cbn. f_equal.
    unfold np.at_. destruct (rows y'); cbn; [|done].
    destruct (Z.eqb_spec x' x0) as [->|Hne].
    + rewrite (bool_decide_eq_true_2 (x0 ∈ x0 :: xs)) by left.
      by destruct (bool_decide _).
    + repeat case_bool_decide; try done; exfalso; rewrite elem_of_cons in *; tauto.
Qed.

Lemma fill_cols_shape rows (c : Z → Z) xs (img : ndarray Z) :
  nd_shape (foldl (λ img x, np.assign img rows (np.at_ x) (λ _ _, c x)) img xs)
  = nd_shape img
  ∧ (well_shaped img →
     well_shaped (foldl (λ img x, np.assign img rows (np.at_ x) (λ _ _, c x)) img xs))
  ∧ ((∀ x, byte (c x)) → Forall (Forall byte) (nd_rows img) →
     Forall (Forall byte)
       (nd_rows (foldl (λ img x, np.assign img rows (np.at_ x) (λ _ _, c x)) img xs))).
Proof.
  revert img. induction xs as [|x xs IH]; intros img; [done|].
  cbn [foldl]. destruct (IH (np.assign img rows (np.at_ x) (λ _ _, c x))) as (H1 & H2 & H3).
  split_and!.
  - by rewrite H1.
  - intros Hws. by apply H2, well_shaped_assign.
  - intros Hc Hb. apply H3; [done|]. by apply bytes_assign.
Qed.

Section Gradients.
Context {F : Type} {ops : PyFloat F} {laws : @PyFloatLaws F ops}.

Lemma gradient_val_value (x w : Z) :
  w ≠ 0 → Edge.gradient_val x w = inr (edge_gradient_value x w).
Proof.
  intros Hw. unfold Edge.gradient_val. by destruct (Z.eqb_spec w 0).
Qed.

(** Every row of the written gradient is the same row of values. *)
Lemma edge_gradient_file h wd fn w :
  Edge.create_gradient_image h wd fn w
  = (inr tt,
     World (<[fn := TextFile (plaintext h wd 1
               ((λ _, (λ x, edge_gradient_value x wd) <$> range wd) <$> range h))]>
              (files w))
       (stdout w ++ [Msg_created fn wd h]) (rand w)).
Proof.
  apply (line_writer_pure fn h wd
           (λ y, collect (λ x, Edge.gradient_val x wd) (range wd))).
  apply collect_pure. intros y _.
  apply collect_pure. intros x Hx. apply elem_of_range in Hx.
  apply gradient_val_value. lia.
Qed.

Lemma seg_gradient_fill width height :
  2 <= width <= 2 ^ 45 → 0 <= height →
  Seg.generate_gradient_image width height
  = inr (foldl (λ img x,
           np.assign img np.all_ (np.at_ x) (λ _ _, np.uint8 (255 * x / (width - 1))))
         (NdArray (height, width)
            (replicate (Z.to_nat height) (replicate (Z.to_nat width) 0)))
         (range width)).
Proof.
  intros Hw Hh. unfold Seg.generate_gradient_image.
  rewrite full_ok by lia. unfold mbind at 1, result_bind at 1.
  apply fold_result_pure. intros img x Hx. apply elem_of_range in Hx.
  rewrite ramp_floor by lia. done.
Qed.

Lemma seg_gradient_pixel width height y x :
  2 <= width <= 2 ^ 45 → 0 <= y < height → 0 <= x < width →
  ∃ img,
    Seg.generate_gradient_image width height = inr img
    ∧ nd_shape img = (height, width)
    ∧ pixel img y x = Some (255 * x / (width - 1)).
Proof.
  intros Hw Hy Hx. rewrite seg_gradient_fill by lia.
  eexists. split; [reflexivity|]. split.
  - by rewrite (proj1 (fill_cols_shape _ _ _ _)).
  - rewrite pixel_fill_cols, pixel_replicate by done. cbn. f_equal.
    rewrite bool_decide_eq_true_2 by (by apply elem_of_range).
    apply uint8_id. unfold byte. split.
    + apply Z.div_pos; lia.
    + apply Z.div_le_upper_bound; lia.
Qed.

End Gradients.

(** C6, as amended.  Under the laws of round-to-nearest arithmetic:
    - the gradient of the segmentation tests divides by [width - 1], not
      by the width: for 2 <= width <= 2^45 the value at column [x] of
      every row is floor(255 * x / (width - 1)), so with width 256 it is
      [x] itself: value(0) = 0 and value(255) = 255;
    - the gradient of the edge-detection tests writes the same row
      [height] times; its value at column [x] is [int((x / w) * 255)],
      replaced by 255 minus that in the bands where x mod 50 < 5.
      [int((x / w) * 255)] lies in 0..255, is non-decreasing in [x] and,
      for w <= 2^44, is floor(255 * x / w), in a float format that has
      [int((k / 255) * 255) = k] for k in 0..254, as IEEE double
      precision has; with w = 256, value(255) = 254, while column 0
      lies in a band and holds 255;
    - outside the bands the values of a row are non-decreasing in [x]. *)
Theorem C6_gradient_values {F : Type} (ops : PyFloat F) (laws : @PyFloatLaws F ops) :
  (∀ width height y x,
     2 <= width <= 2 ^ 45 → 0 <= y < height → 0 <= x < width →
     ∃ img,
       Seg.generate_gradient_image width height = inr img
       ∧ nd_shape img = (height, width)
       ∧ pixel img y x = Some (255 * x / (width - 1)))
  ∧ (∀ h wd fn w,
       Edge.create_gradient_image h wd fn w
       = (inr tt,
          World (<[fn := TextFile (plaintext h wd 1
                    ((λ _, (λ x, edge_gradient_value x wd) <$> range wd) <$> range h))]>
                   (files w))
            (stdout w ++ [Msg_created fn wd h]) (rand w)))
  ∧ (∀ x w,
       0 <= x < w →
       0 <= edge_core x w <= 255
       ∧ (w <= 2 ^ 44 → exact_on_255ths → edge_core x w = 255 * x / w))
  ∧ (∀ x x' w,
       0 <= x <= x' → x' < w →
       edge_core x w <= edge_core x' w
       ∧ (5 <= x mod 50 → 5 <= x' mod 50 →
          edge_gradient_value x w <= edge_gradient_value x' w))
  ∧ edge_gradient_value 255 256 = 254
  ∧ edge_gradient_value 0 256 = 255.
Proof.
  split_and!.
  - intros. by apply seg_gradient_pixel.
  - intros. apply edge_gradient_file.
  - intros x w Hx. split.
    + apply (edge_core_range x w Hx).
    + intros Hw H255. by apply edge_core_floor.
  - intros x x' w Hx Hx'. assert (Hm := edge_core_mono x x' w Hx Hx').
    split; [exact Hm|]. intros Hb Hb'. unfold edge_gradient_value.
    destruct (Z.ltb_spec (x mod 50) 5); [lia|].
    destruct (Z.ltb_spec (x' mod 50) 5); [lia|]. exact Hm.
  - unfold edge_gradient_value, edge_core. change 256 with (2 ^ 8).
    rewrite edge_core_pow2 by (cbn; lia). reflexivity.
  - unfold edge_gradient_value, edge_core. change 256 with (2 ^ 8).
    rewrite edge_core_pow2 by (cbn; lia). reflexivity.
Qed.

Lemma C6_gradient_values_witness :
  (∃ img,
     Seg.generate_gradient_image (H:=exact_arith) 256 2 = inr img
     ∧ nd_shape img = (2, 256)
     ∧ pixel img 1 255 = Some (255 * 255 / (256 - 1)))
  ∧ 0 <= @edge_core Q exact_arith 110 256 <= 255
  ∧ @edge_core Q exact_arith 85 255 = 255 * 85 / 255
  ∧ @edge_core Q exact_arith 110 256 <= @edge_core Q exact_arith 220 256
  ∧ @edge_gradient_value Q exact_arith 110 256
    <= @edge_gradient_value Q exact_arith 220 256.
Proof.
  pose proof (C6_gradient_values exact_arith exact_laws) as (HA & _ & HC & HD & _).
  split; [apply (HA 256 2 1 255); lia|].
  split; [apply (proj1 (HC 110 256 ltac:(lia)))|].
  split.
  { apply (proj2 (HC 85 255 ltac:(lia))); [apply Z.leb_le; reflexivity|].
    apply exact_on_255ths_checked. vm_compute. reflexivity. }
  split; [apply (proj1 (HD 110 220 256 ltac:(lia) ltac:(lia)))|].
  apply (proj2 (HD 110 220 256 ltac:(lia) ltac:(lia)));
    vm_compute; intros H; discriminate H.
Defined.

(** C6, as stated, fails.  In IEEE double arithmetic the gradient of the
    segmentation tests, with width 256, holds 255 at column 255, where
    floor(255 * 255 / 256) is 254; and the edge-detection gradient holds
    255 at column 0, which lies in an inversion band. *)
Lemma C6_counterexample :
  (img ← Seg.generate_gradient_image (H:=binary64) 256 1; mret (pixel img 0 255))
  = inr (Some 255)
  ∧ 255 * 255 / 256 = 254
  ∧ @edge_gradient_value float binary64 0 256 = 255.
Proof. split_and!; vm_compute; reflexivity. Qed.

(** IEEE double precision has the ratios k / 255 exact, and rows of the
    edge-detection gradient computed in it: the integer quotients, also
    where the width divides 255 * x. *)
Example binary64_exact_on_255ths : @exact_on_255ths float binary64.
Proof. apply exact_on_255ths_checked. vm_compute. reflexivity. Qed.

Example binary64_gradient_rows :
  (λ x, @edge_core float binary64 x 255) <$> range 255 = range 255
  ∧ (λ x, @edge_core float binary64 x 510) <$> range 510
    = (λ x, 255 * x / 510) <$> range 510
  ∧ (λ x, @edge_core float binary64 x 100) <$> range 100
    = (λ x, 255 * x / 100) <$> range 100
  ∧ (λ x, @edge_core float binary64 x 1275) <$> range 1275
    = (λ x, 255 * x / 1275) <$> range 1275.
Proof. split_and!; vm_compute; reflexivity. Qed.

(** The same values computed in IEEE double arithmetic. *)
Example binary64_gradient_256 :
  @edge_gradient_value float binary64 255 256 = 254
  ∧ @edge_gradient_value float binary64 0 256 = 255
  ∧ @edge_gradient_value float binary64 100 256 = 156
  ∧ (λ x, @edge_core float binary64 x 256) <$> range 256
    = (λ x, 255 * x / 256) <$> range 256
  ∧ (img ← Seg.generate_gradient_image (H:=binary64) 256 1; mret (nd_rows img))
    = inr [range 256].
Proof. split_and!; vm_compute; reflexivity. Qed.

(** ** The other writers *)

Lemma rows_by_index {A} (d : A) (l : list A) :
  (λ y, default d (l !! Z.to_nat y)) <$> range (Z.of_nat (length l)) = l.
Proof.
  unfold range. rewrite seqZ_as_seq, Nat2Z.id, <- list_fmap_compose.
  apply list_eq. intros i. rewrite list_lookup_fmap.
  destruct (l !! i) as [x|] eqn:E.
  - rewrite lookup_seq_lt by (by eapply lookup_lt_Some). cbn.
    by rewrite Nat2Z.id, E.
  - rewrite lookup_seq_ge; [done|]. by apply lookup_ge_None.
Qed.

Lemma fmap_by_index {A B} (g : list A → B) (l : list (list A)) n :
  n = Z.of_nat (length l) →
  (λ y : Z, g (default [] (l !! Z.to_nat y))) <$> range n = g <$> l.
Proof.
  intros ->.
  transitivity (fmap (M:=list) g
                  ((λ y : Z, default [] (l !! Z.to_nat y)) <$> range (Z.of_nat (length l)))).
  - by rewrite <- list_fmap_compose.
  - by rewrite rows_by_index.
Qed.

Lemma save_image_txt_file (arr : ndarray Z) fn w :
  well_shaped arr →
  Seg.save_image_txt arr fn w
  = (inr tt,
     World (<[fn := TextFile (plaintext (nd_shape arr).1 (nd_shape arr).2 1 (nd_rows arr))]>
              (files w))
       (stdout w ++ [Msg_created_txt fn (nd_shape arr).2 (nd_shape arr).1]) (rand w)).
Proof.
  intros (Hh & Hw & Hlen & Hrows). unfold Seg.save_image_txt.
  destruct (nd_shape arr) as [hh ww] eqn:Es. cbn [fst snd] in *.
  unfold mbind at 1, M_bind at 1. unfold mbind at 1, M_bind at 1.
  pose proof (open_header fn hh ww 1 w) as Hoh.
  unfold mbind at 1, M_bind at 1 in Hoh.
  destruct (open_w fn w) as [[e|[]] w0] eqn:Eo; [done|].
  rewrite Hoh. unfold mbind at 1, M_bind at 1.
  rewrite (for_each_write fn (λ y, row_line (default [] (nd_rows arr !! Z.to_nat y)))
             _ _ (header_line hh ww 1)) by (cbn; apply lookup_insert_eq).
  unfold print. cbn [files stdout rand]. rewrite insert_insert_eq.
  assert (Hx : (λ y : Z, row_line (default [] (nd_rows arr !! Z.to_nat y))) <$> range hh
               = row_line <$> nd_rows arr).
  { apply (fmap_by_index row_line). lia. }
  unfold plaintext. by rewrite Hx.
Qed.

Lemma array_rows_by_index im :
  0 <= im_width im → 0 <= im_height im →
  Z.of_nat (length (im_data im)) = im_width im * im_height im →
  (λ y, default [] (array_rows im !! Z.to_nat y)) <$> range (im_height im)
  = array_rows im.
Proof.
  intros Hw Hh Hlen.
  destruct (array_rows_grid im Hw Hh Hlen) as [Hl _].
  rewrite <- Hl at 1. apply rows_by_index.
Qed.

Lemma length_triple (row : list Z) : length (triple row) = (3 * length row)%nat.
Proof.
  unfold triple. induction row as [|v row IH]; [done|].
  rewrite fmap_cons, concat_cons, length_app, IH. cbn. lia.
Qed.

Lemma foldl_triple_acc (row : list Z) xs acc :
  foldl (λ row_vals x,
           let v := default 0 (row !! Z.to_nat x) in row_vals ++ [v; v; v])
        acc xs
  = acc ++ triple ((λ x, default 0 (row !! Z.to_nat x)) <$> xs).
Proof.
  revert acc. induction xs as [|x xs IH]; intros acc.
  - cbn. by rewrite app_nil_r.
  - cbn [foldl]. rewrite IH. unfold triple.
    rewrite !fmap_cons, concat_cons, <- !app_assoc. done.
Qed.

Lemma foldl_triple (row : list Z) :
  foldl (λ row_vals x,
           let v := default 0 (row !! Z.to_nat x) in row_vals ++ [v; v; v])
        [] (range (Z.of_nat (length row)))
  = triple row.
Proof. by rewrite foldl_triple_acc, rows_by_index. Qed.

Lemma save_image_matrix_gray im input_path output_txt_path w :
  files w !! input_path = Some (ImageFile im) →
  0 <= im_width im → 0 <= im_height im →
  Z.of_nat (length (im_data im)) = im_width im * im_height im →
  save_image_matrix input_path output_txt_path true w
  = (inr tt,
     World (<[output_txt_path :=
                TextFile (plaintext (im_height im) (im_width im) 1 (array_rows im))]>
              (files w))
       (stdout w ++ [Msg_saved_matrix output_txt_path]) (rand w)).
Proof.
  intros Hf Hw Hh Hlen. unfold save_image_matrix, PIL.open.
  unfold mbind at 1, M_bind at 1. rewrite Hf.
  unfold mbind at 1, M_bind at 1. unfold mbind at 1, M_bind at 1.
  pose proof (open_header output_txt_path (im_height im) (im_width im) 1 w) as Hoh.
  unfold mbind at 1, M_bind at 1 in Hoh.
  destruct (open_w output_txt_path w) as [[e|[]] w0] eqn:Eo; [done|].
  rewrite Hoh. unfold mbind at 1, M_bind at 1. cbn [Z.eqb Pos.eqb].
  rewrite (for_each_write output_txt_path
             (λ y, row_line (default [] (array_rows im !! Z.to_nat y)))
             _ _ (header_line (im_height im) (im_width im) 1))
    by (cbn; apply lookup_insert_eq).
  unfold print. cbn [files stdout rand]. rewrite insert_insert_eq.
  assert (Hx : (λ y : Z, row_line (default [] (array_rows im !! Z.to_nat y)))
                 <$> range (im_height im)
               = row_line <$> array_rows im).
  { apply (fmap_by_index row_line). by destruct (array_rows_grid im Hw Hh Hlen). }
  unfold plaintext. by rewrite Hx.
Qed.

Lemma save_image_matrix_rgb im input_path output_txt_path w :
  files w !! input_path = Some (ImageFile im) →
  0 <= im_width im → 0 <= im_height im →
  Z.of_nat (length (im_data im)) = im_width im * im_height im →
  save_image_matrix input_path output_txt_path false w
  = (inr tt,
     World (<[output_txt_path :=
                TextFile (plaintext (im_height im) (im_width im) 3
                            (triple <$> array_rows im))]>
              (files w))
       (stdout w ++ [Msg_saved_matrix output_txt_path]) (rand w)).
Proof.
  intros Hf Hw Hh Hlen. unfold save_image_matrix, PIL.open.
  unfold mbind at 1, M_bind at 1. rewrite Hf.
  unfold mbind at 1, M_bind at 1. unfold mbind at 1, M_bind at 1.
  pose proof (open_header output_txt_path (im_height im) (im_width im) 3 w) as Hoh.
  unfold mbind at 1, M_bind at 1 in Hoh.
  destruct (open_w output_txt_path w) as [[e|[]] w0] eqn:Eo; [done|].
  rewrite Hoh. unfold mbind at 1, M_bind at 1. cbn [Z.eqb Pos.eqb].
  rewrite (for_each_write output_txt_path
             (λ y, row_line
                (foldl (λ row_vals x,
                          let v := default 0 (default [] (array_rows im !! Z.to_nat y)
                                                !! Z.to_nat x) in
                          row_vals ++ [v; v; v]) [] (range (im_width im))))
             _ _ (header_line (im_height im) (im_width im) 3))
    by (cbn; apply lookup_insert_eq).
  unfold print. cbn [files stdout rand]. rewrite insert_insert_eq.
  destruct (array_rows_grid im Hw Hh Hlen) as [_ Hrows].
  assert (Hx : (λ y : Z, row_line
                  (foldl (λ row_vals x,
                            let v := default 0 (default [] (array_rows im !! Z.to_nat y)
                                                  !! Z.to_nat x) in
                            row_vals ++ [v; v; v]) [] (range (im_width im))))
                 <$> range (im_height im)
               = row_line <$> (triple <$> array_rows im)).
  { assert (Ht : fmap (M:=list) triple (array_rows im)
                 = (λ row : list Z,
                      foldl (λ row_vals x,
                               let v := default 0 (row !! Z.to_nat x) in
                               row_vals ++ [v; v; v]) [] (range (im_width im)))
                   <$> array_rows im).
    { apply list_fmap_ext. intros i row Hi.
      rewrite Forall_lookup in Hrows. rewrite <- (Hrows _ _ Hi).
      symmetry. apply foldl_triple. }
    rewrite Ht, <- list_fmap_compose.
    apply (fmap_by_index
             (λ row : list Z,
                row_line (foldl (λ row_vals x,
                                   let v := default 0 (row !! Z.to_nat x) in
                                   row_vals ++ [v; v; v]) [] (range (im_width im))))).
    by destruct (array_rows_grid im Hw Hh Hlen). }
  cbv zeta in Hx. unfold plaintext. by rewrite Hx.
Qed.

(** ** The noisy generators that write their file *)

Lemma sure_noisy_edges_val x y : sure (Edge.noisy_edges_val x y) byte.
Proof.
  unfold Edge.noisy_edges_val. cbv zeta.
  eapply sure_bind; [apply sure_randint; lia|]. intros noise _.
  apply sure_ret. unfold byte. lia.
Qed.

Lemma create_noisy_edges_image_sure h wd fn w :
  ∃ rows w',
    Edge.create_noisy_edges_image h wd fn w = (inr tt, w')
    ∧ files w' = <[fn := TextFile (plaintext h wd 1 rows)]> (files w)
    ∧ stdout w' = stdout w ++ [Msg_created fn wd h]
    ∧ Forall (λ row, length row = Z.to_nat wd ∧ Forall byte row) rows
    ∧ length rows = Z.to_nat h.
Proof.
  apply (line_writer_sure fn h wd
           (λ y, for_collect (range wd) (λ x, Edge.noisy_edges_val x y))).
  intros y _ w0.
  destruct (sure_for_collect (range wd) (λ x, Edge.noisy_edges_val x y) byte
              ltac:(intros; apply sure_noisy_edges_val) w0)
    as (row & w1 & Hr & Hf & Ho & Hlen & Hb).
  exists row, w1. split_and!; try done.
  rewrite Hlen. unfold range. by rewrite length_seqZ.
Qed.

Lemma sure_bimodal_val : sure Large.bimodal_val bimodal_value.
Proof.
  unfold Large.bimodal_val.
  eapply sure_bind; [apply sure_random_random|]. intros u _.
  destruct (Qlt_bool u (1 # 2)).
  - intros w. destruct (sure_randint 20 80 ltac:(lia) w) as (v & w' & ? & ? & ? & ?).
    exists v, w'. split_and!; try done. by left.
  - intros w. destruct (sure_randint 180 240 ltac:(lia) w) as (v & w' & ? & ? & ? & ?).
    exists v, w'. split_and!; try done. by right.
Qed.

Lemma for_each_ext {A} (l : list A) (f g : A → M unit) w :
  (∀ x w, f x w = g x w) → for_each l f w = for_each l g w.
Proof.
  intros Hfg. revert w. induction l as [|x l IH]; intros w; [done|].
  cbn [for_each]. unfold mbind, M_bind. rewrite Hfg.
  destruct (g x w) as [[e|[]] w']; [done|]. apply IH.
Qed.

(** With a directory in the file name, the large bimodal image is the
    header followed by one value per line. *)
Lemma create_bimodal_image_sure h wd fn w :
  dirname fn ≠ [] →
  ∃ vals w',
    Large.create_bimodal_image h wd fn w = (inr tt, w')
    ∧ files w' = <[fn := TextFile (plaintext h wd 1 ((λ v, [v]) <$> vals))]> (files w)
    ∧ stdout w' = stdout w ++ [Msg_created_pixels fn wd h]
    ∧ Forall bimodal_value vals
    ∧ length vals = Z.to_nat (h * wd).
Proof.
  intros Hdir. unfold Large.create_bimodal_image, makedirs.
  destruct (dirname fn) as [|c d]; [done|].
  unfold mbind at 1, M_bind at 1. unfold mret at 1, M_ret at 1.
  unfold mbind at 1, M_bind at 1. unfold mbind at 1, M_bind at 1.
  pose proof (open_header fn h wd 1 w) as Hoh.
  unfold mbind at 1, M_bind at 1 in Hoh.
  destruct (open_w fn w) as [[e|[]] w0] eqn:Eo; [done|].
  rewrite Hoh. unfold mbind at 1, M_bind at 1.
  rewrite (for_each_ext _ _
             (λ i, row ← (val ← Large.bimodal_val; mret [val]);
                   f_write fn (row_line row))).
  2:{ intros i w1. unfold mbind, M_bind, mret, M_ret.
      by destruct (Large.bimodal_val w1) as [[e|v] w2]. }
  destruct (write_rows_sure fn (λ _ : Z, val ← Large.bimodal_val; mret [val])
              (λ row, ∃ v, row = [v] ∧ bimodal_value v) (range (h * wd))
              (World (<[fn:=TextFile (header_line h wd 1)]> (files w)) (stdout w) (rand w))
              (header_line h wd 1))
    as (rows & w' & Hr & Hf & Ho & HP & Hlen).
  { intros y _. eapply sure_bind; [apply sure_bimodal_val|].
    intros v Hv. apply sure_ret. by exists v. }
  { cbn. apply lookup_insert_eq. }
  rewrite Hr. unfold print. cbn [files stdout rand] in *.
  rewrite insert_insert_eq in Hf.
  assert (Hvals : ∃ vals, rows = (λ v, [v]) <$> vals ∧ Forall bimodal_value vals).
  { clear -HP. induction HP as [|row rows (v & -> & Hv) _ (vals & -> & Hvals)].
    - by exists [].
    - exists (v :: vals). split; [done | by constructor]. }
  destruct Hvals as (vals & -> & Hvals).
  exists vals; eexists. split_and!; try done.
  - by rewrite Ho.
  - rewrite length_fmap in Hlen. rewrite Hlen. unfold range. by rewrite length_seqZ.
Qed.

Lemma create_bimodal_image_no_directory h wd fn w :
  dirname fn = [] →
  Large.create_bimodal_image h wd fn w = (inl (FileNotFoundError EmptyString), w).
Proof. intros Hdir. unfold Large.create_bimodal_image. by rewrite Hdir. Qed.

(** ** The layout of the written files *)

Lemma grid_of_lengths h n (P : Z → Prop) (rows : list (list Z)) :
  0 <= h → 0 <= n →
  length rows = Z.to_nat h →
  Forall (λ row, length row = Z.to_nat n ∧ Forall P row) rows →
  grid h (n * 1) rows.
Proof.
  intros Hh Hn Hlen Hrows. split; [lia|].
  eapply Forall_impl; [exact Hrows|]. cbn. intros row [Hl _]. lia.
Qed.

(** C7, as amended: the files written by [convert_to_txt] (for an image
    of positive width), [save_image_matrix] (one or three channels),
    [save_image_txt] and the gradient, checkerboard, noisy-edges and
    shapes generators consist of the header line "height width channels"
    followed by exactly [height] lines of [width * channels] integers
    separated by single spaces.  The large bimodal generator differs:
    after the header it writes [height * width] lines of one integer
    each.  The 2 x 2 image [[0, 85], [170, 255]] is written as
    "2 2 1\n0 85\n170 255\n". *)
Theorem C7_plaintext_layout :
  (∀ im w img_path txt_path,
     files w !! img_path = Some (ImageFile im) →
     0 < im_width im → 0 <= im_height im →
     Z.of_nat (length (im_data im)) = im_width im * im_height im →
     holds_plaintext (convert_to_txt img_path txt_path w).2 txt_path
       (im_height im) (im_width im) 1)
  ∧ (∀ im w input_path output_txt_path (grayscale : bool),
       files w !! input_path = Some (ImageFile im) →
       0 <= im_width im → 0 <= im_height im →
       Z.of_nat (length (im_data im)) = im_width im * im_height im →
       holds_plaintext (save_image_matrix input_path output_txt_path grayscale w).2
         output_txt_path (im_height im) (im_width im) (if grayscale then 1 else 3))
  ∧ (∀ (arr : ndarray Z) fn w,
       well_shaped arr →
       holds_plaintext (Seg.save_image_txt arr fn w).2 fn
         (nd_shape arr).1 (nd_shape arr).2 1)
  ∧ (∀ (F : Type) (ops : PyFloat F) h wd fn w,
       0 <= h → 0 <= wd →
       holds_plaintext (Edge.create_gradient_image h wd fn w).2 fn h wd 1)
  ∧ (∀ h wd fn block_size w,
       0 <= h → 0 <= wd → block_size ≠ 0 →
       holds_plaintext (Edge.create_checkerboard_image h wd fn block_size w).2 fn h wd 1)
  ∧ (∀ h wd fn w,
       0 <= h → 0 <= wd →
       holds_plaintext (Edge.create_noisy_edges_image h wd fn w).2 fn h wd 1)
  ∧ (∀ h wd fn w,
       100 <= h → 100 <= wd →
       holds_plaintext (Edge.create_shapes_image h wd fn w).2 fn h wd 1)
  ∧ (∀ h wd fn w,
       dirname fn ≠ [] → 0 <= h * wd →
       holds_value_lines (Large.create_bimodal_image h wd fn w).2 fn h wd)
  ∧ files (convert_to_txt "in.png" "out.txt"
             (sample_world {["in.png" := ImageFile sample_image]})).2 !! "out.txt"
    = Some (TextFile (txt "2 2 1" ++ LF :: txt "0 85" ++ LF :: txt "170 255" ++ [LF])).
Proof.
  split_and!.
  - intros im w img_path txt_path Hf Hw Hh Hlen.
    rewrite (convert_to_txt_rows im) by done. cbn [snd].
    exists (array_rows im). split; [cbn; apply lookup_insert_eq|].
    rewrite Z.mul_1_r. apply array_rows_grid; (done || lia).
  - intros im w input_path output_txt_path [|] Hf Hw Hh Hlen.
    + rewrite (save_image_matrix_gray im) by done. cbn [snd].
      exists (array_rows im). split; [cbn; apply lookup_insert_eq|].
      rewrite Z.mul_1_r. by apply array_rows_grid.
    + rewrite (save_image_matrix_rgb im) by done. cbn [snd].
      exists (triple <$> array_rows im). split; [cbn; apply lookup_insert_eq|].
      destruct (array_rows_grid im Hw Hh Hlen) as [Hl Hrows]. split.
      * by rewrite length_fmap.
      * apply Forall_fmap. eapply Forall_impl; [exact Hrows|]. cbn.
        intros row Hrow. rewrite length_triple. lia.
  - intros arr fn w Hws. rewrite save_image_txt_file by done. cbn [snd].
    exists (nd_rows arr). split; [cbn; apply lookup_insert_eq|].
    destruct Hws as (Hh & Hw & Hlen & Hrows). split; [lia|].
    eapply Forall_impl; [exact Hrows|]. cbn. lia.
  - intros F ops h wd fn w Hh Hw. rewrite edge_gradient_file. cbn [snd].
    eexists. split; [cbn; apply lookup_insert_eq|]. split.
    + rewrite length_fmap. unfold range. rewrite length_seqZ. lia.
    + apply Forall_fmap, Forall_true. intros y. cbn.
      rewrite length_fmap. unfold range. rewrite length_seqZ. lia.
  - intros h wd fn block_size w Hh Hw Hb. rewrite edge_checkerboard_file by done.
    cbn [snd]. eexists. split; [cbn; apply lookup_insert_eq|]. split.
    + rewrite length_fmap. unfold range. rewrite length_seqZ. lia.
    + apply Forall_fmap, Forall_true. intros y. cbn.
      rewrite length_fmap. unfold range. rewrite length_seqZ. lia.
  - intros h wd fn w Hh Hw.
    destruct (create_noisy_edges_image_sure h wd fn w)
      as (rows & w' & -> & Hf & _ & Hrows & Hlen). cbn [snd].
    exists rows. split; [rewrite Hf; apply lookup_insert_eq|].
    by apply (grid_of_lengths h wd byte).
  - intros h wd fn w Hh Hw.
    destruct (create_shapes_image_sure h wd fn w Hh Hw)
      as (rows & w' & -> & Hf & _ & Hlen & Hrows). cbn [snd].
    exists rows. split; [rewrite Hf; apply lookup_insert_eq|].
    apply (grid_of_lengths h wd shape_value); (done || lia).
  - intros h wd fn w Hdir Hhw.
    destruct (create_bimodal_image_sure h wd fn w Hdir)
      as (vals & w' & -> & Hf & _ & _ & Hlen). cbn [snd].
    exists vals. split; [rewrite Hf; apply lookup_insert_eq | lia].
  - reflexivity.
Qed.

Lemma C7_plaintext_layout_witness :
  holds_plaintext
    (convert_to_txt "in.png" "out.txt"
       (sample_world {["in.png" := ImageFile sample_image]})).2
    "out.txt" 2 2 1
  ∧ holds_value_lines
      (Large.create_bimodal_image 2 2 "test_images/test.txt" (sample_world ∅)).2
      "test_images/test.txt" 2 2.
Proof.
  split.
  - apply (proj1 C7_plaintext_layout sample_image
             (sample_world {["in.png" := ImageFile sample_image]}) "in.png" "out.txt");
      (reflexivity || (cbn; lia)).
  - apply (proj1 (proj2 (proj2 (proj2 (proj2 (proj2 (proj2 (proj2 C7_plaintext_layout)))))))
             2 2 "test_images/test.txt" (sample_world ∅)).
    + vm_compute. intros H. discriminate H.
    + lia.
Defined.

(** C7, as stated, fails: for a 2 x 2 image the large bimodal generator
    writes four lines of one value after the header, which no grid of two
    rows of two values spells. *)
Lemma C7_counterexample :
  files (Large.create_bimodal_image 2 2 "test_images/test.txt" (sample_world ∅)).2
    !! "test_images/test.txt"
  = Some (TextFile (plaintext 2 2 1 [[22]; [61]; [39]; [78]]))
  ∧ ∀ rows, grid 2 (2 * 1) rows →
            plaintext 2 2 1 rows ≠ plaintext 2 2 1 [[22]; [61]; [39]; [78]].
Proof.
  split; [reflexivity|].
  intros rows [Hlen _] Heq. unfold plaintext in Heq.
  apply app_inv_head in Heq.
  apply (f_equal (λ s, length (lines s))) in Heq.
  rewrite !lines_rows, !length_fmap in Heq. cbn in Heq. lia.
Qed.

(** ** The range of the generated values *)

Lemma shape_value_byte v : shape_value v → byte v.
Proof. unfold shape_value, byte. lia. Qed.

Lemma bimodal_value_byte v : bimodal_value v → byte v.
Proof. unfold bimodal_value, byte. lia. Qed.

Lemma line_writer_emits fn h wd row_of (P : Z → Prop) w :
  (∀ y, quiet (row_of y) (Forall P)) →
  emits P fn w (line_writer fn h wd row_of w).2.
Proof.
  intros Hq.
  destruct (line_writer_quiet fn h wd row_of (Forall P) w Hq)
    as (r & rows & w' & -> & Hf & HP & _).
  right. by exists h, wd, rows.
Qed.

Lemma edge_checkerboard_emits h wd fn block_size w :
  emits byte fn w (Edge.create_checkerboard_image h wd fn block_size w).2.
Proof.
  apply (line_writer_emits fn h wd
           (λ y, lift (collect (λ x, Edge.checkerboard_val x y block_size) (range wd)))).
  intros y. apply quiet_lift. intros row Hrow.
  eapply (collect_Forall _ byte); [|exact Hrow].
  intros x v _. unfold Edge.checkerboard_val.
  destruct (block_size =? 0); [done|]. intros [= <-].
  unfold byte. destruct (_ =? 0); lia.
Qed.

Lemma edge_noisy_emits h wd fn w :
  emits byte fn w (Edge.create_noisy_edges_image h wd fn w).2.
Proof.
  destruct (create_noisy_edges_image_sure h wd fn w)
    as (rows & w' & -> & Hf & _ & Hrows & _).
  right. exists h, wd, rows. split; [done|].
  eapply Forall_impl; [exact Hrows|]. by intros row [_ Hb].
Qed.

Lemma edge_shapes_emits h wd fn w :
  emits byte fn w (Edge.create_shapes_image h wd fn w).2.
Proof.
  unfold Edge.create_shapes_image.
  unfold mbind at 1, M_bind at 1. rewrite makedirs_dirname_or_dot.
  destruct (shapes_pixels_quiet h wd w) as (r & w1 & Hr & Hf & Ho & HP).
  unfold mbind at 1, M_bind at 1. rewrite Hr.
  destruct r as [e|px]; [by left|].
  unfold mbind at 1, M_bind at 1. unfold mbind at 1, M_bind at 1.
  pose proof (open_header fn h wd 1 w1) as Hoh.
  unfold mbind at 1, M_bind at 1 in Hoh.
  destruct (open_w fn w1) as [[e|[]] w0] eqn:Eo; [done|].
  rewrite Hoh. unfold mbind at 1, M_bind at 1.
  rewrite (for_each_write fn row_line px _ (header_line h wd 1))
    by (cbn; apply lookup_insert_eq).
  unfold print. cbn [snd files stdout rand]. rewrite insert_insert_eq, Hf.
  right. exists h, wd, px. split; [done|].
  eapply Forall_impl; [exact (HP px eq_refl)|]. cbn. intros row Hrow.
  eapply Forall_impl; [exact Hrow | apply shape_value_byte].
Qed.

Lemma large_bimodal_emits h wd fn w :
  emits byte fn w (Large.create_bimodal_image h wd fn w).2.
Proof.
  destruct (decide (dirname fn = [])) as [Hd|Hd].
  - rewrite create_bimodal_image_no_directory by done. by left.
  - destruct (create_bimodal_image_sure h wd fn w Hd)
      as (vals & w' & -> & Hf & _ & Hv & _).
    right. exists h, wd, ((λ v, [v]) <$> vals). split; [done|].
    apply Forall_fmap. eapply Forall_impl; [exact Hv|]. cbn.
    intros v Hbv. constructor; [by apply bimodal_value_byte | constructor].
Qed.

(** *** Arrays of dtype uint8 *)

Lemma array_values_bytes (r : result (ndarray Z)) :
  (∀ img, r = inr img → bytes_array img) → Forall byte (array_values r).
Proof.
  intros Hr. destruct r as [e|img]; [constructor|].
  cbn. apply Forall_concat. by apply Hr.
Qed.

Lemma bytes_full height width v img :
  byte v → np.full height width v = inr img → bytes_array img.
Proof.
  intros Hv Hf. apply full_inv in Hf as (_ & _ & ->).
  apply Forall_replicate, Forall_replicate. done.
Qed.

Lemma byte_0 : byte 0.
Proof. unfold byte. lia. Qed.

Lemma seg_bimodal_bytes width height bg_val fg_val :
  Forall byte (array_values (Seg.generate_bimodal_image width height bg_val fg_val)).
Proof.
  apply array_values_bytes. intros img. unfold Seg.generate_bimodal_image.
  destruct (np.full height width 0) as [e|img0] eqn:Ef; [done|].
  cbn. intros [= <-].
  apply bytes_assign; [intros; apply uint8_byte|].
  apply bytes_assign; [intros; apply uint8_byte|].
  by apply (bytes_full height width 0).
Qed.

Lemma seg_three_level_bytes width height :
  Forall byte (array_values (Seg.generate_three_level_image width height)).
Proof.
  apply array_values_bytes. intros img. unfold Seg.generate_three_level_image.
  destruct (np.full height width 0) as [e|img0] eqn:Ef; [done|].
  cbn. intros [= <-].
  do 3 (apply bytes_assign; [intros; apply uint8_byte|]).
  by apply (bytes_full height width 0).
Qed.

Lemma seg_circle_bytes width height bg_val fg_val :
  Forall byte (array_values (Seg.generate_circle_image width height bg_val fg_val)).
Proof.
  apply array_values_bytes. intros img. unfold Seg.generate_circle_image.
  destruct (np.full height width (np.uint8 bg_val)) as [e|img0] eqn:Ef; [done|].
  cbn. intros [= <-].
  apply (scan_shape
           (λ y x, (x - width / 2) ^ 2 + (y - height / 2) ^ 2
                   <=? (Z.min width height / 3) ^ 2)
           (λ _ _, np.uint8 fg_val)).
  - intros. apply uint8_byte.
  - eapply bytes_full; [apply uint8_byte | exact Ef].
Qed.

Lemma seg_checkerboard_bytes width height block_size dark bright :
  Forall byte
    (array_values (Seg.generate_checkerboard_image width height block_size dark bright)).
Proof.
  apply array_values_bytes. intros img. unfold Seg.generate_checkerboard_image.
  destruct (np.full height width 0) as [e|img0] eqn:Ef; [done|].
  cbn. apply fold_result_inv; [|by apply (bytes_full height width 0)].
  intros img1 y img2 Hb. apply fold_result_inv; [|done].
  intros img3 x img4 Hb3.
  destruct (block_size =? 0); [done|].
  destruct (_ =? 0); intros [= <-]; apply bytes_assign; (done || intros; apply uint8_byte).
Qed.

Section ByteRange.
Context {F : Type} {ops : PyFloat F}.

Lemma seg_gradient_bytes width height :
  Forall byte (array_values (Seg.generate_gradient_image width height)).
Proof.
  apply array_values_bytes. intros img. unfold Seg.generate_gradient_image.
  destruct (np.full height width 0) as [e|img0] eqn:Ef; [done|].
  cbn. apply fold_result_inv; [|by apply (bytes_full height width 0)].
  intros img1 x img2 Hb. unfold mbind, result_bind.
  destruct (Seg.ramp x (width - 1)) as [e|v]; [done|].
  intros [= <-]. apply bytes_assign; (done || intros; apply uint8_byte).
Qed.

Lemma seg_large_test_bytes (rng : np.random F) width height :
  Forall byte (array_values (Seg.generate_large_test_image rng width height)).
Proof.
  apply array_values_bytes. intros img. unfold Seg.generate_large_test_image.
  destruct (np.full height width 0) as [e|img0] eqn:Ef; [done|].
  cbn.
  destruct (fold_result _ img0 (range (width / 2))) as [e|img1] eqn:Efold; [done|].
  intros [= <-].
  assert (Hb1 : bytes_array img1).
  { revert Efold. apply fold_result_inv; [|by apply (bytes_full height width 0)].
    intros img2 x img3 Hb. unfold mbind, result_bind.
    destruct (Seg.ramp x (width / 2 - 1)) as [e|v]; [done|].
    intros [= <-]. apply bytes_assign; (done || intros; apply uint8_byte). }
  apply bytes_assign.
  { intros y x. unfold byte.
    pose proof (Z.mod_pos_bound
                  (np.random_bits rng 123
                     (Z.to_nat ((y - height / 2) * (width - width / 2) + (x - width / 2))))
                  (256 - 0)). lia. }
  do 2 (apply bytes_assign; [intros; apply uint8_byte|]).
  done.
Qed.

Context {laws : @PyFloatLaws F ops}.

Lemma edge_gradient_value_byte x w : 0 <= x < w → byte (edge_gradient_value x w).
Proof.
  intros Hx. pose proof (edge_core_range x w Hx) as Hc.
  unfold edge_gradient_value, edge_core, byte. destruct (_ <? 5); lia.
Qed.

Lemma edge_gradient_emits h wd fn w :
  emits byte fn w (Edge.create_gradient_image h wd fn w).2.
Proof.
  rewrite edge_gradient_file. cbn [snd files]. right. eexists h, wd, _.
  split; [done|]. apply Forall_fmap, Forall_true. intros y. cbn.
  apply Forall_fmap, Forall_forall. intros x Hx. apply elem_of_range in Hx. cbn.
  by apply edge_gradient_value_byte.
Qed.

Lemma clip_byte (v : F) : byte (trunc (fclip v (of_int 0) (of_int 255))).
Proof.
  rewrite trunc_val.
  assert (H0 : (val (of_int 0) == 0)%Q) by (rewrite val_of_int; apply rnd_0).
  assert (H255 : (val (of_int 255) == 255)%Q)
    by (rewrite val_of_int; apply (rnd_Z 255); cbn; lia).
  apply Qtrunc_range; [lia | |]; rewrite val_fclip, H0, H255.
  - change (inject_Z 0) with 0%Q. apply Q.min_glb; [|done].
    apply Q.le_max_r.
  - change (inject_Z 255) with 255%Q. apply Q.le_min_r.
Qed.

Lemma clip_to_uint8_bytes (img : ndarray F) : bytes_array (Seg.clip_to_uint8 img).
Proof.
  unfold bytes_array, Seg.clip_to_uint8, np.map2d. cbn [nd_rows].
  apply Forall_fmap, Forall_true. intros row. cbn.
  apply Forall_fmap, Forall_true. intros v. apply clip_byte.
Qed.

Lemma seg_noisy_bimodal_bytes (rng : np.random F) width height bg_mean fg_mean noise_std :
  Forall byte
    (array_values
       (Seg.generate_noisy_bimodal_image rng width height bg_mean fg_mean noise_std)).
Proof.
  apply array_values_bytes. intros img. unfold Seg.generate_noisy_bimodal_image.
  destruct (np.full height width (float32 (of_int 0))) as [e|img0]; [done|].
  cbn. destruct (noise_std <? 0); [done|]. cbn.
  intros [= <-]. apply clip_to_uint8_bytes.
Qed.

Lemma seg_very_large_bytes (rng : np.random F) width height w :
  Forall byte (array_values (Seg.generate_very_large_image rng width height w).1).
Proof.
  apply array_values_bytes. intros img. unfold Seg.generate_very_large_image.
  unfold mbind, M_bind, print, lift, mret, M_ret.
  destruct (np.full height width (float32 (of_int 0))) as [e|img0]; [done|].
  cbn. intros [= <-]. apply clip_to_uint8_bytes.
Qed.

End ByteRange.

(** C8: every pixel value that a generator emits is an integer in
    0..255, whatever the requested dimensions and whatever the random
    draws: the values written by the gradient, shapes, checkerboard and
    noisy-edges generators of the edge-detection tests and by the large
    bimodal generator, and the entries of the arrays returned by the
    bimodal, circle, gradient, checkerboard, noisy bimodal, three-level,
    large mixed and very large generators of the segmentation tests. *)
Theorem C8_byte_range {F : Type} (ops : PyFloat F) (laws : @PyFloatLaws F ops) :
  (∀ h wd fn w, emits byte fn w (Edge.create_gradient_image h wd fn w).2)
  ∧ (∀ h wd fn w, emits byte fn w (Edge.create_shapes_image h wd fn w).2)
  ∧ (∀ h wd fn block_size w,
       emits byte fn w (Edge.create_checkerboard_image h wd fn block_size w).2)
  ∧ (∀ h wd fn w, emits byte fn w (Edge.create_noisy_edges_image h wd fn w).2)
  ∧ (∀ h wd fn w, emits byte fn w (Large.create_bimodal_image h wd fn w).2)
  ∧ (∀ width height bg_val fg_val,
       Forall byte (array_values (Seg.generate_bimodal_image width height bg_val fg_val)))
  ∧ (∀ width height bg_val fg_val,
       Forall byte (array_values (Seg.generate_circle_image width height bg_val fg_val)))
  ∧ (∀ width height,
       Forall byte (array_values (Seg.generate_gradient_image width height)))
  ∧ (∀ width height block_size dark bright,
       Forall byte
         (array_values
            (Seg.generate_checkerboard_image width height block_size dark bright)))
  ∧ (∀ rng width height bg_mean fg_mean noise_std,
       Forall byte
         (array_values
            (Seg.generate_noisy_bimodal_image rng width height bg_mean fg_mean noise_std)))
  ∧ (∀ width height,
       Forall byte (array_values (Seg.generate_three_level_image width height)))
  ∧ (∀ rng width height,
       Forall byte (array_values (Seg.generate_large_test_image rng width height)))
  ∧ (∀ rng width height w,
       Forall byte (array_values (Seg.generate_very_large_image rng width height w).1)).
Proof.
  split_and!.
  - apply edge_gradient_emits.
  - apply edge_shapes_emits.
  - apply edge_checkerboard_emits.
  - apply edge_noisy_emits.
  - apply large_bimodal_emits.
  - apply seg_bimodal_bytes.
  - apply seg_circle_bytes.
  - apply seg_gradient_bytes.
  - apply seg_checkerboard_bytes.
  - apply seg_noisy_bimodal_bytes.
  - apply seg_three_level_bytes.
  - apply seg_large_test_bytes.
  - apply seg_very_large_bytes.
Qed.

Lemma C8_byte_range_witness :
  emits byte "gradient.txt" (sample_world ∅)
    (Edge.create_gradient_image (H:=exact_arith) 2 7 "gradient.txt" (sample_world ∅)).2
  ∧ Forall byte
      (array_values
         (Seg.generate_noisy_bimodal_image (H:=exact_arith) sample_np_random 6 3 60 200 20)).
Proof.
  pose proof (C8_byte_range exact_arith exact_laws) as HC8.
  split.
  - apply (proj1 HC8).
  - apply (proj1 (proj2 (proj2 (proj2 (proj2 (proj2 (proj2 (proj2 (proj2 (proj2 HC8)))))))))).
Defined.

(** What some of the generators produce, in exact arithmetic and in IEEE
    doubles. *)
Example generated_values :
  array_values
    (Seg.generate_noisy_bimodal_image (H:=binary64) sample_np_random64 6 3 60 200 20)
  = [30; 40; 50; 255; 255; 255; 60; 70; 80; 255; 255; 255; 90; 100; 110; 255; 255; 255]
  ∧ array_values
      (Seg.generate_noisy_bimodal_image (H:=exact_arith) sample_np_random 6 3 60 200 20)
    = [30; 40; 50; 255; 255; 255; 60; 70; 80; 255; 255; 255; 90; 100; 110; 255; 255; 255]
  ∧ array_values (Seg.generate_three_level_image 7 1) = [30; 30; 128; 128; 230; 230; 230]
  ∧ array_values (Seg.generate_bimodal_image 5 1 50 200) = [50; 50; 200; 200; 200]
  ∧ array_values (Seg.generate_large_test_image (H:=binary64) sample_np_random64 8 2)
    = [0; 85; 170; 255; 200; 200; 200; 200; 50; 50; 50; 50; 0; 77; 154; 231]
  ∧ files (Edge.create_noisy_edges_image 2 3 "noisy.txt" (sample_world ∅)).2 !! "noisy.txt"
    = Some (TextFile (plaintext 2 3 1 [[68; 74; 80]; [86; 92; 57]])).
Proof. split_and!; vm_compute; reflexivity. Qed.

(** * Further properties of the scripts *)

(** ** Errors of the converters *)

Lemma try_except_print (body : M unit) (msg : exn → message) w :
  ∃ w', try_except body (λ e, print (msg e)) w = (inr tt, w').
Proof.
  unfold try_except, print.
  destruct (body w) as [[e|[]] w']; by eexists.
Qed.

Lemma convert_to_txt_returns img_path txt_path w :
  ∃ w', convert_to_txt img_path txt_path w = (inr tt, w').
Proof. apply try_except_print. Qed.

Lemma convert_to_img_returns txt_path img_path w :
  ∃ w', convert_to_img txt_path img_path w = (inr tt, w').
Proof. apply try_except_print. Qed.

(** X1: no exception leaves [convert_to_txt] or [convert_to_img]: each one
    returns normally in every world.  So the exit status of the script
    only tells whether enough arguments were given: it is 1 with fewer
    than three arguments after the script name and 0 otherwise, also
    when the conversion asked for has failed. *)
Theorem X1_errors_never_escape :
  (∀ img_path txt_path w, ∃ w', convert_to_txt img_path txt_path w = (inr tt, w'))
  ∧ (∀ txt_path img_path w, ∃ w', convert_to_img txt_path img_path w = (inr tt, w'))
  ∧ (∀ argv w, ∃ status w',
       main argv w = (inr status, w')
       ∧ (status = 1 ↔ (length argv < 4)%nat)
       ∧ (status = 0 ↔ (4 <= length argv)%nat)).
Proof.
  split_and!.
  - apply convert_to_txt_returns.
  - apply convert_to_img_returns.
  - intros argv w. unfold main.
    destruct (bool_decide (length argv < 4)%nat) eqn:Hlen.
    + apply bool_decide_eq_true in Hlen.
      exists 1. eexists. split; [reflexivity|]. split; split; (done || lia).
    + apply bool_decide_eq_false in Hlen.
      exists 0.
      assert (Hst : (0 = 1 ↔ (length argv < 4)%nat) ∧ (0 = 0 ↔ (4 <= length argv)%nat))
        by (split; split; (done || lia)).
      cbv zeta. destruct (String.eqb _ "to_txt"); [|destruct (String.eqb _ "to_img")].
      * destruct (convert_to_txt_returns (default EmptyString (argv !! 2%nat))
                    (default EmptyString (argv !! 3%nat)) w) as [w' Hw'].
        unfold mbind, M_bind. rewrite Hw'. by eexists.
      * destruct (convert_to_img_returns (default EmptyString (argv !! 2%nat))
                    (default EmptyString (argv !! 3%nat)) w) as [w' Hw'].
        unfold mbind, M_bind. rewrite Hw'. by eexists.
      * by eexists.
Qed.

(** X2: when the input file does not exist, [convert_to_txt] and
    [convert_to_img] print their error line and return, while
    [save_image_matrix] lets the exception through; none of the three
    creates or truncates the output file. *)
Theorem X2_missing_input :
  (∀ img_path txt_path w,
     files w !! img_path = None →
     convert_to_txt img_path txt_path w
     = (inr tt,
        World (files w)
          (stdout w ++ [Msg_error_converting_to_text (FileNotFoundError img_path)])
          (rand w)))
  ∧ (∀ txt_path img_path w,
       files w !! txt_path = None →
       convert_to_img txt_path img_path w
       = (inr tt,
          World (files w)
            (stdout w ++ [Msg_converting_to_img txt_path img_path;
                          Msg_error_converting_to_image (FileNotFoundError txt_path)])
            (rand w)))
  ∧ (∀ input_path output_txt_path grayscale w,
       files w !! input_path = None →
       save_image_matrix input_path output_txt_path grayscale w
       = (inl (FileNotFoundError input_path), w)).
Proof.
  split_and!.
  - intros a b w Hf. unfold convert_to_txt, try_except, PIL.open. run. by rewrite Hf.
  - intros a b w Hf. unfold convert_to_img, try_except, open_r. run.
    cbn [files]. rewrite Hf. cbn [files stdout rand]. by rewrite <- app_assoc.
  - intros a b g w Hf. unfold save_image_matrix, PIL.open. run. by rewrite Hf.
Qed.

Lemma X2_missing_input_witness :
  convert_to_txt "in.png" "out.txt" (sample_world ∅)
  = (inr tt,
     World ∅ [Msg_error_converting_to_text (FileNotFoundError "in.png")]
       (rand (sample_world ∅)))
  ∧ convert_to_img "in.txt" "out.png" (sample_world ∅)
    = (inr tt,
       World ∅ [Msg_converting_to_img "in.txt" "out.png";
                Msg_error_converting_to_image (FileNotFoundError "in.txt")]
         (rand (sample_world ∅)))
  ∧ save_image_matrix "fruits.jpeg" "image_matrix.txt" true (sample_world ∅)
    = (inl (FileNotFoundError "fruits.jpeg"), sample_world ∅).
Proof.
  split_and!.
  - apply (proj1 X2_missing_input). reflexivity.
  - apply (proj1 (proj2 X2_missing_input)). reflexivity.
  - apply (proj2 (proj2 X2_missing_input)). reflexivity.
Defined.

(** X3: once the header has been accepted, one pixel token that [int] does
    not accept stops the conversion: the error line follows the opening
    line at once, no warning is printed and no image is stored. *)
Theorem X3_bad_pixel_token (w : world) (txt_path img_path : string)
    (content first rest : text) (h wd c : Z) (e : exn) :
  files w !! txt_path = Some (TextFile content) →
  readline (universal_newlines content) = (first, rest) →
  read_header first = Header_ok h wd c →
  collect int (split rest) = inl e →
  convert_to_img txt_path img_path w
  = (inr tt,
     World (files w)
       (stdout w ++ [Msg_converting_to_img txt_path img_path;
                     Msg_error_converting_to_image e])
       (rand w)).
Proof.
  intros Hf Hrl Hh Hp. rewrite <- read_pixels_tokens in Hp.
  unfold convert_to_img, try_except, open_r. run.
  cbn [files]. rewrite Hf, Hrl, Hh. run. rewrite Hp.
  cbn [files stdout rand]. by rewrite <- app_assoc.
Qed.

Lemma X3_bad_pixel_token_witness :
  let content := txt "1 2 1" ++ LF :: txt "7 x" ++ [LF] in
  let w := sample_world {["in.txt" := TextFile content]} in
  convert_to_img "in.txt" "out.png" w
  = (inr tt,
     World (files w)
       (stdout w ++ [Msg_converting_to_img "in.txt" "out.png";
                     Msg_error_converting_to_image (ValueError_literal (txt "x"))])
       (rand w)).
Proof.
  cbv zeta.
  apply (X3_bad_pixel_token _ "in.txt" "out.png"
           (txt "1 2 1" ++ LF :: txt "7 x" ++ [LF])
           (txt "1 2 1" ++ [LF]) (txt "7 x" ++ [LF]) 1 2 1);
    reflexivity.
Defined.

(** X4: with an accepted header and pixel tokens that are all integers, no
    image is stored when a dimension is negative or when there are more
    values than width * height: the error line is the last one printed
    and the file store is left as it was.  In the second case the
    warning about the count comes first. *)
Theorem X4_image_not_built (w : world) (txt_path img_path : string)
    (content first rest : text) (h wd c : Z) (pixels : list Z) :
  files w !! txt_path = Some (TextFile content) →
  readline (universal_newlines content) = (first, rest) →
  read_header first = Header_ok h wd c →
  collect int (split rest) = inr pixels →
  (wd < 0 ∨ h < 0 →
   convert_to_img txt_path img_path w
   = (inr tt,
      World (files w)
        (stdout w ++ Msg_converting_to_img txt_path img_path
           :: warning_if_mismatch wd h pixels
           ++ [Msg_error_converting_to_image ValueError_size])
        (rand w)))
  ∧ (0 <= wd → 0 <= h → wd * h < Z.of_nat (length pixels) →
     convert_to_img txt_path img_path w
     = (inr tt,
        World (files w)
          (stdout w ++ [Msg_converting_to_img txt_path img_path;
                        Msg_warning_expected_got (wd * h) (Z.of_nat (length pixels));
                        Msg_error_converting_to_image TypeError_too_many_data])
          (rand w))).
Proof.
  intros Hf Hrl Hh Hp. rewrite <- read_pixels_tokens in Hp.
  rewrite (convert_to_img_built w txt_path img_path content first rest h wd c pixels)
    by done.
  split.
  - intros Hneg. unfold built, PIL.new.
    assert (Hb : (wd <? 0) || (h <? 0) = true).
    { destruct Hneg; [apply orb_true_intro; left | apply orb_true_intro; right];
        by apply Z.ltb_lt. }
    rewrite Hb. done.
  - intros Hwd Hh0 Hlen. unfold built, PIL.new.
    assert (Hb : (wd <? 0) || (h <? 0) = false).
    { apply orb_false_intro; apply Z.ltb_ge; lia. }
    rewrite Hb. unfold mbind, result_bind, PIL.putdata. cbn [im_width im_height].
    rewrite (proj2 (Z.ltb_lt _ _) Hlen).
    unfold warning_if_mismatch. rewrite bool_decide_eq_true_2 by lia. done.
Qed.

Lemma X4_image_not_built_witness :
  (let content := txt "1 2 1" ++ LF :: txt "7 8 9" ++ [LF] in
   let w := sample_world {["in.txt" := TextFile content]} in
   convert_to_img "in.txt" "out.png" w
   = (inr tt,
      World (files w)
        (stdout w ++ [Msg_converting_to_img "in.txt" "out.png";
                      Msg_warning_expected_got (2 * 1) (Z.of_nat (length [7; 8; 9]));
                      Msg_error_converting_to_image TypeError_too_many_data])
        (rand w)))
  ∧ (let content := txt "-2 2 1" ++ LF :: txt "7 8" ++ [LF] in
     let w := sample_world {["in.txt" := TextFile content]} in
     convert_to_img "in.txt" "out.png" w
     = (inr tt,
        World (files w)
          (stdout w ++ Msg_converting_to_img "in.txt" "out.png"
             :: warning_if_mismatch 2 (-2) [7; 8]
             ++ [Msg_error_converting_to_image ValueError_size])
          (rand w))).
Proof.
  cbv zeta. split.
  - refine (proj2 (X4_image_not_built _ "in.txt" "out.png"
             (txt "1 2 1" ++ LF :: txt "7 8 9" ++ [LF])
             (txt "1 2 1" ++ [LF]) (txt "7 8 9" ++ [LF]) 1 2 1 [7; 8; 9] _ _ _ _) _ _ _);
      (reflexivity || (vm_compute; discriminate) || (vm_compute; reflexivity)).
  - refine (proj1 (X4_image_not_built _ "in.txt" "out.png"
             (txt "-2 2 1" ++ LF :: txt "7 8" ++ [LF])
             (txt "-2 2 1" ++ [LF]) (txt "7 8" ++ [LF]) (-2) 2 1 [7; 8] _ _ _ _) _);
      first [reflexivity | right; lia].
Defined.

(** ** Conversions composed *)

Lemma chunks_of_rows {A} (rows : list (list A)) (n : nat) :
  Forall (λ row, length row = n) rows →
  (λ y, take n (drop (y * n) (concat rows))) <$> seq 0 (length rows) = rows.
Proof.
  induction 1 as [|row rows Hrow _ IH]; [done|].
  cbn [length seq fmap list_fmap concat]. f_equal.
  - change (0 * n)%nat with 0%nat. by rewrite drop_0, take_app_length'.
  - rewrite <- fmap_S_seq, <- list_fmap_compose. rewrite <- IH at 2.
    apply list_fmap_ext. intros i y _. unfold compose. f_equal.
    replace (S y * n)%nat with (length row + y * n)%nat by lia.
    by rewrite drop_app_add.
Qed.

Lemma array_rows_of_rows (rows : list (list Z)) h wd :
  grid h wd rows → 0 <= wd → array_rows (Image wd h (concat rows)) = rows.
Proof.
  intros [Hlen Hrows] Hwd. unfold array_rows. cbn [im_data im_width im_height].
  unfold range. rewrite seqZ_as_seq, <- list_fmap_compose.
  replace (Z.to_nat h) with (length rows) by lia.
  rewrite <- (chunks_of_rows rows (Z.to_nat wd)) at 2.
  2:{ eapply Forall_impl; [exact Hrows|]. intros row Hr. cbn in Hr. lia. }
  apply list_fmap_ext. intros i y _. unfold compose. by rewrite slice_row.
Qed.

Lemma length_concat_grid (rows : list (list Z)) h wd :
  grid h wd rows → Z.of_nat (length (concat rows)) = wd * h.
Proof.
  intros [<- Hrows]. induction Hrows as [|row rows Hr _ IH]; cbn; [lia|].
  rewrite length_app. lia.
Qed.

(** X5: from text to image and back.  A text in the plaintext format with
    positive height and width, holding [height] rows of [width]
    integers of either sign (within the range of a C long, which the
    imaging library converts without fail), is turned by
    [convert_to_img], writing a PNG file, followed by [convert_to_txt]
    into the text of the same rows with every value clamped to 0..255
    and the channel field set to 1; a text of byte values comes back
    with the same rows. *)
Theorem X5_text_image_text (w : world) (txt_path img_path out_path : string)
    (h wd c : Z) (rows : list (list Z)) :
  files w !! txt_path = Some (TextFile (plaintext h wd c rows)) →
  0 < h → 0 < wd → grid h wd rows → Forall (Forall c_long) rows →
  PIL.png img_path = true →
  let w1 := (convert_to_img txt_path img_path w).2 in
  let w2 := (convert_to_txt img_path out_path w1).2 in
  files w2 !! out_path
  = Some (TextFile (plaintext h wd 1 (fmap (M:=list) PIL.clip8 <$> rows)))
  ∧ (Forall (Forall byte) rows →
     files w2 !! out_path = Some (TextFile (plaintext h wd 1 rows))).
Proof.
  intros Hf Hh Hwd Hgrid Hlong Hpng. cbv zeta.
  pose proof (length_concat_grid rows h wd Hgrid) as Hlen.
  assert (Hclip : fmap (M:=list) PIL.clip8 (concat rows)
                  = concat (fmap (M:=list) PIL.clip8 <$> rows)).
  { clear. induction rows as [|row rows IH]; [done|].
    cbn. by rewrite fmap_app, IH. }
  assert (Hgrid' : grid h wd (fmap (M:=list) PIL.clip8 <$> rows)).
  { destruct Hgrid as [Hl Hr]. split; [by rewrite length_fmap|].
    apply Forall_fmap. eapply Forall_impl; [exact Hr|].
    intros row Hrow. cbn. by rewrite length_fmap. }
  assert (Hmain : files (convert_to_txt img_path out_path
                           (convert_to_img txt_path img_path w).2).2 !! out_path
                  = Some (TextFile (plaintext h wd 1 (fmap (M:=list) PIL.clip8 <$> rows)))).
  { rewrite (convert_to_img_built w txt_path img_path _
               (header_line h wd c) (concat (row_line <$> rows)) h wd c (concat rows)
               Hf (readline_plaintext h wd c rows) (read_header_line h wd c)
               (read_pixels_rows rows)).
    rewrite built_clipped by (done || lia || by apply Forall_concat).
    replace (Z.to_nat (wd * h) - length (concat rows))%nat with 0%nat by lia.
    rewrite app_nil_r. cbn [snd].
    erewrite convert_to_txt_rows.
    2:{ cbn [files]. apply lookup_insert_eq. }
    2-3: (cbn; lia).
    2:{ cbn [im_data im_width im_height]. rewrite length_fmap. lia. }
    cbn [snd files im_width im_height]. rewrite lookup_insert_eq.
    rewrite Hclip, array_rows_of_rows by (done || lia). done. }
  split; [exact Hmain|].
  intros Hbytes. rewrite Hmain. do 3 f_equal.
  clear -Hbytes. induction Hbytes as [|row rows Hrow _ IH]; [done|].
  cbn [fmap list_fmap]. f_equal; [|exact IH].
  apply clip8_bytes. exact Hrow.
Qed.

Lemma X5_text_image_text_witness :
  let rows := [[-5; 300]; [7; 255]] in
  let w := sample_world {["in.txt" := TextFile (plaintext 2 2 3 rows)]} in
  let w1 := (convert_to_img "in.txt" "mid.png" w).2 in
  let w2 := (convert_to_txt "mid.png" "out.txt" w1).2 in
  files w2 !! "out.txt" = Some (TextFile (plaintext 2 2 1 [[0; 255]; [7; 255]])).
Proof.
  cbv zeta.
  refine (proj1 (X5_text_image_text _ "in.txt" "mid.png" "out.txt" 2 2 3
                   [[-5; 300]; [7; 255]] _ _ _ _ _ _)).
  - reflexivity.
  - lia.
  - lia.
  - split; [reflexivity|]. repeat constructor.
  - repeat constructor; unfold c_long; lia.
  - reflexivity.
Defined.

Lemma universal_newlines_crlf s :
  Forall (λ c, c ≠ CR) s →
  universal_newlines s = s ∧ universal_newlines (crlf s) = s.
Proof.
  induction 1 as [|c s Hc _ [IH1 IH2]]; [done|].
  assert (Ec : Ascii.eqb c CR = false) by (by apply Ascii.eqb_neq).
  split.
  - cbn. by rewrite Ec, IH1.
  - cbn [crlf]. destruct (Ascii.eqb c LF) eqn:El.
    + apply Ascii.eqb_eq in El as ->. cbn. by rewrite IH2.
    + cbn. by rewrite Ec, IH2.
Qed.

(** What [convert_to_img] does depends on the text file only through
    its content after newline translation. *)
Lemma convert_to_img_same_text txt_path img_path w w' content content' :
  files w !! txt_path = Some (TextFile content) →
  files w' !! txt_path = Some (TextFile content') →
  universal_newlines content = universal_newlines content' →
  stdout w = stdout w' →
  stdout (convert_to_img txt_path img_path w).2
  = stdout (convert_to_img txt_path img_path w').2
  ∧ ((files (convert_to_img txt_path img_path w).2 = files w
      ∧ files (convert_to_img txt_path img_path w').2 = files w')
     ∨ ∃ im, files (convert_to_img txt_path img_path w).2
             = <[img_path := ImageFile im]> (files w)
             ∧ files (convert_to_img txt_path img_path w').2
               = <[img_path := ImageFile im]> (files w')).
Proof.
  intros Hf Hf' Hu Ho. unfold convert_to_img, try_except, open_r. run.
  cbn [files]. rewrite Hf, Hf', <- Hu, <- Ho.
  destruct (readline (universal_newlines content)) as [first rest].
  destruct (read_header first) as [|hd|e|h wd c]; run; cbn [snd files stdout];
    try (split; [done | by left]).
  destruct (read_pixels rest) as [e|pixels]; cbn [snd files stdout];
    [split; [done | by left]|].
  destruct (bool_decide _); cbn [files stdout rand];
    (destruct (PIL.new (wd, h)) as [e|img]; cbn [snd files stdout rand];
     [split; [done | by left]|];
     destruct (PIL.putdata img pixels) as [e|img']; unfold PIL.save;
     cbn [snd files stdout rand]; [split; [done | by left]|];
     destruct (PIL.save_check img' img_path) as [e|[]];
     cbn [snd files stdout rand]; [split; [done | by left]|];
     split; [done | right; by exists img']).
Qed.

(** X6: Windows line endings make no difference to [convert_to_img]: a text
    whose lines end in carriage return, line feed is converted exactly
    as the same text with plain line feeds, with the same messages and
    the same image stored, or none. *)
Theorem X6_crlf_line_endings (fs : gmap string file) (out : list message)
    (r : random_state) (txt_path img_path : string) (content : text) :
  Forall (λ c, c ≠ CR) content → img_path ≠ txt_path →
  let unix := convert_to_img txt_path img_path
                (World (<[txt_path := TextFile content]> fs) out r) in
  let dos := convert_to_img txt_path img_path
               (World (<[txt_path := TextFile (crlf content)]> fs) out r) in
  stdout dos.2 = stdout unix.2
  ∧ files dos.2 !! img_path = files unix.2 !! img_path.
Proof.
  intros Hcr Hne. cbv zeta.
  destruct (universal_newlines_crlf content Hcr) as [Hu1 Hu2].
  destruct (convert_to_img_same_text txt_path img_path
              (World (<[txt_path := TextFile (crlf content)]> fs) out r)
              (World (<[txt_path := TextFile content]> fs) out r)
              (crlf content) content)
    as [Ho [[Hd Hx]|(im & Hd & Hx)]];
    try (cbn [files]; apply lookup_insert_eq); try done; try congruence.
  - split; [done|]. rewrite Hd, Hx. cbn [files]. by rewrite !lookup_insert_ne.
  - split; [done|]. rewrite Hd, Hx. by rewrite !lookup_insert_eq.
Qed.

Lemma X6_crlf_line_endings_witness :
  let content := txt "1 2 1" ++ LF :: txt "7 8" ++ [LF] in
  let unix := convert_to_img "in.txt" "out.png"
                (World (<[("in.txt" : string) := TextFile content]> ∅) []
                   (rand (sample_world ∅))) in
  let dos := convert_to_img "in.txt" "out.png"
               (World (<[("in.txt" : string) := TextFile (crlf content)]> ∅) []
                  (rand (sample_world ∅))) in
  stdout dos.2 = stdout unix.2
  ∧ files dos.2 !! "out.png" = files unix.2 !! "out.png".
Proof.
  cbv zeta. apply X6_crlf_line_endings.
  - repeat constructor; vm_compute; intros H; discriminate H.
  - vm_compute. intros H. discriminate H.
Defined.

Lemma split_from_nil cur s :
  split_from cur s = [] → cur = [] ∧ Forall (λ c, isspace c = true) s.
Proof.
  revert cur. induction s as [|c s IH]; intros cur; cbn.
  - destruct cur; [done|discriminate].
  - destruct (isspace c) eqn:Ec.
    + destruct cur; [|discriminate]. intros Hs. apply IH in Hs as [_ Hs].
      split; [done|]. by constructor.
    + intros Hs. apply IH in Hs as [Hs _]. discriminate Hs.
Qed.

Lemma split_nil_strip s : split s = [] → strip s = [].
Proof.
  intros Hs. apply split_from_nil in Hs as [_ Hs].
  unfold strip. rewrite <- (app_nil_r s), lstrip_skip by done. done.
Qed.

(** X7: [convert_to_img] and [load_segmented_image] treat every first line
    alike: the one accepts it exactly when the other does, with the
    same height, width and channel count, and a line that int() refuses
    gives both the same [ValueError]; they differ only in reporting,
    the converter printing a message for a blank line or a wrong number
    of fields where the loader raises. *)
Theorem X7_header_readers_agree (first_line : text) :
  load_segmented_image_header first_line = outcome_as_result (read_header first_line)
  ∧ ∀ height width channels,
      read_header first_line = Header_ok height width channels
      ↔ load_segmented_image_header first_line = inr (height, width, channels).
Proof.
  assert (Heq : load_segmented_image_header first_line
                = outcome_as_result (read_header first_line)).
  { unfold load_segmented_image_header, read_header.
    pose proof (split_strip first_line) as Hs.
    pose proof (split_nil_strip first_line) as Hnil.
    destruct (strip first_line) as [|c0 s0] eqn:Es.
    - done.
    - rewrite Hs in *.
      destruct (split first_line) as [|a [|b [|c [|d l]]]]; cbn [outcome_as_result];
        [by specialize (Hnil eq_refl) | done | done | | done].
      unfold mbind, result_bind, mret, result_ret.
      by destruct (int a), (int b), (int c). }
  split; [exact Heq|].
  intros height width channels. rewrite Heq.
  destruct (read_header first_line); cbn [outcome_as_result]; split; congruence.
Qed.

(** ** How the random draws become pixels *)

Lemma draws_ret {A} (a : A) : draws 0 (λ _ _, a) (mret a).
Proof. intros [fs out [r c]]. unfold mret, M_ret. cbn. by rewrite Nat.add_0_r. Qed.

Lemma draws_randint a b :
  a <= b → draws 1 (λ raw c, drawn a b (raw c)) (randint a b).
Proof.
  intros Hab [fs out [r c]]. unfold randint, drawn. cbn.
  rewrite (proj2 (Z.ltb_ge b a) Hab). by rewrite Nat.add_1_r.
Qed.

Lemma draws_random_random :
  draws 1 (λ raw c, Qmake (raw c mod 2 ^ 53) (2 ^ 53)) random_random.
Proof. intros [fs out [r c]]. unfold random_random. cbn. by rewrite Nat.add_1_r. Qed.

Lemma draws_bind {A B} n n' f g (m : M A) (k : A → M B) :
  draws n f m → (∀ a, draws n' (g a) (k a)) →
  draws (n + n') (λ raw c, g (f raw c) raw (c + n)%nat) (m ≫= k).
Proof.
  intros Hm Hk w. unfold mbind, M_bind. rewrite Hm, Hk. cbn.
  by rewrite Nat.add_assoc.
Qed.

Lemma draws_ext {A} n n' (f f' : (nat → Z) → nat → A) m :
  n = n' → (∀ raw c, f raw c = f' raw c) → draws n f m → draws n' f' m.
Proof. intros <- Hf Hm w. by rewrite Hm, Hf. Qed.

(** A comprehension whose body consumes [n] draws per element. *)
Lemma draws_for_collect {A B} n (f : A → (nat → Z) → nat → B) (l : list A) body :
  (∀ x, draws n (f x) (body x)) →
  draws (length l * n) (λ raw c, imap (λ i x, f x raw (c + i * n)%nat) l)
    (for_collect l body).
Proof.
  intros Hb. induction l as [|x l IH]; cbn [for_collect length imap].
  - apply draws_ret.
  - eapply draws_ext; [| |apply (draws_bind n (length l * n + 0) (f x)
                               (λ y raw c, y :: imap (λ i x, f x raw (c + i * n)%nat) l))].
    + lia.
    + intros raw c. cbn beta. f_equal; [f_equal; lia|].
      apply imap_ext. intros i y _. cbn. f_equal. lia.
    + apply Hb.
    + intros y.
      apply (draws_bind (length l * n) 0
               (λ raw c, imap (λ i x, f x raw (c + i * n)%nat) l)
               (λ ys _ _, y :: ys)); [apply IH|].
      intros ys. apply draws_ret.
Qed.

(** A loop that writes, for each element, the text made of a value that
    costs [n] draws. *)
Lemma write_draws {A B} fn (val_of : A → M B) (g : B → text) n f ys w old :
  (∀ y, draws n (f y) (val_of y)) →
  files w !! fn = Some (TextFile old) →
  for_each ys (λ y, v ← val_of y; f_write fn (g v)) w
  = (inr tt,
     World (<[fn := TextFile
                (old ++ concat (imap (λ i y, g (f y (raw (rand w))
                                                (cursor (rand w) + i * n)%nat)) ys))]>
              (files w))
       (stdout w)
       (RandomState (raw (rand w)) (cursor (rand w) + length ys * n))).
Proof.
  intros Hv. revert w old. induction ys as [|y ys IH]; intros w old Hf.
  - cbn. rewrite app_nil_r, Nat.add_0_r, insert_id by done.
    unfold mret, M_ret. by destruct w as [fs out [r c]].
  - cbn [for_each]. unfold mbind at 1, M_bind at 1.
    unfold mbind at 1, M_bind at 1. rewrite Hv.
    rewrite (f_write_open fn _ _ old) by done. cbn [files stdout rand].
    rewrite (IH _ (old ++ g (f y (raw (rand w)) (cursor (rand w)))))
      by (cbn; apply lookup_insert_eq).
    cbn [files stdout rand raw cursor length imap concat].
    rewrite insert_insert_eq, <- app_assoc.
    rewrite (imap_ext (λ i y0, g (f y0 (raw (rand w)) (cursor (rand w) + n + i * n)%nat))
               ((λ i y0, g (f y0 (raw (rand w)) (cursor (rand w) + i * n)%nat)) ∘ S) ys)
      by (intros i x _; unfold compose; do 2 f_equal; lia).
    rewrite Nat.mul_0_l, Nat.add_0_r.
    by replace (cursor (rand w) + n + length ys * n)%nat
      with (cursor (rand w) + S (length ys) * n)%nat by lia.
Qed.

(** The same loop after the file has been opened and the header
    written, followed by the rest [k] of the script. *)
Lemma open_write_draws {A B} fn header (val_of : A → M B) (g : B → text) n f ys
    (k : M unit) w :
  (∀ y, draws n (f y) (val_of y)) →
  (open_w fn ;; f_write fn header ;;
   for_each ys (λ y, v ← val_of y; f_write fn (g v)) ;; k) w
  = k (World (<[fn := TextFile
                  (header ++ concat (imap (λ i y, g (f y (raw (rand w))
                                                     (cursor (rand w) + i * n)%nat)) ys))]>
                (files w))
         (stdout w)
         (RandomState (raw (rand w)) (cursor (rand w) + length ys * n))).
Proof.
  intros Hv.
  unfold mbind at 1, M_bind at 1. unfold open_w at 1.
  unfold mbind at 1, M_bind at 1.
  rewrite (f_write_open _ _ _ []) by (cbn; apply lookup_insert_eq).
  cbn [files stdout rand app]. rewrite insert_insert_eq.
  unfold mbind at 1, M_bind at 1.
  rewrite (write_draws fn val_of g n f ys _ header Hv)
    by (cbn; apply lookup_insert_eq).
  cbn [files stdout rand raw cursor]. by rewrite insert_insert_eq.
Qed.

Lemma imap_seq_from {B} (k : nat → nat → B) a m :
  imap k (seq a m) = (λ x, k (x - a)%nat x) <$> seq a m.
Proof.
  revert a k. induction m as [|m IH]; intros a k; [done|].
  cbn [seq imap fmap list_fmap]. rewrite Nat.sub_diag. f_equal.
  rewrite IH. apply list_fmap_ext. intros i x Hx.
  apply lookup_seq in Hx as [-> _]. cbn. f_equal. lia.
Qed.

Lemma imap_range {B} (k : nat → Z → B) n :
  imap k (range n) = (λ y, k (Z.to_nat y) y) <$> range n.
Proof.
  unfold range. rewrite seqZ_as_seq, imap_fmap, imap_seq_from, <- list_fmap_compose.
  apply list_fmap_ext. intros i x _. cbn. f_equal; lia.
Qed.

Lemma draws_noisy_edges_val x y :
  draws 1 (λ raw c, noisy_base x y + drawn (-20) 20 (raw c)) (Edge.noisy_edges_val x y).
Proof.
  unfold Edge.noisy_edges_val. cbv zeta.
  eapply draws_ext;
    [| |apply (draws_bind 1 0 (λ raw c, drawn (-20) 20 (raw c))
                (λ noise _ _, Z.max 0 (Z.min 255 (noisy_base x y + noise))));
        [apply draws_randint; lia | intros noise; apply draws_ret]].
  - done.
  - intros raw c. cbn beta.
    assert (Hn : -20 <= drawn (-20) 20 (raw c) <= 20).
    { unfold drawn. pose proof (Z.mod_pos_bound (raw c) (20 - -20 + 1)). lia. }
    assert (Hb : 60 <= noisy_base x y <= 195).
    { unfold noisy_base. cbv zeta. destruct (_ =? 0), (_ <? 10); lia. }
    lia.
Qed.

Lemma noisy_base_cases x y : noisy_base x y ∈ [180; 60; 75; 195].
Proof.
  unfold noisy_base. cbv zeta.
  destruct (_ =? 0), (_ <? 10); cbn; set_solver.
Qed.

(** X9: the noisy-edges image, pixel by pixel: the value at column [x] of row
    [y] is the base level of its band and stripe (180, 60, 75 or 195)
    plus the noise drawn for it, a number between -20 and 20, so the
    clamp to 0..255 never changes a value and every value lies in
    40..215.  The pixels take their draws in row-major order, one each:
    pixel (y, x) uses draw number y * w + x, and h * w draws are
    consumed in all. *)
Theorem X9_noisy_edges_pixels (h wd : Z) (fn : string) (w : world) :
  Edge.create_noisy_edges_image h wd fn w
  = (inr tt,
     World
       (<[fn := TextFile
            (plaintext h wd 1
               ((λ y, (λ x, noisy_base x y
                            + drawn (-20) 20
                                (raw (rand w) (cursor (rand w) + Z.to_nat (y * wd + x))))
                        <$> range wd) <$> range h))]> (files w))
       (stdout w ++ [Msg_created fn wd h])
       (RandomState (raw (rand w)) (cursor (rand w) + Z.to_nat h * Z.to_nat wd)))
  ∧ (∀ x y r,
       noisy_base x y ∈ [180; 60; 75; 195]
       ∧ -20 <= drawn (-20) 20 r <= 20
       ∧ 40 <= noisy_base x y + drawn (-20) 20 r <= 215).
Proof.
  split.
  - unfold Edge.create_noisy_edges_image.
    unfold mbind at 1, M_bind at 1. rewrite makedirs_dirname_or_dot.
    rewrite (open_write_draws fn (header_line h wd 1)
               (λ y, for_collect (range wd) (λ x, Edge.noisy_edges_val x y)) row_line
               (length (range wd) * 1)
               (λ y raw c, imap (λ i x, noisy_base x y + drawn (-20) 20 (raw (c + i * 1)%nat))
                             (range wd))).
    2:{ intros y. apply (draws_for_collect 1
                           (λ x raw c, noisy_base x y + drawn (-20) 20 (raw c))).
        intros x. apply draws_noisy_edges_val. }
    unfold print, plaintext. cbn [files stdout rand].
    unfold range at 1 2 4. rewrite !length_seqZ. fold (range h). fold (range wd).
    replace (Z.to_nat h * (length (range wd) * 1))%nat with (Z.to_nat h * Z.to_nat wd)%nat
      by (unfold range; rewrite length_seqZ; lia).
    rewrite imap_range, <- list_fmap_compose.
    do 2 f_equal. f_equal. do 3 f_equal.
    apply list_fmap_ext. intros i y Hy.
    apply list_elem_of_lookup_2, elem_of_range in Hy.
    unfold compose. f_equal. rewrite imap_range. apply list_fmap_ext. intros j x Hx.
    apply list_elem_of_lookup_2, elem_of_range in Hx.
    cbn beta. do 3 f_equal. nia.
  - intros x y r.
    assert (Hn : -20 <= drawn (-20) 20 r <= 20).
    { unfold drawn. pose proof (Z.mod_pos_bound r (20 - -20 + 1)). lia. }
    pose proof (noisy_base_cases x y) as Hb.
    split_and!; try done; try lia;
      repeat (apply elem_of_cons in Hb as [->|Hb]; [lia|]);
      by apply elem_of_nil in Hb.
Qed.

Lemma draws_bimodal_val :
  draws 2 (λ raw c, bimodal_of (raw c) (raw (c + 1)%nat)) Large.bimodal_val.
Proof.
  unfold Large.bimodal_val.
  apply (draws_bind 1 1 (λ raw c, Qmake (raw c mod 2 ^ 53) (2 ^ 53))
           (λ u raw c, if Qlt_bool u (1 # 2) then drawn 20 80 (raw c)
                       else drawn 180 240 (raw c)));
    [apply draws_random_random|].
  intros u. destruct (Qlt_bool u (1 # 2)); apply draws_randint; lia.
Qed.

Lemma bimodal_of_value r1 r2 : bimodal_value (bimodal_of r1 r2).
Proof.
  unfold bimodal_of, bimodal_value, drawn.
  pose proof (Z.mod_pos_bound r2 (80 - 20 + 1)).
  pose proof (Z.mod_pos_bound r2 (240 - 180 + 1)).
  destruct (Qlt_bool _ _); lia.
Qed.

(** X10: the large bimodal image, value by value: value number [i] is made
    of draws number 2i and 2i + 1, the first choosing between the dark
    and the bright mode and the second the level within it, so every
    value lies in 20..80 or in 180..240 and nothing in between is ever
    written; 2 * h * w draws are consumed in all. *)
Theorem X10_large_bimodal_values (h wd : Z) (fn : string) (w : world) :
  dirname fn ≠ [] →
  Large.create_bimodal_image h wd fn w
  = (inr tt,
     World
       (<[fn := TextFile
            (plaintext h wd 1
               ((λ i, [bimodal_of
                         (raw (rand w) (cursor (rand w) + 2 * Z.to_nat i))
                         (raw (rand w) (cursor (rand w) + 2 * Z.to_nat i + 1))])
                  <$> range (h * wd)))]> (files w))
       (stdout w ++ [Msg_created_pixels fn wd h])
       (RandomState (raw (rand w)) (cursor (rand w) + 2 * Z.to_nat (h * wd))))
  ∧ (∀ r1 r2, bimodal_value (bimodal_of r1 r2)).
Proof.
  intros Hdir. split; [|apply bimodal_of_value].
  unfold Large.create_bimodal_image, makedirs.
  destruct (dirname fn) as [|c0 d]; [done|].
  unfold mbind at 1, M_bind at 1. unfold mret at 1, M_ret at 1.
  rewrite (open_write_draws fn (header_line h wd 1) (λ _, Large.bimodal_val)
             (λ val, str val ++ [LF]) 2
             (λ _ raw c, bimodal_of (raw c) (raw (c + 1)%nat)))
    by (intros _; apply draws_bimodal_val).
  unfold print, plaintext. cbn [files stdout rand].
  unfold range at 2. rewrite length_seqZ.
  replace (Z.to_nat (h * wd) * 2)%nat with (2 * Z.to_nat (h * wd))%nat by lia.
  rewrite imap_range, <- list_fmap_compose.
  do 2 f_equal. f_equal. do 3 f_equal.
  apply list_fmap_ext. intros i y _. unfold compose, row_line. cbn [fmap list_fmap join].
  do 3 f_equal; f_equal; lia.
Qed.

Lemma X10_large_bimodal_values_witness :
  files (Large.create_bimodal_image 1 2 "test_images/t.txt" (sample_world ∅)).2
    !! "test_images/t.txt"
  = Some (TextFile (plaintext 1 2 1 [[22]; [61]])).
Proof.
  rewrite (proj1 (X10_large_bimodal_values 1 2 "test_images/t.txt" (sample_world ∅)
                    ltac:(vm_compute; intros H; discriminate H))).
  vm_compute. reflexivity.
Defined.

(** ** File names without a directory *)

Lemma head_to_last_slash_None s :
  head_to_last_slash s = None ↔ "/"%char ∉ s.
Proof.
  induction s as [|c s IH]; cbn.
  - split; [intros _; apply not_elem_of_nil | done].
  - destruct (head_to_last_slash s) as [hd|] eqn:E.
    + split; [done|]. intros Hc. apply not_elem_of_cons in Hc as [_ Hs].
      by apply IH in Hs.
    + destruct (Ascii.eqb c "/") eqn:Ec.
      * split; [done|]. intros Hc. apply not_elem_of_cons in Hc as [Hc _].
        apply Ascii.eqb_eq in Ec. by subst.
      * split; [|done]. intros _. apply not_elem_of_cons. split.
        -- intros <-. by rewrite Ascii.eqb_refl in Ec.
        -- by apply IH.
Qed.

Lemma head_to_last_slash_nonempty s hd : head_to_last_slash s = Some hd → hd ≠ [].
Proof.
  destruct s as [|c s]; cbn; [done|].
  destruct (head_to_last_slash s); [by intros [= <-]|].
  destruct (Ascii.eqb c "/"); [by intros [= <-] | done].
Qed.

Lemma lstrip_slash_nil l : lstrip_slash l = [] → forallb is_slash l = true.
Proof.
  induction l as [|c l IH]; cbn; [done|].
  destruct (is_slash c); [apply IH | done].
Qed.

Lemma dirname_nil_iff fn : dirname fn = [] ↔ "/"%char ∉ list_ascii_of_string fn.
Proof.
  rewrite <- head_to_last_slash_None. unfold dirname.
  destruct (head_to_last_slash (list_ascii_of_string fn)) as [hd|] eqn:E; [|done].
  split; [|done]. intros Hd. exfalso.
  pose proof (head_to_last_slash_nonempty _ _ E) as Hne.
  destruct (forallb is_slash hd) eqn:Ea; [done|].
  apply (f_equal reverse) in Hd. rewrite reverse_involutive in Hd. cbn in Hd.
  apply lstrip_slash_nil in Hd.
  rewrite forallb_forall in Hd.
  assert (Ha : forallb is_slash hd = true).
  { rewrite forallb_forall. intros c Hc. apply Hd.
    apply list_elem_of_In. apply elem_of_reverse. by apply list_elem_of_In. }
  congruence.
Qed.

(** X11: the large bimodal generator cannot write to a bare file name.
    When the name contains no slash, whatever the height and width, the
    directory to create is the empty path, the call fails with
    [FileNotFoundError] before the file is opened, and nothing is
    written, printed or drawn. *)
Theorem X11_large_bimodal_bare_name (h wd : Z) (fn : string) (w : world) :
  "/"%char ∉ list_ascii_of_string fn →
  Large.create_bimodal_image h wd fn w = (inl (FileNotFoundError EmptyString), w).
Proof.
  intros Hs. apply create_bimodal_image_no_directory. by apply dirname_nil_iff.
Qed.

Lemma X11_large_bimodal_bare_name_witness :
  Large.create_bimodal_image 256 256 "test_bimodal.txt" (sample_world ∅)
  = (inl (FileNotFoundError EmptyString), sample_world ∅).
Proof.
  apply (X11_large_bimodal_bare_name 256 256 "test_bimodal.txt" (sample_world ∅)).
  vm_compute. intros H. by repeat (apply elem_of_cons in H as [H|H]; [discriminate H|]);
    apply elem_of_nil in H.
Defined.

Lemma concat_singletons {A} (l : list A) : concat ((λ v, [v]) <$> l) = l.
Proof. induction l as [|x l IH]; [done|]. cbn. by rewrite IH. Qed.

(** X12: the file of the large bimodal generator, one value per line, is
    still read by [convert_to_img]: the reader gathers tokens, however
    they are spread over lines.  Generating an h x w image, h and w at
    least 1, and converting it into a PNG file stores an image of width
    w and height h holding the h * w generated values in order, and no
    warning is printed. *)
Theorem X12_large_bimodal_converts (h wd : Z) (fn img_path : string) (w : world) :
  dirname fn ≠ [] → 0 < h → 0 < wd → PIL.png img_path = true →
  ∃ vals,
    let w1 := (Large.create_bimodal_image h wd fn w).2 in
    let w2 := (convert_to_img fn img_path w1).2 in
    files w1 !! fn = Some (TextFile (plaintext h wd 1 ((λ v, [v]) <$> vals)))
    ∧ Z.of_nat (length vals) = h * wd
    ∧ Forall bimodal_value vals
    ∧ files w2 !! img_path = Some (ImageFile (Image wd h vals))
    ∧ stdout w2 = stdout w ++ [Msg_created_pixels fn wd h;
                               Msg_converting_to_img fn img_path; Msg_done].
Proof.
  intros Hdir Hh Hwd Hpng.
  destruct (create_bimodal_image_sure h wd fn w Hdir)
    as (vals & w1 & Hr & Hf & Ho & Hv & Hlen).
  exists vals. cbv zeta. rewrite Hr. cbn [snd].
  assert (Hf1 : files w1 !! fn = Some (TextFile (plaintext h wd 1 ((λ v, [v]) <$> vals))))
    by (rewrite Hf; apply lookup_insert_eq).
  rewrite (convert_to_img_plaintext w1 fn img_path h wd 1 ((λ v, [v]) <$> vals) Hf1);
    rewrite ?concat_singletons; try lia; try done.
  - cbn [snd files stdout]. split_and!; try done.
    + lia.
    + apply lookup_insert_eq.
    + by rewrite Ho, <- app_assoc.
  - eapply Forall_impl; [exact Hv|]. intros v Hb. by apply bimodal_value_byte.
Qed.

Lemma X12_large_bimodal_converts_witness :
  ∃ vals,
    let w1 := (Large.create_bimodal_image 2 2 "test_images/t.txt" (sample_world ∅)).2 in
    let w2 := (convert_to_img "test_images/t.txt" "t.png" w1).2 in
    files w1 !! "test_images/t.txt"
    = Some (TextFile (plaintext 2 2 1 ((λ v, [v]) <$> vals)))
    ∧ Z.of_nat (length vals) = 2 * 2
    ∧ Forall bimodal_value vals
    ∧ files w2 !! "t.png" = Some (ImageFile (Image 2 2 vals))
    ∧ stdout w2 = stdout (sample_world ∅)
                    ++ [Msg_created_pixels "test_images/t.txt" 2 2;
                        Msg_converting_to_img "test_images/t.txt" "t.png"; Msg_done].
Proof.
  apply (X12_large_bimodal_converts 2 2 "test_images/t.txt" "t.png" (sample_world ∅)).
  - vm_compute. intros H. discriminate H.
  - lia.
  - lia.
  - reflexivity.
Defined.

(** ** The images of the segmentation tests, pixel by pixel *)

(** X13: the two-level and the three-level image.  The left [width // 2]
    columns of the former hold the background and the others the
    foreground, so with an odd width the foreground is one column
    wider.  The latter holds 30 in its first [width // 3] columns, 128
    in the next [width // 3] and 230 in all that remain: the bright
    band takes the columns left over by the division, and an image less
    than three columns wide is 230 throughout. *)
Theorem X13_seg_level_images :
  (∀ width height bg_val fg_val,
     0 <= width → 0 <= height → byte bg_val → byte fg_val →
     ∃ img,
       Seg.generate_bimodal_image width height bg_val fg_val = inr img
       ∧ nd_shape img = (height, width)
       ∧ ∀ y x, 0 <= y < height → 0 <= x < width →
           pixel img y x = Some (if x <? width / 2 then bg_val else fg_val))
  ∧ (∀ width height,
       0 <= width → 0 <= height →
       ∃ img,
         Seg.generate_three_level_image width height = inr img
         ∧ nd_shape img = (height, width)
         ∧ (∀ y x, 0 <= y < height → 0 <= x < width →
              pixel img y x
              = Some (if x <? width / 3 then 30
                      else if x <? 2 * (width / 3) then 128 else 230))
         ∧ (width < 3 → ∀ y x, 0 <= y < height → 0 <= x < width →
              pixel img y x = Some 230)).
Proof.
  split.
  - intros width height bg fg Hw Hh Hbg Hfg.
    unfold Seg.generate_bimodal_image. rewrite full_ok by done.
    eexists. split; [reflexivity|]. split; [done|].
    intros y x Hy Hx. rewrite !pixel_assign, pixel_replicate by done.
    cbn [fmap option_fmap option_map]. f_equal.
    unfold np.all_, np.below, np.from. cbn [andb].
    rewrite !uint8_id by done.
    destruct (Z.ltb_spec x (width / 2)), (Z.leb_spec (width / 2) x); (done || lia).
  - intros width height Hw Hh.
    unfold Seg.generate_three_level_image. rewrite full_ok by done.
    eexists. split; [reflexivity|]. split; [done|].
    assert (Hpix : ∀ y x, 0 <= y < height → 0 <= x < width →
              pixel
                (np.assign
                   (np.assign
                      (np.assign
                         (NdArray (height, width)
                            (replicate (Z.to_nat height) (replicate (Z.to_nat width) 0)))
                         np.all_ (np.below (width / 3)) (λ _ _, np.uint8 30))
                      np.all_ (np.between (width / 3) (2 * (width / 3)))
                      (λ _ _, np.uint8 128))
                   np.all_ (np.from (2 * (width / 3))) (λ _ _, np.uint8 230)) y x
              = Some (if x <? width / 3 then 30
                      else if x <? 2 * (width / 3) then 128 else 230)).
    { intros y x Hy Hx. rewrite !pixel_assign, pixel_replicate by done.
      cbn [fmap option_fmap option_map]. f_equal.
      unfold np.all_, np.below, np.from, np.between. cbn [andb].
      change (np.uint8 30) with 30. change (np.uint8 128) with 128.
      change (np.uint8 230) with 230.
      pose proof (Z.div_pos width 3 Hw ltac:(lia)).
      destruct (Z.ltb_spec x (width / 3)), (Z.leb_spec (2 * (width / 3)) x),
        (Z.leb_spec (width / 3) x), (Z.ltb_spec x (2 * (width / 3)));
        cbn [andb]; (done || lia). }
    split; [exact Hpix|].
    intros Hw3 y x Hy Hx. cbn zeta. rewrite Hpix by done.
    assert (width / 3 = 0) as -> by (apply Z.div_small; lia).
    destruct (Z.ltb_spec x 0); [lia|]. destruct (Z.ltb_spec x (2 * 0)); [lia|done].
Qed.

Lemma X13_seg_level_images_witness :
  (∃ img,
     Seg.generate_bimodal_image 5 1 50 200 = inr img
     ∧ nd_shape img = (1, 5)
     ∧ ∀ y x, 0 <= y < 1 → 0 <= x < 5 →
         pixel img y x = Some (if x <? 5 / 2 then 50 else 200))
  ∧ (∃ img,
       Seg.generate_three_level_image 2 1 = inr img
       ∧ nd_shape img = (1, 2)
       ∧ (∀ y x, 0 <= y < 1 → 0 <= x < 2 →
            pixel img y x
            = Some (if x <? 2 / 3 then 30 else if x <? 2 * (2 / 3) then 128 else 230))
       ∧ (2 < 3 → ∀ y x, 0 <= y < 1 → 0 <= x < 2 → pixel img y x = Some 230)).
Proof.
  split.
  - apply (proj1 X13_seg_level_images); unfold byte; lia.
  - apply (proj2 X13_seg_level_images); lia.
Defined.

(** X14: the circle image: a pixel holds the foreground value exactly when
    it lies within [min(width, height) // 3] of the centre
    [(height // 2, width // 2)].  So the centre pixel of every
    non-empty image is foreground, and as soon as both sides are at
    least 2 the corner pixel (0, 0) is background: the image has both
    levels. *)
Theorem X14_seg_circle_image (width height bg_val fg_val : Z) :
  0 <= width → 0 <= height → byte bg_val → byte fg_val →
  ∃ img,
    Seg.generate_circle_image width height bg_val fg_val = inr img
    ∧ nd_shape img = (height, width)
    ∧ (∀ y x, 0 <= y < height → 0 <= x < width →
         pixel img y x
         = Some (if (x - width / 2) ^ 2 + (y - height / 2) ^ 2
                    <=? (Z.min width height / 3) ^ 2
                 then fg_val else bg_val))
    ∧ (1 <= width → 1 <= height → pixel img (height / 2) (width / 2) = Some fg_val)
    ∧ (2 <= width → 2 <= height → pixel img 0 0 = Some bg_val).
Proof.
  intros Hw Hh Hbg Hfg. unfold Seg.generate_circle_image.
  rewrite full_ok by done. cbn [mbind result_bind mret result_ret].
  eexists. split; [reflexivity|].
  set (p := λ y x : Z, (x - width / 2) ^ 2 + (y - height / 2) ^ 2
                       <=? (Z.min width height / 3) ^ 2).
  set (img0 := NdArray (height, width)
                 (replicate (Z.to_nat height) (replicate (Z.to_nat width) (np.uint8 bg_val)))).
  change (foldl _ img0 (range height))
    with (foldl (λ img y, foldl (scan_step p (λ _ _, np.uint8 fg_val) y) img (range width))
            img0 (range height)).
  assert (Hpix : ∀ y x, 0 <= y < height → 0 <= x < width →
            pixel (foldl (λ img y,
                     foldl (scan_step p (λ _ _, np.uint8 fg_val) y) img (range width))
                     img0 (range height)) y x
            = Some (if p y x then fg_val else bg_val)).
  { intros y x Hy Hx. unfold img0. rewrite pixel_scan, pixel_replicate by done.
    cbn [fmap option_fmap option_map]. f_equal.
    rewrite bool_decide_eq_true_2 by (by rewrite !elem_of_range).
    cbn [andb]. rewrite !uint8_id by done. done. }
  split_and!.
  - by rewrite (proj1 (scan_shape _ _ _ _ _)).
  - exact Hpix.
  - intros Hw1 Hh1.
    assert (0 <= height / 2 < height) by (split; [apply Z.div_pos|apply Z.div_lt_upper_bound]; lia).
    assert (0 <= width / 2 < width) by (split; [apply Z.div_pos|apply Z.div_lt_upper_bound]; lia).
    rewrite Hpix by done. unfold p. rewrite !Z.sub_diag.
    destruct (Z.leb_spec (0 ^ 2 + 0 ^ 2) ((Z.min width height / 3) ^ 2)); [done|].
    pose proof (Z.pow_nonneg (Z.min width height / 3) 2). cbn in *. lia.
  - intros Hw2 Hh2. rewrite Hpix by lia. unfold p.
    destruct (Z.leb_spec ((0 - width / 2) ^ 2 + (0 - height / 2) ^ 2)
                ((Z.min width height / 3) ^ 2)) as [Hle|]; [exfalso|done].
    set (m := Z.min width height) in *.
    assert (Hm : 2 <= m) by (unfold m; lia).
    assert (Hm3 : 0 <= m / 3 <= m / 2).
    { split; [apply Z.div_pos; lia|].
      apply Z.div_le_lower_bound; [lia|].
      pose proof (Z.mul_div_le m 3 ltac:(lia)).
      pose proof (Z.div_pos m 3 ltac:(lia) ltac:(lia)). lia. }
    assert (Hm2 : 1 <= m / 2) by (apply Z.div_le_lower_bound; lia).
    assert (Hw' : m / 2 <= width / 2) by (apply Z.div_le_mono; unfold m; lia).
    assert (Hh' : m / 2 <= height / 2) by (apply Z.div_le_mono; unfold m; lia).
    rewrite !Z.pow_2_r in Hle. nia.
Qed.

Lemma X14_seg_circle_image_witness :
  ∃ img,
    Seg.generate_circle_image 6 6 30 220 = inr img
    ∧ nd_shape img = (6, 6)
    ∧ (∀ y x, 0 <= y < 6 → 0 <= x < 6 →
         pixel img y x
         = Some (if (x - 6 / 2) ^ 2 + (y - 6 / 2) ^ 2 <=? (Z.min 6 6 / 3) ^ 2
                 then 220 else 30))
    ∧ (1 <= 6 → 1 <= 6 → pixel img (6 / 2) (6 / 2) = Some 220)
    ∧ (2 <= 6 → 2 <= 6 → pixel img 0 0 = Some 30).
Proof. apply X14_seg_circle_image; unfold byte; lia. Defined.

Section LargeTest.
Context {F : Type} {ops : PyFloat F} {laws : @PyFloatLaws F ops}.

Lemma large_test_fill (rng : np.random F) width height :
  4 <= width <= 2 ^ 45 → 0 <= height →
  Seg.generate_large_test_image rng width height
  = inr (np.assign
           (np.assign
              (np.assign
                 (foldl (λ img x,
                      np.assign img (np.below (height / 2)) (np.at_ x)
                        (λ _ _, np.uint8 (255 * x / (width / 2 - 1))))
                    (NdArray (height, width)
                       (replicate (Z.to_nat height) (replicate (Z.to_nat width) 0)))
                    (range (width / 2)))
                 (np.below (height / 2)) (np.from (width / 2)) (λ _ _, np.uint8 200))
              (np.from (height / 2)) (np.below (width / 2)) (λ _ _, np.uint8 50))
           (np.from (height / 2)) (np.from (width / 2))
           (λ y x,
              0 + np.random_bits rng 123
                    (Z.to_nat ((y - height / 2) * (width - width / 2) + (x - width / 2)))
                  mod (256 - 0))).
Proof.
  intros Hw Hh. unfold Seg.generate_large_test_image.
  rewrite full_ok by lia. unfold mbind at 1, result_bind at 1.
  assert (Hhalf : 2 <= width / 2 <= 2 ^ 45).
  { split; [apply Z.div_le_lower_bound; lia|].
    apply Z.div_le_upper_bound; lia. }
  rewrite (fold_result_pure _
             (λ img x, np.assign img (np.below (height / 2)) (np.at_ x)
                         (λ _ _, np.uint8 (255 * x / (width / 2 - 1))))).
  2:{ intros img x Hx. apply elem_of_range in Hx. by rewrite ramp_floor by lia. }
  done.
Qed.

End LargeTest.

(** X15: the large mixed image, quadrant by quadrant, for a width of at
    least 4: the top-left quadrant is a ramp whose value at column [x]
    is floor(255 * x / (width // 2 - 1)), from 0 in column 0 to 255 in
    its last column; the top-right quadrant is 200, the bottom-left one
    50, and entry (y, x) of the bottom-right quadrant is the low byte of
    the draw numbered row by row within that quadrant. *)
Theorem X15_seg_large_test_image {F : Type} (ops : PyFloat F) (laws : @PyFloatLaws F ops)
    (rng : np.random F) (width height : Z) :
  4 <= width <= 2 ^ 45 → 0 <= height →
  ∃ img,
    Seg.generate_large_test_image rng width height = inr img
    ∧ nd_shape img = (height, width)
    ∧ (∀ y x, 0 <= y < height → 0 <= x < width →
         pixel img y x = Some (large_test_value rng width height y x))
    ∧ (∀ y, 0 <= y < height / 2 →
         pixel img y 0 = Some 0 ∧ pixel img y (width / 2 - 1) = Some 255).
Proof.
  intros Hw Hh. rewrite large_test_fill by done.
  eexists. split; [reflexivity|]. split.
  { rewrite !shape_assign. by rewrite (proj1 (fill_cols_shape _ _ _ _)). }
  assert (Hhalf : 2 <= width / 2 < width).
  { split; [apply Z.div_le_lower_bound; lia|].
    apply Z.div_lt_upper_bound; lia. }
  match goal with |- (∀ y x, _ → _ → pixel ?i y x = _) ∧ _ => set (img := i) end.
  assert (Hpix : ∀ y x, 0 <= y < height → 0 <= x < width →
            pixel img y x = Some (large_test_value rng width height y x)).
  { intros y x Hy Hx. unfold img.
    rewrite !pixel_assign, pixel_fill_cols, pixel_replicate by done.
    cbn [fmap option_fmap option_map]. f_equal.
    unfold large_test_value, np.below, np.from.
    change (np.uint8 200) with 200. change (np.uint8 50) with 50.
    rewrite Z.add_0_l, Z.sub_0_r.
    destruct (Z.ltb_spec y (height / 2)), (Z.leb_spec (height / 2) y); try lia;
      destruct (Z.ltb_spec x (width / 2)), (Z.leb_spec (width / 2) x); try lia;
      cbn [andb]; try done.
    rewrite bool_decide_eq_true_2 by (apply elem_of_range; lia).
    apply uint8_id. unfold byte. split.
    - apply Z.div_pos; lia.
    - apply Z.div_le_upper_bound; lia. }
  split; [exact Hpix|].
  intros y Hy.
  assert (Hyh : 0 <= y < height).
  { split; [lia|]. pose proof (Z.mul_div_le height 2 ltac:(lia)). lia. }
  rewrite !Hpix by lia. unfold large_test_value.
  destruct (Z.ltb_spec y (height / 2)); [|lia].
  destruct (Z.ltb_spec 0 (width / 2)); [|lia].
  destruct (Z.ltb_spec (width / 2 - 1) (width / 2)); [|lia].
  split; f_equal. apply Z.div_mul. lia.
Qed.

Lemma X15_seg_large_test_image_witness :
  ∃ img,
    Seg.generate_large_test_image (H:=exact_arith) sample_np_random 8 2 = inr img
    ∧ nd_shape img = (2, 8)
    ∧ (∀ y x, 0 <= y < 2 → 0 <= x < 8 →
         pixel img y x = Some (large_test_value sample_np_random 8 2 y x))
    ∧ (∀ y, 0 <= y < 2 / 2 →
         pixel img y 0 = Some 0 ∧ pixel img y (8 / 2 - 1) = Some 255).
Proof.
  apply (X15_seg_large_test_image exact_arith exact_laws sample_np_random 8 2).
  - split; [lia|]. apply Z.leb_le. reflexivity.
  - lia.
Defined.

(** ** The areas of the checkerboard *)

Lemma rows_of_pixels (img : ndarray Z) (H W : Z) (f : Z → Z → Z) :
  nd_shape img = (H, W) → well_shaped img →
  (∀ y x, 0 <= y < H → 0 <= x < W → pixel img y x = Some (f y x)) →
  nd_rows img = (λ y, (λ x, f y x) <$> range W) <$> range H.
Proof.
  intros Hs (Hh & Hw & Hlen & Hrows) Hpix. rewrite Hs in *. cbn [fst snd] in *.
  apply list_eq. intros i. rewrite list_lookup_fmap. unfold range at 2.
  destruct (decide (i < Z.to_nat H)%nat) as [Hi|Hi].
  - rewrite lookup_seqZ_lt by lia. cbn [fmap option_fmap option_map].
    destruct (nd_rows img !! i) as [row|] eqn:Er.
    2:{ apply lookup_ge_None in Er. lia. }
    f_equal. rewrite Forall_forall in Hrows.
    pose proof (Hrows row (list_elem_of_lookup_2 _ _ _ Er)) as Hrl. cbn in Hrl.
    apply list_eq. intros j. rewrite list_lookup_fmap. unfold range.
    destruct (decide (j < Z.to_nat W)%nat) as [Hj|Hj].
    + rewrite lookup_seqZ_lt by lia. cbn [fmap option_fmap option_map].
      specialize (Hpix (Z.of_nat i) (Z.of_nat j) ltac:(lia) ltac:(lia)).
      unfold pixel in Hpix.
      rewrite (proj2 (Z.leb_le 0 (Z.of_nat i))) in Hpix by lia.
      rewrite (proj2 (Z.leb_le 0 (Z.of_nat j))) in Hpix by lia.
      cbn [andb] in Hpix. rewrite !Nat2Z.id, Er in Hpix. cbn in Hpix.
      rewrite Hpix. do 2 f_equal; lia.
    + rewrite lookup_seqZ_ge by lia. cbn. apply lookup_ge_None. lia.
  - rewrite lookup_seqZ_ge by lia. cbn. apply lookup_ge_None. lia.
Qed.

Lemma count_app v l1 l2 : count v (l1 ++ l2) = (count v l1 + count v l2)%nat.
Proof. unfold count. by rewrite filter_app, length_app. Qed.

Lemma count_fmap_all {A} v (f : A → Z) l :
  (∀ x, x ∈ l → f x = v) → count v (f <$> l) = length l.
Proof.
  unfold count. induction l as [|x l IH]; intros Hf; [done|].
  cbn [fmap list_fmap]. rewrite filter_cons_True by (apply Hf; left).
  cbn. rewrite IH; [done|]. intros y Hy. apply Hf. by right.
Qed.

Lemma count_fmap_none {A} v (f : A → Z) l :
  (∀ x, x ∈ l → f x ≠ v) → count v (f <$> l) = 0%nat.
Proof.
  unfold count. induction l as [|x l IH]; intros Hf; [done|].
  cbn [fmap list_fmap]. rewrite filter_cons_False by (apply Hf; left).
  apply IH. intros y Hy. apply Hf. by right.
Qed.

Lemma count_concat v (ls : list (list Z)) (n : nat) :
  Forall (λ l, count v l = n) ls → count v (concat ls) = (length ls * n)%nat.
Proof.
  induction 1 as [|l ls Hl _ IH]; [done|].
  cbn [concat length]. rewrite count_app, Hl, IH. lia.
Qed.

(** In a row of the checkerboard, two adjacent blocks hold the two
    colours, once each. *)
Lemma checker_block_pair b dark bright y (k : Z) :
  0 < b → 0 <= k →
  ((∀ x, x ∈ seqZ (2 * b * k) b → checker b dark bright y x = dark)
   ∧ (∀ x, x ∈ seqZ (2 * b * k + b) b → checker b dark bright y x = bright))
  ∨ ((∀ x, x ∈ seqZ (2 * b * k) b → checker b dark bright y x = bright)
     ∧ (∀ x, x ∈ seqZ (2 * b * k + b) b → checker b dark bright y x = dark)).
Proof.
  intros Hb Hk.
  assert (H1 : ∀ x, x ∈ seqZ (2 * b * k) b → x / b = 2 * k).
  { intros x Hx. apply elem_of_seqZ in Hx.
    symmetry. apply (Z.div_unique_pos x b (2 * k) (x - 2 * b * k)); lia. }
  assert (H2 : ∀ x, x ∈ seqZ (2 * b * k + b) b → x / b = 2 * k + 1).
  { intros x Hx. apply elem_of_seqZ in Hx.
    symmetry. apply (Z.div_unique_pos x b (2 * k + 1) (x - 2 * b * k - b)); lia. }
  unfold checker.
  destruct (Z.eqb_spec ((2 * k + y / b) mod 2) 0) as [Hp|Hp].
  - left. split; intros x Hx.
    + rewrite (H1 x Hx). by rewrite (proj2 (Z.eqb_eq _ _) Hp).
    + rewrite (H2 x Hx).
      destruct (Z.eqb_spec ((2 * k + 1 + y / b) mod 2) 0) as [Hq|]; [|done].
      exfalso. set (q := y / b) in *. clearbody q.
      pose proof (Z.div_mod (2 * k + q) 2 ltac:(lia)).
      pose proof (Z.div_mod (2 * k + 1 + q) 2 ltac:(lia)).
      pose proof (Z.mod_pos_bound (2 * k + q) 2 ltac:(lia)).
      pose proof (Z.mod_pos_bound (2 * k + 1 + q) 2 ltac:(lia)).
      set (m1 := (2 * k + q) mod 2) in *. set (m2 := (2 * k + 1 + q) mod 2) in *.
      set (d1 := (2 * k + q) / 2) in *. set (d2 := (2 * k + 1 + q) / 2) in *.
      clearbody m1 m2 d1 d2. lia.
  - right. split; intros x Hx.
    + rewrite (H1 x Hx). by rewrite (proj2 (Z.eqb_neq _ _) Hp).
    + rewrite (H2 x Hx).
      destruct (Z.eqb_spec ((2 * k + 1 + y / b) mod 2) 0) as [|Hq]; [done|].
      exfalso. set (q := y / b) in *. clearbody q.
      pose proof (Z.div_mod (2 * k + q) 2 ltac:(lia)).
      pose proof (Z.div_mod (2 * k + 1 + q) 2 ltac:(lia)).
      pose proof (Z.mod_pos_bound (2 * k + q) 2 ltac:(lia)).
      pose proof (Z.mod_pos_bound (2 * k + 1 + q) 2 ltac:(lia)).
      set (m1 := (2 * k + q) mod 2) in *. set (m2 := (2 * k + 1 + q) mod 2) in *.
      set (d1 := (2 * k + q) / 2) in *. set (d2 := (2 * k + 1 + q) / 2) in *.
      clearbody m1 m2 d1 d2. lia.
Qed.

Lemma checker_row_counts b dark bright y (k : nat) :
  0 < b → dark ≠ bright →
  count dark (checker b dark bright y <$> range (2 * b * Z.of_nat k))
  = (Z.to_nat b * k)%nat
  ∧ count bright (checker b dark bright y <$> range (2 * b * Z.of_nat k))
    = (Z.to_nat b * k)%nat.
Proof.
  intros Hb Hne. induction k as [|k [IHd IHb]].
  - change (Z.of_nat 0) with 0. rewrite Z.mul_0_r, Nat.mul_0_r. by split.
  - unfold range in *.
    replace (2 * b * Z.of_nat (S k)) with (2 * b * Z.of_nat k + (b + b)) by lia.
    rewrite seqZ_app, Z.add_0_l by lia.
    rewrite (seqZ_app _ b b) by lia.
    rewrite !fmap_app, !count_app, IHd, IHb.
    destruct (checker_block_pair b dark bright y (Z.of_nat k) Hb ltac:(lia))
      as [[Hl Hr]|[Hl Hr]].
    + rewrite (count_fmap_all dark), (count_fmap_none dark),
        (count_fmap_none bright), (count_fmap_all bright);
        try done; try (intros x Hx; first [rewrite (Hl x Hx) | rewrite (Hr x Hx)]; congruence).
      rewrite !length_seqZ. split; lia.
    + rewrite (count_fmap_none dark), (count_fmap_all dark),
        (count_fmap_all bright), (count_fmap_none bright);
        try done; try (intros x Hx; first [rewrite (Hl x Hx) | rewrite (Hr x Hx)]; congruence).
      rewrite !length_seqZ. split; lia.
Qed.

(** X16: the checkerboard of the segmentation tests has equal areas of dark
    and bright, as its docstring expects, whenever the width is a
    multiple of twice the block size (the default 256 and 32 are): the
    array is the grid of the block colours, every row holds as many
    dark as bright pixels, and each colour covers half of the
    [width * height] pixels. *)
Theorem X16_checkerboard_equal_areas (width height block_size dark bright : Z) :
  0 < block_size → byte dark → byte bright → dark ≠ bright →
  0 <= height → 0 <= width → (2 * block_size | width) →
  ∃ img,
    Seg.generate_checkerboard_image width height block_size dark bright = inr img
    ∧ nd_rows img
      = (λ y, (λ x, checker block_size dark bright y x) <$> range width) <$> range height
    ∧ count dark (concat (nd_rows img)) = count bright (concat (nd_rows img))
    ∧ 2 * Z.of_nat (count dark (concat (nd_rows img))) = width * height.
Proof.
  intros Hb Hd Hbr Hne Hh Hw [k Hk].
  rewrite generate_checkerboard_scan by lia.
  eexists. split; [reflexivity|].
  destruct (scan_shape (λ _ _, true)
              (λ y x, np.uint8 (checker block_size dark bright y x))
              (range height) (range width)
              (NdArray (height, width)
                 (replicate (Z.to_nat height) (replicate (Z.to_nat width) 0))))
    as (Hs & Hws & _).
  match goal with |- nd_rows ?i = _ ∧ _ => set (img := i) in * end.
  assert (Hrows : nd_rows img
                  = (λ y, (λ x, checker block_size dark bright y x) <$> range width)
                      <$> range height).
  { apply rows_of_pixels.
    - by rewrite Hs.
    - apply Hws. unfold well_shaped. cbn. split_and!; try lia.
      + by rewrite length_replicate.
      + apply Forall_replicate. by rewrite length_replicate.
    - intros y x Hy Hx. unfold img. rewrite pixel_scan, pixel_replicate by done.
      cbn [fmap option_fmap option_map]. f_equal.
      rewrite bool_decide_eq_true_2 by (by rewrite !elem_of_range).
      cbn [andb]. apply uint8_id. unfold checker. by destruct (_ =? 0). }
  split; [exact Hrows|]. rewrite Hrows.
  assert (Hk0 : 0 <= k) by nia.
  assert (Hwk : width = 2 * block_size * Z.of_nat (Z.to_nat k)) by lia.
  assert (Hcount : ∀ v, v = dark ∨ v = bright →
            count v (concat ((λ y, (λ x, checker block_size dark bright y x) <$> range width)
                               <$> range height))
            = (Z.to_nat height * (Z.to_nat block_size * Z.to_nat k))%nat).
  { intros v Hv. rewrite (count_concat v _ (Z.to_nat block_size * Z.to_nat k)).
    - rewrite length_fmap. unfold range. by rewrite length_seqZ.
    - apply Forall_fmap, Forall_true. intros y. cbn.
      rewrite Hwk.
      destruct (checker_row_counts block_size dark bright y (Z.to_nat k) Hb Hne)
        as [Cd Cb].
      by destruct Hv as [-> | ->]. }
  rewrite (Hcount dark), (Hcount bright) by tauto. split; [done|]. nia.
Qed.

Lemma X16_checkerboard_equal_areas_witness :
  ∃ img,
    Seg.generate_checkerboard_image 256 256 32 0 255 = inr img
    ∧ nd_rows img = (λ y, (λ x, checker 32 0 255 y x) <$> range 256) <$> range 256
    ∧ count 0 (concat (nd_rows img)) = count 255 (concat (nd_rows img))
    ∧ 2 * Z.of_nat (count 0 (concat (nd_rows img))) = 256 * 256.
Proof.
  apply X16_checkerboard_equal_areas; unfold byte; try lia.
  exists 4. reflexivity.
Defined.

(** ** The shape of the generated arrays *)








(** X18: an array saved by [save_image_txt] is read back by
    [convert_to_img]: for a well-shaped array of bytes with H >= 1 rows
    and W >= 1 columns, converted into a PNG file, the stored image has
    width W and height H and holds the entries of the array row after
    row, and no warning is printed.  So every array of the segmentation
    generators that is not empty can be turned into an image. *)
Theorem X18_saved_array_converts (arr : ndarray Z) (fn img_path : string) (w : world) :
  well_shaped arr → bytes_array arr →
  0 < (nd_shape arr).1 → 0 < (nd_shape arr).2 → PIL.png img_path = true →
  let w1 := (Seg.save_image_txt arr fn w).2 in
  let w2 := (convert_to_img fn img_path w1).2 in
  files w2 !! img_path
  = Some (ImageFile (Image (nd_shape arr).2 (nd_shape arr).1 (concat (nd_rows arr))))
  ∧ stdout w2 = stdout w ++ [Msg_created_txt fn (nd_shape arr).2 (nd_shape arr).1;
                             Msg_converting_to_img fn img_path; Msg_done].
Proof.
  intros Hws Hb Hh1 Hw1 Hpng. cbv zeta. rewrite save_image_txt_file by done. cbn [snd].
  destruct Hws as (Hh & Hwd & Hlen & Hrows).
  erewrite convert_to_img_plaintext.
  2:{ cbn [files]. apply lookup_insert_eq. }
  2-3, 6: done.
  - cbn [snd files stdout]. split; [apply lookup_insert_eq | by rewrite <- app_assoc].
  - apply (length_concat_grid _ (nd_shape arr).1 (nd_shape arr).2). split; [lia|].
    eapply Forall_impl; [exact Hrows|]. intros row Hr. cbn in Hr. lia.
  - apply Forall_concat. exact Hb.
Qed.

Lemma X18_saved_array_converts_witness :
  let arr := NdArray (2, 3) [[0; 128; 255]; [30; 128; 230]] in
  let w1 := (Seg.save_image_txt arr "a.txt" (sample_world ∅)).2 in
  let w2 := (convert_to_img "a.txt" "a.png" w1).2 in
  files w2 !! "a.png" = Some (ImageFile (Image 3 2 [0; 128; 255; 30; 128; 230])).
Proof.
  cbv zeta.
  refine (proj1 (X18_saved_array_converts (NdArray (2, 3) [[0; 128; 255]; [30; 128; 230]])
                   "a.txt" "a.png" (sample_world ∅) _ _ _ _ _)).
  - unfold well_shaped. cbn. split_and!; try lia; try reflexivity. repeat constructor.
  - unfold bytes_array, byte. cbn. repeat constructor; lia.
  - cbn. lia.
  - cbn. lia.
  - reflexivity.
Defined.

(** ** Degenerate arguments *)

(** X19: the gradients of the segmentation tests divide by the width minus
    one: a gradient one column wide, and a large mixed image two or
    three columns wide (whose ramp is one column wide), raise
    [ZeroDivisionError] and return no array, whatever the height; with
    no column at all there is nothing to divide and the empty array is
    returned. *)
Theorem X19_seg_gradient_degenerate {F : Type} (ops : PyFloat F) (height : Z) :
  0 <= height →
  Seg.generate_gradient_image 1 height = inl ZeroDivisionError
  ∧ (∀ rng, Seg.generate_large_test_image rng 2 height = inl ZeroDivisionError)
  ∧ (∀ rng, Seg.generate_large_test_image rng 3 height = inl ZeroDivisionError)
  ∧ Seg.generate_gradient_image 0 height
    = inr (NdArray (height, 0) (replicate (Z.to_nat height) [])).
Proof.
  intros Hh. unfold Seg.generate_gradient_image, Seg.generate_large_test_image.
  rewrite !full_ok by lia. split_and!; done.
Qed.

Lemma X19_seg_gradient_degenerate_witness :
  Seg.generate_gradient_image (H:=binary64) 1 256 = inl ZeroDivisionError
  ∧ (∀ rng, Seg.generate_large_test_image (H:=binary64) rng 2 256 = inl ZeroDivisionError)
  ∧ (∀ rng, Seg.generate_large_test_image (H:=binary64) rng 3 256 = inl ZeroDivisionError)
  ∧ Seg.generate_gradient_image (H:=binary64) 0 256
    = inr (NdArray (256, 0) (replicate (Z.to_nat 256) [])).
Proof. apply (X19_seg_gradient_degenerate binary64 256). lia. Defined.

Lemma range_pos n : 0 < n → range n = 0 :: seqZ 1 (n - 1).
Proof.
  intros Hn. unfold range. by rewrite (seqZ_cons 0 n).
Qed.

(** X20: a block size of zero makes the first pixel of a checkerboard divide
    by zero.  The generator of the edge-detection tests has by then
    opened its file and written the header: it raises
    [ZeroDivisionError] leaving a file that holds the header line only,
    and prints nothing.  The generator of the segmentation tests raises
    the same error and returns no array.  With a height of zero or less
    no pixel is computed, and the file is written, header only, and
    announced as usual. *)
Theorem X20_checkerboard_zero_block :
  (∀ h wd fn w,
     0 < h → 0 < wd →
     Edge.create_checkerboard_image h wd fn 0 w
     = (inl ZeroDivisionError,
        World (<[fn := TextFile (header_line h wd 1)]> (files w)) (stdout w) (rand w)))
  ∧ (∀ width height dark bright,
       0 < width → 0 < height →
       Seg.generate_checkerboard_image width height 0 dark bright
       = inl ZeroDivisionError)
  ∧ (∀ h wd fn w,
       h <= 0 →
       Edge.create_checkerboard_image h wd fn 0 w
       = (inr tt,
          World (<[fn := TextFile (header_line h wd 1)]> (files w))
            (stdout w ++ [Msg_created fn wd h]) (rand w))).
Proof.
  split_and!.
  - intros h wd fn w Hh Hwd. unfold Edge.create_checkerboard_image.
    unfold mbind at 1, M_bind at 1. rewrite makedirs_dirname_or_dot.
    unfold mbind at 1, M_bind at 1. unfold mbind at 1, M_bind at 1.
    pose proof (open_header fn h wd 1 w) as Hoh.
    unfold mbind at 1, M_bind at 1 in Hoh.
    destruct (open_w fn w) as [[e|[]] w0] eqn:Eo; [done|].
    rewrite Hoh. rewrite (range_pos h), (range_pos wd) by done.
    cbn [for_each collect]. unfold Edge.checkerboard_val at 1. cbn [Z.eqb].
    unfold mbind, M_bind, lift. done.
  - intros width height dark bright Hw Hh. unfold Seg.generate_checkerboard_image.
    rewrite full_ok by lia. unfold mbind, result_bind.
    rewrite (range_pos height), (range_pos width) by done. done.
  - intros h wd fn w Hh. unfold Edge.create_checkerboard_image.
    unfold mbind at 1, M_bind at 1. rewrite makedirs_dirname_or_dot.
    unfold mbind at 1, M_bind at 1. unfold mbind at 1, M_bind at 1.
    pose proof (open_header fn h wd 1 w) as Hoh.
    unfold mbind at 1, M_bind at 1 in Hoh.
    destruct (open_w fn w) as [[e|[]] w0] eqn:Eo; [done|].
    rewrite Hoh. unfold range at 1. rewrite seqZ_nil by done.
    cbn [for_each]. unfold mbind, M_bind, mret, M_ret, print. done.
Qed.

Lemma X20_checkerboard_zero_block_witness :
  Edge.create_checkerboard_image 256 256 "checker.txt" 0 (sample_world ∅)
  = (inl ZeroDivisionError,
     World (<[("checker.txt" : string) := TextFile (header_line 256 256 1)]> ∅) []
       (rand (sample_world ∅)))
  ∧ Seg.generate_checkerboard_image 256 256 0 0 255 = inl ZeroDivisionError.
Proof.
  split.
  - apply (proj1 X20_checkerboard_zero_block); lia.
  - apply (proj1 (proj2 X20_checkerboard_zero_block)); lia.
Defined.

(** ** The two image-to-text writers *)

(** X21: the two image-to-text writers agree: for a grayscale image of
    positive width, [save_image_matrix] in grayscale mode and
    [convert_to_txt] leave the same text in their output file. *)
Theorem X21_matrix_writers_agree (im : image) (w : world) (img_path txt_path : string) :
  files w !! img_path = Some (ImageFile im) →
  0 < im_width im → 0 <= im_height im →
  Z.of_nat (length (im_data im)) = im_width im * im_height im →
  files (save_image_matrix img_path txt_path true w).2 !! txt_path
  = files (convert_to_txt img_path txt_path w).2 !! txt_path
  ∧ files (convert_to_txt img_path txt_path w).2 !! txt_path
    = Some (TextFile (plaintext (im_height im) (im_width im) 1 (array_rows im))).
Proof.
  intros Hf Hw Hh Hlen.
  rewrite (save_image_matrix_gray im), (convert_to_txt_rows im) by (done || lia).
  cbn [snd files]. by rewrite lookup_insert_eq.
Qed.

Lemma X21_matrix_writers_agree_witness :
  let w := sample_world {["in.png" := ImageFile sample_image]} in
  files (save_image_matrix "in.png" "out.txt" true w).2 !! "out.txt"
  = files (convert_to_txt "in.png" "out.txt" w).2 !! "out.txt".
Proof.
  cbv zeta.
  refine (proj1 (X21_matrix_writers_agree sample_image _ "in.png" "out.txt" _ _ _ _));
    (reflexivity || (cbn; lia)).
Defined.

Lemma length_concat_triple (rows : list (list Z)) :
  length (concat (triple <$> rows)) = (3 * length (concat rows))%nat.
Proof.
  induction rows as [|row rows IH]; [done|].
  cbn [fmap list_fmap concat]. rewrite !length_app, length_triple, IH. lia.
Qed.

(** X22: the RGB text of [save_image_matrix] cannot be turned back into an
    image by [convert_to_img], which builds grayscale images only: the
    header is accepted, three values per pixel are read where one is
    expected, the warning about the count is printed and then the error
    of the imaging library, and no image is stored. *)
Theorem X22_rgb_matrix_not_convertible (im : image) (w : world)
    (input_path txt_path img_path : string) :
  files w !! input_path = Some (ImageFile im) →
  0 < im_width im → 0 < im_height im →
  Z.of_nat (length (im_data im)) = im_width im * im_height im →
  let w1 := (save_image_matrix input_path txt_path false w).2 in
  let w2 := (convert_to_img txt_path img_path w1).2 in
  files w2 = files w1
  ∧ stdout w2
    = stdout w1 ++ [Msg_converting_to_img txt_path img_path;
                    Msg_warning_expected_got (im_width im * im_height im)
                      (3 * (im_width im * im_height im));
                    Msg_error_converting_to_image TypeError_too_many_data].
Proof.
  intros Hf Hw Hh Hlen. cbv zeta.
  rewrite (save_image_matrix_rgb im) by (done || lia). cbn [snd].
  set (w1 := World _ _ _).
  assert (Hlen3 : Z.of_nat (length (concat (triple <$> array_rows im)))
                  = 3 * (im_width im * im_height im)).
  { rewrite length_concat_triple, array_rows_concat by (done || lia). lia. }
  rewrite (convert_to_img_built w1 txt_path img_path
             (plaintext (im_height im) (im_width im) 3 (triple <$> array_rows im))
             (header_line (im_height im) (im_width im) 3)
             (concat (row_line <$> (triple <$> array_rows im)))
             (im_height im) (im_width im) 3 (concat (triple <$> array_rows im))).
  2:{ unfold w1. cbn [files]. apply lookup_insert_eq. }
  2:{ apply readline_plaintext. }
  2:{ apply read_header_line. }
  2:{ apply read_pixels_rows. }
  unfold built, PIL.new.
  assert (Hneg : (im_width im <? 0) || (im_height im <? 0) = false)
    by (apply orb_false_intro; apply Z.ltb_ge; lia).
  rewrite Hneg. unfold mbind, result_bind, PIL.putdata. cbn [im_width im_height].
  rewrite (proj2 (Z.ltb_lt _ _)) by nia.
  cbn [snd files stdout]. split; [done|].
  unfold warning_if_mismatch. rewrite bool_decide_eq_true_2 by nia.
  by rewrite Hlen3.
Qed.

Lemma X22_rgb_matrix_not_convertible_witness :
  let w := sample_world {["in.png" := ImageFile sample_image]} in
  let w1 := (save_image_matrix "in.png" "rgb.txt" false w).2 in
  let w2 := (convert_to_img "rgb.txt" "out.png" w1).2 in
  files w2 = files w1
  ∧ stdout w2
    = stdout w1 ++ [Msg_converting_to_img "rgb.txt" "out.png";
                    Msg_warning_expected_got (2 * 2) (3 * (2 * 2));
                    Msg_error_converting_to_image TypeError_too_many_data].
Proof.
  cbv zeta.
  refine (X22_rgb_matrix_not_convertible sample_image _ "in.png" "rgb.txt" "out.png" _ _ _ _).
  - reflexivity.
  - cbn; lia.
  - cbn; lia.
  - reflexivity.
Defined.
